(** * A shallow embedding of the commit log (store, index, segment, log)

    The Go sources are modelled as pure functions that pass the mutated
    objects explicitly.  Unsigned 64-bit and 32-bit integers are values of
    [Z] with their wrap-around written out, byte slices are lists of
    [Byte.byte], and the log directory is a finite map from file names to
    file contents. *)

From Stdlib Require Import ZArith Lia List Ascii String.
From Stdlib Require Import Strings.Byte Decimal DecimalString DecimalN.
From stdpp Require Import base option list gmap strings sorting.

Local Open Scope Z_scope.

(** ** Machine integers *)

Definition wrap64 (z : Z) : Z := z mod 2 ^ 64.
Definition wrap32 (z : Z) : Z := z mod 2 ^ 32.

(** Go's conversion [int64(x)] of an unsigned 64-bit value. *)
Definition to_int64 (z : Z) : Z :=
  if wrap64 z <? 2 ^ 63 then wrap64 z else wrap64 z - 2 ^ 64.

(** ** Bytes and the big-endian encoding ([enc = binary.BigEndian]) *)

Abbreviation bytes := (list Byte.byte).

Definition Z_of_byte (b : Byte.byte) : Z := Z.of_N (Byte.to_N b).

Definition byte_of_Z (z : Z) : Byte.byte :=
  match Byte.of_N (Z.to_N (z mod 256)) with
  | Some b => b
  | None => Byte.x00
  end.

(** [be_encode n v] are the [n] low-order bytes of [v], most significant
    first: [PutUint32] is [be_encode 4] and [PutUint64] is [be_encode 8]. *)
Fixpoint be_encode (n : nat) (v : Z) : bytes :=
  match n with
  | O => []
  | S k => byte_of_Z (Z.shiftr v (8 * Z.of_nat k)) :: be_encode k v
  end.

(** [be_decode bs] reads [bs] as one big-endian number ([Uint32],
    [Uint64]). *)
Definition be_decode (bs : bytes) : Z :=
  fold_left (fun acc b => Z.lor (Z.shiftl acc 8) (Z_of_byte b)) bs 0.

Definition PutUint32 (v : Z) : bytes := be_encode 4 v.
Definition PutUint64 (v : Z) : bytes := be_encode 8 v.
Definition Uint32 (bs : bytes) : Z := be_decode bs.
Definition Uint64 (bs : bytes) : Z := be_decode bs.

(** Go's slice expression [b[lo:hi]]; [None] stands for the run-time panic
    "slice bounds out of range". *)
Definition slice (b : bytes) (lo hi : Z) : option bytes :=
  if (0 <=? lo) && (lo <=? hi) && (hi <=? Z.of_nat (length b))
  then Some (take (Z.to_nat (hi - lo)) (drop (Z.to_nat lo) b))
  else None.

(** Overwrite [b[lo : lo + len(v)]] with [v] (what [PutUint32] and
    [PutUint64] do to the slice they are handed). *)
Definition slice_put (b : bytes) (lo : Z) (v : bytes) : bytes :=
  take (Z.to_nat lo) b ++ v ++ drop (Z.to_nat lo + length v) b.

(** ** Errors *)

Inductive error : Type :=
| EOF                            (* io.EOF *)
| ErrOffsetOutOfRange (off : Z)  (* api.ErrOffsetOutOfRange{Offset: off} *)
| ErrClosed                      (* os.ErrClosed, use of a closed file *)
| ErrInvalid                     (* EINVAL: negative offset or length, empty mapping *)
| ErrNotExist                    (* ENOENT *)
| ErrCodec                       (* an error of the record codec *)
| Panic.                         (* a run-time panic *)

Inductive result (A : Type) : Type :=
| Ok (a : A)
| Err (e : error).
Arguments Ok {A} a.
Arguments Err {A} e.

(** ** Constants of the on-disk format *)

Definition lenWidth : Z := 8.
Definition offWidth : Z := 4.
Definition posWidth : Z := 8.
Definition entWidth : Z := offWidth + posWidth.

(** Modelled from the spec: the declaration of [Config] is not part of the
    sources; its three fields are the ones the code reads as
    [c.Segment.MaxStoreBytes], [c.Segment.MaxIndexBytes] and
    [c.Segment.InitialOffset], all [uint64]. *)
Record Config : Type := {
  MaxStoreBytes : Z;
  MaxIndexBytes : Z;
  InitialOffset : Z
}.

(** ** Records and their codec

    [api.Record] has a payload and an offset.  [proto.Marshal] and
    [proto.Unmarshal] belong to an external library and are taken as
    parameters. *)
Record api_Record : Type := {
  Value : bytes;
  Offset : Z
}.

Class Codec : Type := {
  Marshal : api_Record -> result bytes;
  Unmarshal : bytes -> result api_Record
}.

(** ** The log directory

    A directory is the finite map from the names of its files to their
    contents.  While a file is open its contents are carried by the handle
    (the log owns its directory exclusively); the map is read when a file
    is opened and written when it is closed. *)
Abbreviation directory := (gmap string bytes).

(** [os.OpenFile(name, ...|os.O_CREATE, 0644)] followed by [os.Stat]. *)
Definition OpenFile (d : directory) (name : string) : directory * bytes :=
  match d !! name with
  | Some content => (d, content)
  | None => (<[name := []]> d, [])
  end.

(** Contents of a file after [Truncate(n)], [0 <= n]: cut, or padded with
    zero bytes. *)
Definition resize (n : Z) (content : bytes) : bytes :=
  take (Z.to_nat n) content
  ++ replicate (Z.to_nat n - length content) Byte.x00.

(** [os.Remove(name)]. *)
Definition os_Remove (d : directory) (name : string) : result directory :=
  match d !! name with
  | Some _ => Ok (delete name d)
  | None => Err ErrNotExist
  end.

(** [fmt.Sprintf("%d%s", baseOffset, ext)]. *)
Definition file_name (baseOffset : Z) (ext : string) : string :=
  (NilZero.string_of_uint (N.to_uint (Z.to_N baseOffset)) ++ ext)%string.

(** ** store.go *)

Record store : Type := {
  store_name : string;   (* File.Name() *)
  store_file : bytes;    (* the bytes of the file *)
  store_closed : bool;   (* the file has been closed *)
  buf : bytes;           (* bufio.Writer: written but not yet flushed *)
  buf_err : option error;(* bufio.Writer: its sticky error *)
  store_size : Z
}.

Definition newStore (name : string) (content : bytes) : store :=
  {| store_name := name; store_file := content; store_closed := false;
     buf := []; buf_err := None;
     store_size := wrap64 (Z.of_nat (length content)) |}.

(** [bufio.Writer.Write]: the bytes are queued behind the ones already
    pending (the writer's automatic flushes of a full buffer only move
    pending bytes to the file earlier and are not modelled). *)
Definition buf_Write (s : store) (p : bytes) : result Z * store :=
  match buf_err s with
  | Some e => (Err e, s)
  | None =>
      (Ok (Z.of_nat (length p)),
       {| store_name := store_name s; store_file := store_file s;
          store_closed := store_closed s; buf := buf s ++ p;
          buf_err := None; store_size := store_size s |})
  end.

(** [bufio.Writer.Flush]: the pending bytes go to the end of the file
    (it is opened with [O_APPEND]). *)
Definition buf_Flush (s : store) : option error * store :=
  match buf_err s with
  | Some e => (Some e, s)
  | None =>
      match buf s with
      | [] => (None, s)
      | _ :: _ =>
          if store_closed s
          then (Some ErrClosed,
                {| store_name := store_name s; store_file := store_file s;
                   store_closed := true; buf := buf s;
                   buf_err := Some ErrClosed; store_size := store_size s |})
          else (None,
                {| store_name := store_name s;
                   store_file := store_file s ++ buf s;
                   store_closed := false; buf := [];
                   buf_err := None; store_size := store_size s |})
      end
  end.

(** [os.File.ReadAt(b, off)] with [len(b) = n]: an error unless all [n]
    bytes are there. *)
Definition File_ReadAt (s : store) (n : Z) (off : Z) : result bytes :=
  if store_closed s then Err ErrClosed
  else if off <? 0 then Err ErrInvalid
  else
    let got := take (Z.to_nat n) (drop (Z.to_nat off) (store_file s)) in
    if Z.of_nat (length got) <? n then Err EOF else Ok got.

Definition store_Append (s : store) (p : bytes) : result (Z * Z) * store :=
  let position := store_size s in
  match buf_Write s (PutUint64 (wrap64 (Z.of_nat (length p)))) with
  | (Err e, s1) => (Err e, s1)
  | (Ok _, s1) =>
      match buf_Write s1 p with
      | (Err e, s2) => (Err e, s2)
      | (Ok n, s2) =>
          let bytesWritten := n + lenWidth in
          (Ok (wrap64 bytesWritten, position),
           {| store_name := store_name s2; store_file := store_file s2;
              store_closed := store_closed s2; buf := buf s2;
              buf_err := buf_err s2;
              store_size := wrap64 (store_size s2 + wrap64 bytesWritten) |})
      end
  end.

Definition store_Read (s : store) (pos : Z) : result bytes * store :=
  match buf_Flush s with
  | (Some e, s1) => (Err e, s1)
  | (None, s1) =>
      match File_ReadAt s1 lenWidth (to_int64 pos) with
      | Err e => (Err e, s1)
      | Ok size =>
          if 2 ^ 63 <=? Uint64 size then (Err Panic, s1)  (* make: len out of range *)
          else
            match File_ReadAt s1 (Uint64 size) (to_int64 (wrap64 (pos + lenWidth))) with
            | Err e => (Err e, s1)
            | Ok record => (Ok record, s1)
            end
      end
  end.

(** [store.Close]: flush, then close the file; the directory now holds
    what was written. *)
Definition store_Close (s : store) (d : directory)
  : option error * store * directory :=
  match buf_Flush s with
  | (Some e, s1) => (Some e, s1, d)
  | (None, s1) =>
      if store_closed s1 then (Some ErrClosed, s1, d)
      else
        (None,
         {| store_name := store_name s1; store_file := store_file s1;
            store_closed := true; buf := buf s1; buf_err := buf_err s1;
            store_size := store_size s1 |},
         match d !! store_name s1 with
         | Some _ => <[store_name s1 := store_file s1]> d
         | None => d
         end)
  end.

(** ** index.go *)

Record index : Type := {
  index_name : string;  (* file.Name() *)
  index_closed : bool;  (* the file has been closed *)
  mmap : bytes;         (* the mapped region, as long as the file was when mapped *)
  index_size : Z
}.

(** [newIndex(f, c)], where [content] is what the file holds when it is
    opened: [size] is the length of the file, the file is then resized to
    [MaxIndexBytes] and mapped whole.  [os.Truncate] refuses a negative
    length and [mmap] an empty region. *)
Definition newIndex (d : directory) (name : string) (c : Config)
  : result index * directory :=
  match d !! name with
  | None => (Err ErrNotExist, d)
  | Some content =>
      let size := wrap64 (Z.of_nat (length content)) in
      if to_int64 (MaxIndexBytes c) <? 0 then (Err ErrInvalid, d)
      else
        let region := resize (to_int64 (MaxIndexBytes c)) content in
        let d1 := <[name := region]> d in
        match region with
        | [] => (Err ErrInvalid, d1)
        | _ :: _ =>
            (Ok {| index_name := name; index_closed := false;
                   mmap := region; index_size := size |}, d1)
        end
  end.

Definition index_Read (i : index) (in_ : Z) : result (Z * Z) :=
  if index_size i =? 0 then Err EOF
  else
    let out :=
      if in_ =? -1 then wrap32 (wrap64 (index_size i / entWidth - 1))
      else wrap32 in_ in
    let pos := wrap64 (out * entWidth) in
    if index_size i <? wrap64 (pos + entWidth) then Err EOF
    else
      match slice (mmap i) pos (wrap64 (pos + offWidth)),
            slice (mmap i) (wrap64 (pos + offWidth)) (wrap64 (pos + entWidth)) with
      | Some o, Some p => Ok (Uint32 o, Uint64 p)
      | _, _ => Err Panic
      end.

Definition index_Write (i : index) (off pos : Z) : option error * index :=
  if Z.of_nat (length (mmap i)) <? wrap64 (index_size i + entWidth)
  then (Some EOF, i)
  else
    match slice (mmap i) (index_size i) (wrap64 (index_size i + offWidth)),
          slice (mmap i) (wrap64 (index_size i + offWidth))
                (wrap64 (index_size i + entWidth)) with
    | Some _, Some _ =>
        (None,
         {| index_name := index_name i; index_closed := index_closed i;
            mmap := slice_put
                      (slice_put (mmap i) (index_size i) (PutUint32 off))
                      (wrap64 (index_size i + offWidth)) (PutUint64 pos);
            index_size := wrap64 (index_size i + entWidth) |})
    | _, _ => (Some Panic, i)
    end.

Definition index_Name (i : index) : string := index_name i.

(** [index.Close]: sync the mapping and the file, cut the file back to
    [size], close it. *)
Definition index_Close (i : index) (d : directory)
  : option error * index * directory :=
  if index_closed i then (Some ErrClosed, i, d)
  else if to_int64 (index_size i) <? 0 then
    (Some ErrInvalid, i,
     match d !! index_name i with
     | Some _ => <[index_name i := mmap i]> d
     | None => d
     end)
  else
    (None,
     {| index_name := index_name i; index_closed := true;
        mmap := mmap i; index_size := index_size i |},
     match d !! index_name i with
     | Some _ => <[index_name i := resize (to_int64 (index_size i)) (mmap i)]> d
     | None => d
     end).

(** ** segment.go *)

Record segment : Type := {
  s_store : store;
  s_index : index;
  baseOffset : Z;
  nextOffset : Z;
  config : Config
}.

Definition newSegment (d : directory) (baseOffset : Z) (c : Config)
  : result segment * directory :=
  let '(d1, content) := OpenFile d (file_name baseOffset ".store") in
  let st := newStore (file_name baseOffset ".store") content in
  let '(d2, _) := OpenFile d1 (file_name baseOffset ".index") in
  match newIndex d2 (file_name baseOffset ".index") c with
  | (Err e, d3) => (Err e, d3)
  | (Ok ix, d3) =>
      match index_Read ix (-1) with
      | Err Panic => (Err Panic, d3)
      | Err _ =>
          (Ok {| s_store := st; s_index := ix; baseOffset := baseOffset;
                 nextOffset := baseOffset; config := c |}, d3)
      | Ok (off, _) =>
          (Ok {| s_store := st; s_index := ix; baseOffset := baseOffset;
                 nextOffset := wrap64 (wrap64 (baseOffset + off) + 1);
                 config := c |}, d3)
      end
  end.

Section WithCodec.
Context {codec : Codec}.

Definition segment_Append (s : segment) (record : api_Record)
  : result Z * segment :=
  let cur := nextOffset s in
  let record := {| Value := Value record; Offset := cur |} in
  match Marshal record with
  | Err e => (Err e, s)
  | Ok p =>
      match store_Append (s_store s) p with
      | (Err e, st) =>
          (Err e,
           {| s_store := st; s_index := s_index s; baseOffset := baseOffset s;
              nextOffset := nextOffset s; config := config s |})
      | (Ok (_, pos), st) =>
          match index_Write (s_index s)
                  (wrap32 (wrap64 (nextOffset s - baseOffset s))) pos with
          | (Some e, ix) =>
              (Err e,
               {| s_store := st; s_index := ix; baseOffset := baseOffset s;
                  nextOffset := nextOffset s; config := config s |})
          | (None, ix) =>
              (Ok cur,
               {| s_store := st; s_index := ix; baseOffset := baseOffset s;
                  nextOffset := wrap64 (nextOffset s + 1);
                  config := config s |})
          end
      end
  end.

Definition segment_Read (s : segment) (off : Z) : result api_Record * segment :=
  match index_Read (s_index s) (to_int64 (wrap64 (off - baseOffset s))) with
  | Err e => (Err e, s)
  | Ok (_, pos) =>
      match store_Read (s_store s) pos with
      | (Err e, st) =>
          (Err e,
           {| s_store := st; s_index := s_index s; baseOffset := baseOffset s;
              nextOffset := nextOffset s; config := config s |})
      | (Ok p, st) =>
          (Unmarshal p,
           {| s_store := st; s_index := s_index s; baseOffset := baseOffset s;
              nextOffset := nextOffset s; config := config s |})
      end
  end.

End WithCodec.

Definition IsMaxed (s : segment) : bool :=
  (MaxStoreBytes (config s) <=? store_size (s_store s))
  || (MaxIndexBytes (config s) <=? index_size (s_index s)).

Definition segment_Close (s : segment) (d : directory)
  : option error * segment * directory :=
  match index_Close (s_index s) d with
  | (Some e, ix, d1) =>
      (Some e,
       {| s_store := s_store s; s_index := ix; baseOffset := baseOffset s;
          nextOffset := nextOffset s; config := config s |}, d1)
  | (None, ix, d1) =>
      match store_Close (s_store s) d1 with
      | (e, st, d2) =>
          (e,
           {| s_store := st; s_index := ix; baseOffset := baseOffset s;
              nextOffset := nextOffset s; config := config s |}, d2)
      end
  end.

Definition segment_Remove (s : segment) (d : directory)
  : option error * segment * directory :=
  match segment_Close s d with
  | (Some e, s1, d1) => (Some e, s1, d1)
  | (None, s1, d1) =>
      match os_Remove d1 (index_Name (s_index s1)) with
      | Err e => (Some e, s1, d1)
      | Ok d2 =>
          match os_Remove d2 (store_name (s_store s1)) with
          | Err e => (Some e, s1, d2)
          | Ok d3 => (None, s1, d3)
          end
      end
  end.

(** ** log.go *)

(** [path.Ext(name)]: the suffix of [name] that starts at its last dot,
    empty when [name] has no dot (file names hold no slash). *)
Fixpoint Ext (name : string) : string :=
  match name with
  | EmptyString => EmptyString
  | String c rest =>
      match Ext rest with
      | EmptyString => if Ascii.eqb c "." then name else EmptyString
      | e => e
      end
  end.

(** [strings.TrimSuffix(s, suffix)]. *)
Definition TrimSuffix (s suffix : string) : string :=
  let n := String.length s in
  let k := String.length suffix in
  if (k <=? n)%nat && String.eqb (substring (n - k) k s) suffix
  then substring 0 (n - k) s
  else s.

Definition digit_of (c : ascii) : option Z :=
  let n := Z.of_N (N_of_ascii c) in
  if (48 <=? n) && (n <=? 57) then Some (n - 48) else None.

(** The loop of [strconv.ParseUint(s, 10, 0)] on a 64-bit platform, with
    the error dropped as [off, _ := ...] does: a character that is not a
    digit gives 0, a value that does not fit gives the largest one. *)
Fixpoint ParseUint_from (n : Z) (s : string) : Z :=
  match s with
  | EmptyString => n
  | String c rest =>
      match digit_of c with
      | None => 0
      | Some d =>
          if (2 ^ 64 - 1) / 10 + 1 <=? n then 2 ^ 64 - 1
          else if 2 ^ 64 - 1 <? n * 10 + d then 2 ^ 64 - 1
          else ParseUint_from (n * 10 + d) rest
      end
  end.

Definition ParseUint (s : string) : Z := ParseUint_from 0 s.

(** The names [os.ReadDir] returns.  [setup] sorts the offsets it parses
    from them, so the order of the listing is immaterial. *)
Definition ReadDir (d : directory) : list string := (map_to_list d).*1.

(** The [Log] value together with the segment objects its pointers refer
    to: a pointer is a position in [heap], [Dir] is the directory the path
    [l.Dir] names. *)
Record Log : Type := {
  Dir : directory;
  LConfig : Config;
  heap : list segment;
  activeSegment : option nat;
  segments : list nat
}.

Definition Log_newSegment (l : Log) (off : Z) : option error * Log :=
  match newSegment (Dir l) off (LConfig l) with
  | (Err e, d) =>
      (Some e,
       {| Dir := d; LConfig := LConfig l; heap := heap l;
          activeSegment := activeSegment l; segments := segments l |})
  | (Ok s, d) =>
      (None,
       {| Dir := d; LConfig := LConfig l; heap := heap l ++ [s];
          activeSegment := Some (length (heap l));
          segments := segments l ++ [length (heap l)] |})
  end.

(** The loop [for i := 0; i < len(baseOffsets); i++ { ...; i++ }]. *)
Fixpoint setup_loop (l : Log) (baseOffsets : list Z) : option error * Log :=
  match baseOffsets with
  | [] => (None, l)
  | off :: rest =>
      match Log_newSegment l off with
      | (Some e, l1) => (Some e, l1)
      | (None, l1) =>
          match rest with
          | [] => (None, l1)
          | _ :: rest' => setup_loop l1 rest'
          end
      end
  end.

Definition setup (l : Log) : option error * Log :=
  let baseOffsets :=
    merge_sort Z.le
      ((fun name => ParseUint (TrimSuffix name (Ext name))) <$> ReadDir (Dir l)) in
  match setup_loop l baseOffsets with
  | (Some e, l1) => (Some e, l1)
  | (None, l1) =>
      match segments l1 with
      | [] =>
          match Log_newSegment l1 (InitialOffset (LConfig l1)) with
          | (Some _, l2) => (None, l2)   (* [return nil] *)
          | (None, l2) => (None, l2)
          end
      | _ :: _ => (None, l1)
      end
  end.

Definition NewLog (dir : directory) (c : Config) : option error * Log :=
  let c1 := {| MaxStoreBytes := if MaxStoreBytes c =? 0 then 1024 else MaxStoreBytes c;
               MaxIndexBytes := MaxIndexBytes c;
               InitialOffset := InitialOffset c |} in
  let c2 := {| MaxStoreBytes := MaxStoreBytes c1;
               MaxIndexBytes := if MaxIndexBytes c1 =? 0 then 1024 else MaxIndexBytes c1;
               InitialOffset := InitialOffset c1 |} in
  setup {| Dir := dir; LConfig := c2; heap := []; activeSegment := None;
           segments := [] |}.

Definition set_heap (l : Log) (h : list segment) : Log :=
  {| Dir := Dir l; LConfig := LConfig l; heap := h;
     activeSegment := activeSegment l; segments := segments l |}.

(** The loop of [Log.Read]: the first segment whose range holds [off]. *)
Fixpoint find_segment (h : list segment) (ptrs : list nat) (off : Z)
  : option nat :=
  match ptrs with
  | [] => None
  | p :: rest =>
      match h !! p with
      | Some s =>
          if (baseOffset s <=? off) && (off <? nextOffset s) then Some p
          else find_segment h rest off
      | None => find_segment h rest off
      end
  end.

Section WithCodec.
Context {codec : Codec}.

(** [Log.Append] returns the pair [(off, err)]. *)
Definition Log_Append (l : Log) (record : api_Record)
  : Z * option error * Log :=
  match activeSegment l with
  | None => (0, Some Panic, l)
  | Some a =>
      match heap l !! a with
      | None => (0, Some Panic, l)
      | Some s =>
          match segment_Append s record with
          | (Err e, s1) => (0, Some e, set_heap l (<[a := s1]> (heap l)))
          | (Ok off, s1) =>
              let l1 := set_heap l (<[a := s1]> (heap l)) in
              if IsMaxed s1 then
                let '(err, l2) := Log_newSegment l1 (wrap64 (off + 1)) in
                (off, err, l2)
              else (off, None, l1)
          end
      end
  end.

Definition Log_Read (l : Log) (off : Z) : result api_Record * Log :=
  match find_segment (heap l) (segments l) off with
  | None => (Err (ErrOffsetOutOfRange off), l)
  | Some p =>
      match heap l !! p with
      | None => (Err Panic, l)
      | Some s =>
          if nextOffset s <=? off then (Err (ErrOffsetOutOfRange off), l)
          else
            let '(r, s1) := segment_Read s off in
            (r, set_heap l (<[p := s1]> (heap l)))
      end
  end.

End WithCodec.

Fixpoint Close_loop (d : directory) (h : list segment) (ptrs : list nat)
  : option error * directory * list segment :=
  match ptrs with
  | [] => (None, d, h)
  | p :: rest =>
      match h !! p with
      | None => (Some Panic, d, h)
      | Some s =>
          match segment_Close s d with
          | (Some e, s1, d1) => (Some e, d1, <[p := s1]> h)
          | (None, s1, d1) => Close_loop d1 (<[p := s1]> h) rest
          end
      end
  end.

Definition Log_Close (l : Log) : option error * Log :=
  match Close_loop (Dir l) (heap l) (segments l) with
  | (e, d, h) =>
      (e, {| Dir := d; LConfig := LConfig l; heap := h;
             activeSegment := activeSegment l; segments := segments l |})
  end.

Definition LowestOffset (l : Log) : result Z :=
  match segments l with
  | [] => Err Panic
  | p :: _ =>
      match heap l !! p with
      | Some s => Ok (baseOffset s)
      | None => Err Panic
      end
  end.

Definition HighestOffset (l : Log) : result Z :=
  match last (segments l) with
  | None => Err Panic
  | Some p =>
      match heap l !! p with
      | Some s =>
          if nextOffset s =? 0 then Ok 0 else Ok (wrap64 (nextOffset s - 1))
      | None => Err Panic
      end
  end.

(** The loop of [Log.Truncate]; [kept] is the local slice [segments]. *)
Fixpoint Truncate_loop (d : directory) (h : list segment) (ptrs : list nat)
    (lowest : Z) (kept : list nat)
  : option error * directory * list segment * list nat :=
  match ptrs with
  | [] => (None, d, h, kept)
  | p :: rest =>
      match h !! p with
      | None => (Some Panic, d, h, kept)
      | Some s =>
          if nextOffset s <=? wrap64 (lowest + 1) then
            match segment_Remove s d with
            | (Some e, s1, d1) => (Some e, d1, <[p := s1]> h, kept)
            | (None, s1, d1) =>
                Truncate_loop d1 (<[p := s1]> h) rest lowest kept
            end
          else Truncate_loop d h rest lowest (kept ++ [p])
      end
  end.

Definition Log_Truncate (l : Log) (lowest : Z) : option error * Log :=
  match Truncate_loop (Dir l) (heap l) (segments l) lowest [] with
  | (Some e, d, h, _) =>
      (Some e,
       {| Dir := d; LConfig := LConfig l; heap := h;
          activeSegment := activeSegment l; segments := segments l |})
  | (None, d, h, kept) =>
      (None,
       {| Dir := d; LConfig := LConfig l; heap := h;
          activeSegment := activeSegment l; segments := kept |})
  end.

(** * Predicates used in the statements *)

(** All that has been written to a store, flushed or not. *)
Definition store_content (s : store) : bytes := store_file s ++ buf s.

(** An open store without a pending write error whose [size] is the
    number of bytes written to it. *)
Definition store_wf (s : store) : Prop :=
  store_closed s = false /\ buf_err s = None /\
  store_size s = Z.of_nat (length (store_content s)) /\
  store_size s < 2 ^ 63.

(** The frame of payload [p] starts at position [pos] of [content]. *)
Definition frame_at (content : bytes) (pos : Z) (p : bytes) : Prop :=
  slice content pos (pos + lenWidth)
    = Some (PutUint64 (Z.of_nat (length p))) /\
  slice content (pos + lenWidth) (pos + lenWidth + Z.of_nat (length p))
    = Some p.

(** Entry number [e] of a mapped index region, decoded. *)
Definition read_entry (m : bytes) (e : Z) : option (Z * Z) :=
  match slice m (e * entWidth) (e * entWidth + offWidth),
        slice m (e * entWidth + offWidth) (e * entWidth + entWidth) with
  | Some o, Some p => Some (Uint32 o, Uint64 p)
  | _, _ => None
  end.

(** An index whose [size] is a whole number of entries, at most [2^32] of
    them, inside the mapped region. *)
Definition index_wf (i : index) : Prop :=
  0 <= index_size i /\
  index_size i mod entWidth = 0 /\
  index_size i <= Z.of_nat (length (mmap i)) /\
  index_size i <= 2 ^ 32 * entWidth.

(** * Example data *)

Definition example_config : Config :=
  {| MaxStoreBytes := 1024; MaxIndexBytes := 36; InitialOffset := 0 |}.

(** The index of a new file, and the same after [Write(0, 10)]. *)
Definition example_index0 : index :=
  match newIndex {[ "0.index"%string := [] ]} "0.index" example_config with
  | (Ok i, _) => i
  | (Err _, _) =>
      {| index_name := ""; index_closed := true; mmap := []; index_size := 0 |}
  end.

Definition example_index1 : index := snd (index_Write example_index0 0 10).

Definition example_store0 : store := newStore "0.store" [].

Definition hello_world : bytes := list_byte_of_string "hello world".

(** * Segments and the records they hold *)

(** What is asked of the external codec: decoding an encoded record gives
    the record back. *)
Class CodecLaws (codec : Codec) : Prop := {
  Unmarshal_Marshal :
    forall r p, Marshal r = Ok p -> Unmarshal p = Ok r
}.

Section WithCodec.
Context {codec : Codec}.

(** Segment [s] is open and holds the records [rs], oldest first: entry
    [k] of its index has relative offset [k] and the position of a frame
    of the store that carries record [k], whose offset is
    [baseOffset + k].  The mapped region has room for at most [2^32]
    entries, the cap that 32-bit relative offsets put on a segment. *)
Definition seg_holds (s : segment) (rs : list api_Record) : Prop :=
  store_wf (s_store s) /\
  index_closed (s_index s) = false /\
  index_size (s_index s) = entWidth * Z.of_nat (length rs) /\
  index_size (s_index s) <= Z.of_nat (length (mmap (s_index s))) /\
  Z.of_nat (length (mmap (s_index s))) <= 2 ^ 32 * entWidth /\
  0 <= baseOffset s /\
  nextOffset s = baseOffset s + Z.of_nat (length rs) /\
  nextOffset s < 2 ^ 64 /\
  forall (k : nat) (r : api_Record), rs !! k = Some r ->
    Offset r = baseOffset s + Z.of_nat k /\
    exists pos p,
      read_entry (mmap (s_index s)) (Z.of_nat k) = Some (Z.of_nat k, pos) /\
      Marshal r = Ok p /\
      frame_at (store_content (s_store s)) pos p.

(** [k] appends in a row, all of which must succeed. *)
Fixpoint segment_Appends (s : segment) (rs : list api_Record)
  : option segment :=
  match rs with
  | [] => Some s
  | r :: rest =>
      match segment_Append s r with
      | (Ok _, s1) => segment_Appends s1 rest
      | (Err _, _) => None
      end
  end.

End WithCodec.

(** The record as [segment.Append] stores it. *)
Definition with_offset (r : api_Record) (off : Z) : api_Record :=
  {| Value := Value r; Offset := off |}.

(** The records [rs] as [segment.Append] stores them when they are
    appended one after the other from offset [next] on. *)
Fixpoint assign_offsets (next : Z) (rs : list api_Record) : list api_Record :=
  match rs with
  | [] => []
  | r :: rest => with_offset r next :: assign_offsets (next + 1) rest
  end.

Section WithCodec.
Context {codec : Codec}.

(** The directory [d] holds the two files of a segment with base offset
    [base] that holds the records [rs]; a file that does not exist counts
    as empty, as it is created empty when the segment is opened. *)
Definition seg_files (d : directory) (base : Z) (rs : list api_Record) : Prop :=
  let content := default [] (d !! file_name base ".store") in
  let entries := default [] (d !! file_name base ".index") in
  Z.of_nat (length content) < 2 ^ 63 /\
  Z.of_nat (length entries) = entWidth * Z.of_nat (length rs) /\
  forall (k : nat) (r : api_Record), rs !! k = Some r ->
    Offset r = base + Z.of_nat k /\
    exists pos p,
      read_entry entries (Z.of_nat k) = Some (Z.of_nat k, pos) /\
      Marshal r = Ok p /\
      frame_at content pos p.

End WithCodec.

(** A codec to run the examples with: the offset in eight bytes, then the
    payload. *)
Definition example_codec : Codec :=
  {| Marshal r :=
       if (0 <=? Offset r) && (Offset r <? 2 ^ 64)
       then Ok (PutUint64 (Offset r) ++ Value r)
       else Err ErrCodec;
     Unmarshal p :=
       if (length p <? 8)%nat then Err ErrCodec
       else Ok {| Value := drop 8 p; Offset := Uint64 (take 8 p) |} |}.

Definition hello_record : api_Record := {| Value := hello_world; Offset := 0 |}.

(** The segment of the segment test: base offset 16, room for three index
    entries, opened in an empty directory. *)
Definition example_segment0 : result segment * directory :=
  newSegment ∅ 16 example_config.

Definition example_segment3 : option segment :=
  match example_segment0 with
  | (Ok s, _) =>
      segment_Appends (codec := example_codec) s
        [hello_record; hello_record; hello_record]
  | (Err _, _) => None
  end.

(** * Runs of the log *)

Inductive op : Type :=
| OpAppend (record : api_Record)
| OpRead (off : Z)
| OpTruncate (lowest : Z).

Section WithCodec.
Context {codec : Codec}.

Definition run_op (l : Log) (o : op) : Log :=
  match o with
  | OpAppend record => snd (Log_Append l record)
  | OpRead off => snd (Log_Read l off)
  | OpTruncate lowest => snd (Log_Truncate l lowest)
  end.

Definition run (ops : list op) (l : Log) : Log := fold_left run_op ops l.

End WithCodec.

(** The segment a pointer of the log refers to. *)
Definition seg_at (l : Log) (p : nat) : option segment := heap l !! p.

(** The base and next offsets of the segments of the list, in order. *)
Definition ranges (l : Log) : list (option (Z * Z)) :=
  (fun p => (fun s => (baseOffset s, nextOffset s)) <$> seg_at l p) <$> segments l.

(** A configuration under which a store takes three frames of the example
    codec for ["hello world"], 27 bytes each. *)
Definition example_log_config : Config :=
  {| MaxStoreBytes := 81; MaxIndexBytes := 1024; InitialOffset := 0 |}.

Definition example_log0 : Log := snd (NewLog ∅ example_log_config).

(** Nine appends: three full segments and a new, empty active one. *)
Definition example_log9 : Log :=
  run (codec := example_codec) (replicate 9 (OpAppend hello_record)) example_log0.

(** A configuration with which [os.Truncate] of the index file fails. *)
Definition bad_config : Config :=
  {| MaxStoreBytes := 0; MaxIndexBytes := 2 ^ 63; InitialOffset := 0 |}.

(** A directory with the two files of an empty segment 0 and a stray
    file. *)
Definition stray_directory : directory :=
  <[ "notes.txt"%string := [] ]>
    (<[ "0.store"%string := [] ]> (<[ "0.index"%string := [] ]> ∅)).

(** * Invariants of the log *)

(** The range of a segment does not run backwards and stays below
    [2^64]. *)
Definition seg_sane (s : segment) : Prop :=
  0 <= baseOffset s <= nextOffset s /\ nextOffset s < 2 ^ 64.

(** Each segment of the list is sane and ends where the one after it
    begins. *)
Fixpoint chained (h : list segment) (ptrs : list nat) : Prop :=
  match ptrs with
  | [] => True
  | p :: rest =>
      (exists s, h !! p = Some s /\ seg_sane s /\
         match rest with
         | [] => True
         | q :: _ => exists sq, h !! q = Some sq /\ nextOffset s = baseOffset sq
         end)
      /\ chained h rest
  end.


(** The names of the two files of a segment. *)
Definition segment_file (name : string) (b : Z) : Prop :=
  name = file_name b ".store" \/ name = file_name b ".index".

(** What holds of a log made in an empty directory, after any appends and
    truncations, as long as the offsets it has given out stay below
    [bound]: the pointers of the list are distinct and valid, the list is
    chained, the active segment is the last of the list unless the list
    was emptied, and the directory has no file of a segment beyond the
    active one. *)
Definition log_ok (bound : Z) (l : Log) : Prop :=
  NoDup (segments l) /\
  (forall p, p ∈ segments l -> (p < length (heap l))%nat) /\
  chained (heap l) (segments l) /\
  match activeSegment l with
  | None => segments l = []
  | Some a =>
      exists s, heap l !! a = Some s /\ seg_sane s /\
        nextOffset s <= bound /\
        (segments l = [] \/ last (segments l) = Some a) /\
        0 < to_int64 (MaxIndexBytes (LConfig l)) /\
        config s = LConfig l /\
        (forall name, is_Some (Dir l !! name) ->
           exists b, segment_file name b /\ 0 <= b <= baseOffset s)
  end.

(** Heap [h'] has, at pointer [p], a segment with the offsets and the
    configuration of the one [h] has there. *)
Definition same_offsets (h h' : list segment) (p : nat) : Prop :=
  forall s, h !! p = Some s ->
    exists s', h' !! p = Some s' /\
      baseOffset s' = baseOffset s /\ nextOffset s' = nextOffset s /\
      config s' = config s.

Section WithCodec.
Context {codec : Codec}.

(** The invariant of the data model: the segment list is chained, without
    repetition, and its last segment is the active one, which holds
    records. *)
Definition log_inv (l : Log) : Prop :=
  NoDup (segments l) /\
  chained (heap l) (segments l) /\
  exists a s rs,
    activeSegment l = Some a /\ last (segments l) = Some a /\
    heap l !! a = Some s /\ seg_holds s rs.

End WithCodec.

(** No store file of the log has reached [2^63] bytes. *)
Definition stores_below (l : Log) : Prop :=
  forall p s, seg_at l p = Some s ->
    Z.of_nat (length (store_content (s_store s))) < 2 ^ 63.

(** Every segment of [h] is still in [h'], with a store that is no
    shorter. *)
Definition heap_grows (h h' : list segment) : Prop :=
  forall p s, h !! p = Some s ->
    exists s', h' !! p = Some s' /\
      (length (store_content (s_store s))
       <= length (store_content (s_store s')))%nat.

Section WithCodec.
Context {codec : Codec}.

(** Every [Truncate] of the run succeeds. *)
Fixpoint truncates_succeed (ops : list op) (l : Log) : Prop :=
  match ops with
  | [] => True
  | o :: rest =>
      match o with
      | OpTruncate lowest => fst (Log_Truncate l lowest) = None
      | _ => True
      end /\ truncates_succeed rest (run_op l o)
  end.

(** The log is as the data model has it. *)
Definition log_wf (l : Log) : Prop :=
  (exists bound, log_ok bound l) /\ log_inv l /\
  0 < MaxIndexBytes (LConfig l) <= 2 ^ 32 * entWidth.

(** The segment at pointer [p] is in the list and holds [rec] at offset
    [off]. *)
Definition holds_at (l : Log) (p : nat) (off : Z) (rec : api_Record) : Prop :=
  p ∈ segments l /\
  exists s rs (k : nat),
    heap l !! p = Some s /\ seg_holds s rs /\
    rs !! k = Some rec /\ off = baseOffset s + Z.of_nat k.

End WithCodec.

(** * More of the sources *)

(** ** store.go: [ReadAt], and the reader of log.go built on it *)

(** [os.File.ReadAt(b, off)] with [len(b) = n], together with the bytes it
    has read when there are fewer than [n]: the offset is checked first,
    an empty [b] is filled at once, and the end of the file is reported as
    [io.EOF]. *)
Definition File_ReadAt_n (s : store) (n : Z) (off : Z) : bytes * option error :=
  if off <? 0 then ([], Some ErrInvalid)
  else if n <=? 0 then ([], None)
  else if store_closed s then ([], Some ErrClosed)
  else
    let got := take (Z.to_nat n) (drop (Z.to_nat off) (store_file s)) in
    (got, if Z.of_nat (length got) <? n then Some EOF else None).

(** [store.ReadAt(p, off)] with [len(p) = n]: the bytes read (their number
    is the [int] it returns), the error and the store. *)
Definition store_ReadAt (s : store) (n off : Z)
  : bytes * option error * store :=
  match buf_Flush s with
  | (Some e, s1) => ([], Some e, s1)
  | (None, s1) => let '(got, e) := File_ReadAt_n s1 n off in (got, e, s1)
  end.

(** [originReader.Read(p)] with [len(p) = n]; the reader is the pair of the
    store it points to and its offset [off], both of which it updates. *)
Definition originReader_Read (s : store) (off : Z) (n : Z)
  : bytes * option error * store * Z :=
  let '(got, e, s1) := store_ReadAt s n off in
  (got, e, s1, to_int64 (off + Z.of_nat (length got))).

(** Appends in a row, all of which must succeed. *)
Fixpoint store_Appends (s : store) (ps : list bytes) : option store :=
  match ps with
  | [] => Some s
  | p :: rest =>
      match store_Append s p with
      | (Ok _, s1) => store_Appends s1 rest
      | (Err _, _) => None
      end
  end.

(** ** index.go: writes in a row *)

(** Writes in a row, all of which must succeed. *)
Fixpoint index_Writes (i : index) (es : list (Z * Z)) : option index :=
  match es with
  | [] => Some i
  | (off, pos) :: rest =>
      match index_Write i off pos with
      | (None, i1) => index_Writes i1 rest
      | (Some _, _) => None
      end
  end.

(** ** segment.go: [nearestMultiple] *)

(** [nearestMultiple(j, k)] on [uint64]; the division panics when [k] is
    zero.  The test [j >= 0] is kept as written. *)
Definition nearestMultiple (j k : Z) : result Z :=
  if 0 <=? j then
    if k =? 0 then Err Panic else Ok (wrap64 (j / k * k))
  else
    if k =? 0 then Err Panic
    else Ok (wrap64 (wrap64 (wrap64 (j - k) + 1) / k * k)).

(** ** The in-memory log of the HTTP server (server/log.go) *)

Record server_Record : Type := {
  server_Value : bytes;
  server_Offset : Z
}.

Record server_Log : Type := {
  records : list server_Record
}.

Inductive server_error : Type :=
| ErrOffsetNotFound
| server_Panic.   (* index out of range *)

Definition server_NewLog : server_Log := {| records := [] |}.

(** [Log.Append]: the offset returned (the error is always [nil]) and the
    log. *)
Definition server_Append (l : server_Log) (record : server_Record)
  : Z * server_Log :=
  let record := {| server_Value := server_Value record;
                   server_Offset := wrap64 (Z.of_nat (length (records l))) |} in
  (server_Offset record, {| records := records l ++ [record] |}).

(** [Log.Read]; with an error the record returned is [Record{}]. *)
Definition server_Read (l : server_Log) (offset : Z)
  : server_Record * option server_error :=
  let zero := {| server_Value := []; server_Offset := 0 |} in
  if wrap64 (Z.of_nat (length (records l))) <=? offset
  then (zero, Some ErrOffsetNotFound)
  else
    match records l !! Z.to_nat offset with
    | Some r => (r, None)
    | None => (zero, Some server_Panic)
    end.

(** Appends in a row. *)
Definition server_Appends (l : server_Log) (rs : list server_Record) : server_Log :=
  fold_left (fun l r => snd (server_Append l r)) rs l.

(** * More invariants of the log *)

(** The active segment has not reached a limit of the configuration, which
    is also its own, and its index is mapped to [MaxIndexBytes] bytes. *)
Definition log_room (l : Log) : Prop :=
  exists a s,
    activeSegment l = Some a /\ heap l !! a = Some s /\
    IsMaxed s = false /\
    Z.of_nat (length (mmap (s_index s))) = MaxIndexBytes (LConfig l) /\
    config s = LConfig l.

(** [MaxIndexBytes] is a whole number of entries, at least one and at most
    [2^32], and [MaxStoreBytes] is not zero. *)
Definition config_whole (c : Config) : Prop :=
  (exists m, 1 <= m <= 2 ^ 32 /\ MaxIndexBytes c = entWidth * m) /\
  0 < MaxStoreBytes c.

Section WithCodec.
Context {codec : Codec}.

(** Every [Truncate] of the run succeeds and leaves a segment in the
    list. *)
Fixpoint truncates_keep (ops : list op) (l : Log) : Prop :=
  match ops with
  | [] => True
  | o :: rest =>
      match o with
      | OpTruncate lowest =>
          fst (Log_Truncate l lowest) = None /\
          segments (snd (Log_Truncate l lowest)) <> []
      | _ => True
      end /\ truncates_keep rest (run_op l o)
  end.

End WithCodec.

(** * Properties *)

(** ** Machine integers and the big-endian encoding *)

Lemma wrap64_small z : 0 <= z < 2 ^ 64 -> wrap64 z = z.
Proof. intros H. unfold wrap64. apply Z.mod_small. exact H. Qed.

Lemma wrap32_small z : 0 <= z < 2 ^ 32 -> wrap32 z = z.
Proof. intros H. unfold wrap32. apply Z.mod_small. exact H. Qed.

Lemma wrap64_range z : 0 <= wrap64 z < 2 ^ 64.
Proof. unfold wrap64. apply Z.mod_pos_bound. lia. Qed.

Lemma wrap32_range z : 0 <= wrap32 z < 2 ^ 32.
Proof. unfold wrap32. apply Z.mod_pos_bound. lia. Qed.

Lemma to_int64_small z : 0 <= z < 2 ^ 63 -> to_int64 z = z.
Proof.
  intros H. unfold to_int64. rewrite wrap64_small by lia.
  destruct (Z.ltb_spec z (2 ^ 63)); lia.
Qed.

(** The all-ones word is the signed [-1]. *)
Lemma to_int64_minus_one : to_int64 (wrap64 (-1)) = -1.
Proof. reflexivity. Qed.

Lemma Z_of_byte_range b : 0 <= Z_of_byte b < 256.
Proof.
  unfold Z_of_byte. pose proof (Byte.to_N_bounded b) as Hb.
  split; [apply N2Z.is_nonneg | ].
  apply N.lt_succ_r in Hb. change (N.succ 255) with 256%N in Hb.
  apply N2Z.inj_lt in Hb. exact Hb.
Qed.

Lemma Z_of_byte_of_Z z : Z_of_byte (byte_of_Z z) = z mod 256.
Proof.
  unfold Z_of_byte, byte_of_Z.
  assert (Hr : 0 <= z mod 256 < 256) by (apply Z.mod_pos_bound; lia).
  destruct (Byte.of_N (Z.to_N (z mod 256))) as [b|] eqn:E.
  - apply Byte.to_of_N in E. rewrite E. rewrite Z2N.id; lia.
  - apply Byte.of_N_None_iff in E. lia.
Qed.

Lemma be_encode_length n v : length (be_encode n v) = n.
Proof. induction n as [|n IH]; simpl; [reflexivity | now rewrite IH]. Qed.

Lemma lor_shiftl_byte a b :
  0 <= b < 256 -> Z.lor (Z.shiftl a 8) b = a * 256 + b.
Proof.
  intros Hb.
  assert (Hland : Z.land (Z.shiftl a 8) b = 0).
  { apply Z.bits_inj'. intros n Hn. rewrite Z.land_spec, Z.bits_0.
    destruct (Z_lt_le_dec n 8) as [Hlt|Hge].
    - rewrite Z.shiftl_spec_low by lia. reflexivity.
    - assert (Hbit : Z.testbit b n = false).
      { destruct (Z.eq_dec b 0) as [->|Hnz]; [apply Z.bits_0 | ].
        apply Z.bits_above_log2; [lia | ].
        assert (Z.log2 b < 8) by (apply Z.log2_lt_pow2; lia). lia. }
      rewrite Hbit. apply andb_false_r. }
  rewrite <- Z.lxor_lor by exact Hland.
  rewrite <- Z.add_nocarry_lxor by exact Hland.
  rewrite Z.shiftl_mul_pow2 by lia. reflexivity.
Qed.

Lemma be_decode_encode_acc n v acc :
  fold_left (fun a b => Z.lor (Z.shiftl a 8) (Z_of_byte b)) (be_encode n v) acc
  = acc * 2 ^ (8 * Z.of_nat n) + v mod 2 ^ (8 * Z.of_nat n).
Proof.
  revert acc. induction n as [|n IH]; intros acc.
  - simpl. rewrite Z.mod_1_r. lia.
  - cbn [be_encode fold_left]. rewrite IH.
    rewrite lor_shiftl_byte by apply Z_of_byte_range.
    rewrite Z_of_byte_of_Z.
    rewrite Z.shiftr_div_pow2 by lia.
    replace (8 * Z.of_nat (S n)) with (8 * Z.of_nat n + 8) by lia.
    rewrite Z.pow_add_r by lia.
    rewrite (Z.rem_mul_r v (2 ^ (8 * Z.of_nat n)) (2 ^ 8)) by lia.
    change (2 ^ 8) with 256. ring.
Qed.

Lemma be_decode_encode n v :
  be_decode (be_encode n v) = v mod 2 ^ (8 * Z.of_nat n).
Proof. unfold be_decode. rewrite be_decode_encode_acc. lia. Qed.

Lemma Uint32_PutUint32 v : Uint32 (PutUint32 v) = wrap32 v.
Proof. apply (be_decode_encode 4). Qed.

Lemma Uint64_PutUint64 v : Uint64 (PutUint64 v) = wrap64 v.
Proof. apply (be_decode_encode 8). Qed.

(** ** Slices *)

Lemma slice_Some b lo hi :
  0 <= lo -> lo <= hi -> hi <= Z.of_nat (length b) ->
  slice b lo hi = Some (take (Z.to_nat (hi - lo)) (drop (Z.to_nat lo) b)).
Proof.
  intros H1 H2 H3. unfold slice.
  destruct (Z.leb_spec 0 lo), (Z.leb_spec lo hi),
    (Z.leb_spec hi (Z.of_nat (length b))); try lia. reflexivity.
Qed.

Lemma slice_length b lo hi v :
  slice b lo hi = Some v -> Z.of_nat (length v) = hi - lo.
Proof.
  unfold slice.
  destruct (Z.leb_spec 0 lo), (Z.leb_spec lo hi),
    (Z.leb_spec hi (Z.of_nat (length b))); simpl; try discriminate.
  intros [= <-]. rewrite length_take, length_drop. lia.
Qed.

(** A slice of a prefix is a slice of the whole. *)
Lemma slice_app_l a b lo hi v :
  slice a lo hi = Some v -> slice (a ++ b) lo hi = Some v.
Proof.
  unfold slice.
  destruct (Z.leb_spec 0 lo), (Z.leb_spec lo hi),
    (Z.leb_spec hi (Z.of_nat (length a))); simpl; try discriminate.
  intros [= <-].
  destruct (Z.leb_spec hi (Z.of_nat (length (a ++ b)))) as [_|Hgt];
    [ | rewrite length_app in Hgt; lia ].
  f_equal. rewrite drop_app_le by lia.
  apply take_app_le. rewrite length_drop. lia.
Qed.

(** What was appended last is the slice at the old end. *)
Lemma slice_app_r a v :
  slice (a ++ v) (Z.of_nat (length a)) (Z.of_nat (length a) + Z.of_nat (length v))
  = Some v.
Proof.
  rewrite slice_Some by (rewrite ?length_app; lia).
  f_equal. rewrite Nat2Z.id, drop_app_length.
  apply take_ge. lia.
Qed.

Lemma slice_put_length b lo v :
  0 <= lo -> lo + Z.of_nat (length v) <= Z.of_nat (length b) ->
  length (slice_put b lo v) = length b.
Proof.
  intros H1 H2. unfold slice_put.
  rewrite !length_app, length_take, length_drop. lia.
Qed.

Lemma slice_put_same b lo v :
  0 <= lo -> lo + Z.of_nat (length v) <= Z.of_nat (length b) ->
  slice (slice_put b lo v) lo (lo + Z.of_nat (length v)) = Some v.
Proof.
  intros H1 H2.
  rewrite slice_Some by (rewrite ?slice_put_length; lia).
  f_equal. unfold slice_put.
  rewrite drop_app_ge by (rewrite length_take; lia).
  rewrite length_take.
  replace (Z.to_nat lo - Z.to_nat lo `min` length b)%nat with 0%nat by lia.
  simpl. replace (Z.to_nat (lo + Z.of_nat (length v) - lo)) with (length v) by lia.
  apply take_app_length.
Qed.

(** A slice that lies before or after the bytes that were overwritten is
    unchanged. *)
Lemma slice_put_other b lo v x y :
  0 <= lo -> lo + Z.of_nat (length v) <= Z.of_nat (length b) ->
  y <= lo \/ lo + Z.of_nat (length v) <= x ->
  slice (slice_put b lo v) x y = slice b x y.
Proof.
  intros H1 H2 Hd. unfold slice at 1 2.
  rewrite slice_put_length by lia.
  destruct (Z.leb_spec 0 x), (Z.leb_spec x y),
    (Z.leb_spec y (Z.of_nat (length b))); simpl; try reflexivity.
  f_equal. apply list_eq. intros i.
  rewrite !lookup_take. destruct (decide (i < Z.to_nat (y - x))%nat); [ | reflexivity].
  rewrite !lookup_drop. unfold slice_put.
  destruct Hd as [Hd|Hd].
  - rewrite lookup_app_l by (rewrite length_take; lia).
    rewrite lookup_take. destruct (decide (Z.to_nat x + i < Z.to_nat lo)%nat); [reflexivity | lia].
  - rewrite lookup_app_r by (rewrite length_take; lia).
    rewrite lookup_app_r by (rewrite length_take; lia).
    rewrite lookup_drop, length_take. f_equal. lia.
Qed.

(** ** The store *)

Lemma PutUint32_length v : length (PutUint32 v) = 4%nat.
Proof. apply be_encode_length. Qed.

Lemma PutUint64_length v : length (PutUint64 v) = 8%nat.
Proof. apply be_encode_length. Qed.

Lemma buf_Write_ok s p :
  buf_err s = None ->
  buf_Write s p =
    (Ok (Z.of_nat (length p)),
     {| store_name := store_name s; store_file := store_file s;
        store_closed := store_closed s; buf := buf s ++ p;
        buf_err := None; store_size := store_size s |}).
Proof. intros H. unfold buf_Write. rewrite H. reflexivity. Qed.

Lemma buf_Write_size s p r s' :
  buf_Write s p = (r, s') -> store_size s' = store_size s.
Proof.
  unfold buf_Write. destruct (buf_err s); intros [= <- <-]; reflexivity.
Qed.

Lemma buf_Write_result s p n s' :
  buf_Write s p = (Ok n, s') -> n = Z.of_nat (length p).
Proof.
  unfold buf_Write. destruct (buf_err s); intros [= <- <-]; reflexivity.
Qed.

(** An append that succeeds returns what the frame takes and where it
    starts, in 64-bit arithmetic. *)
Lemma store_Append_result s p n pos s' :
  store_Append s p = (Ok (n, pos), s') ->
  n = wrap64 (Z.of_nat (length p) + lenWidth) /\ pos = store_size s /\
  store_size s' = wrap64 (store_size s + n).
Proof.
  unfold store_Append.
  destruct (buf_Write s _) as [[n1|e1] s1] eqn:E1; [ | discriminate].
  destruct (buf_Write s1 p) as [[n2|e2] s2] eqn:E2; [ | discriminate].
  intros [= <- <- <-]. cbn [store_size].
  apply buf_Write_size in E1.
  pose proof (buf_Write_result _ _ _ _ E2) as ->.
  apply buf_Write_size in E2. rewrite E2, E1. auto.
Qed.

(** C7.  A successful [store.Append(p)] on a store of size [S] returns
    [bytesWritten = lenWidth + len(p)] and [position = S], and leaves the
    size at [S + lenWidth + len(p)]; so the position plus the bytes written
    is the new size.  The sizes are those of a file, below [2^64]. *)
Theorem store_Append_position_size (s : store) (p : bytes) (n pos : Z) (s' : store) :
  0 <= store_size s ->
  store_size s + lenWidth + Z.of_nat (length p) < 2 ^ 64 ->
  store_Append s p = (Ok (n, pos), s') ->
  n = lenWidth + Z.of_nat (length p) /\
  pos = store_size s /\
  store_size s' = store_size s + lenWidth + Z.of_nat (length p) /\
  pos + n = store_size s'.
Proof.
  intros Hs Hb H. apply store_Append_result in H as (Hn & Hpos & Hsz).
  unfold lenWidth in *.
  rewrite wrap64_small in Hn by lia. subst n.
  rewrite wrap64_small in Hsz by lia. lia.
Qed.

(** An open store accepts every append. *)
Lemma store_Append_ok s p :
  buf_err s = None ->
  exists s', store_Append s p
             = (Ok (wrap64 (Z.of_nat (length p) + lenWidth), store_size s), s') /\
    store_name s' = store_name s /\
    store_closed s' = store_closed s /\
    buf_err s' = None /\
    store_content s' =
      store_content s ++ PutUint64 (wrap64 (Z.of_nat (length p))) ++ p /\
    store_size s' =
      wrap64 (store_size s + wrap64 (Z.of_nat (length p) + lenWidth)).
Proof.
  intros H. unfold store_Append. rewrite (buf_Write_ok s) by exact H.
  rewrite buf_Write_ok by reflexivity. cbn.
  eexists. split; [reflexivity | ]. cbn. unfold store_content. cbn.
  repeat split; try reflexivity. now rewrite <- !app_assoc.
Qed.

Lemma store_Append_wf s p :
  store_wf s ->
  store_size s + lenWidth + Z.of_nat (length p) < 2 ^ 63 ->
  exists s', store_Append s p = (Ok (lenWidth + Z.of_nat (length p), store_size s), s') /\
    store_name s' = store_name s /\
    store_wf s' /\
    store_content s' = store_content s ++ PutUint64 (Z.of_nat (length p)) ++ p /\
    store_size s' = store_size s + lenWidth + Z.of_nat (length p) /\
    frame_at (store_content s') (store_size s) p.
Proof.
  intros (Hc & He & Hsz & Hlt) Hb.
  destruct (store_Append_ok s p He) as (s' & HA & Hn & Hcl & He' & Hco & Hsz').
  unfold lenWidth in *.
  rewrite (wrap64_small (Z.of_nat (length p))) in Hco by lia.
  rewrite (wrap64_small (Z.of_nat (length p) + 8)) in HA, Hsz' by lia.
  rewrite wrap64_small in Hsz' by lia.
  exists s'. replace (8 + Z.of_nat (length p)) with (Z.of_nat (length p) + 8) by lia.
  split; [exact HA | ]. split; [exact Hn | ].
  assert (Hlen : Z.of_nat (length (store_content s'))
                 = store_size s + 8 + Z.of_nat (length p)).
  { rewrite Hco, !length_app, PutUint64_length. lia. }
  split; [ | split; [exact Hco | split; [lia | ] ] ].
  - unfold store_wf. rewrite Hcl, He', Hsz'. repeat split; auto; lia.
  - unfold frame_at, lenWidth. rewrite Hco, Hsz. split.
    + rewrite app_assoc. apply slice_app_l.
      pose proof (slice_app_r (store_content s) (PutUint64 (Z.of_nat (length p)))) as Hs.
      rewrite PutUint64_length in Hs. exact Hs.
    + rewrite app_assoc.
      pose proof (slice_app_r (store_content s ++ PutUint64 (Z.of_nat (length p))) p) as Hs.
      rewrite length_app, PutUint64_length in Hs.
      replace (Z.of_nat (length (store_content s) + 8))
        with (Z.of_nat (length (store_content s)) + 8) in Hs by lia.
      exact Hs.
Qed.

Lemma slice_inv b lo hi v :
  slice b lo hi = Some v ->
  0 <= lo /\ lo <= hi /\ hi <= Z.of_nat (length b) /\
  v = take (Z.to_nat (hi - lo)) (drop (Z.to_nat lo) b).
Proof.
  unfold slice.
  destruct (Z.leb_spec 0 lo), (Z.leb_spec lo hi),
    (Z.leb_spec hi (Z.of_nat (length b))); simpl; try discriminate.
  intros [= <-]. auto.
Qed.

Lemma buf_Flush_wf s :
  store_wf s ->
  exists s', buf_Flush s = (None, s') /\
    store_file s' = store_content s /\ buf s' = [] /\
    store_name s' = store_name s /\ store_size s' = store_size s /\
    store_closed s' = false /\ buf_err s' = None.
Proof.
  intros (Hc & He & _). unfold buf_Flush, store_content. rewrite He.
  destruct (buf s) as [|b bs] eqn:Eb.
  - exists s. rewrite Eb, app_nil_r. auto 10.
  - rewrite Hc. eexists. split; [reflexivity | ]. cbn. auto 10.
Qed.

Lemma File_ReadAt_slice s n off v :
  store_closed s = false ->
  slice (store_file s) off (off + n) = Some v ->
  File_ReadAt s n off = Ok v.
Proof.
  intros Hc Hs. pose proof (slice_length _ _ _ _ Hs) as Hl.
  apply slice_inv in Hs as (H1 & H2 & H3 & ->).
  unfold File_ReadAt. rewrite Hc.
  destruct (Z.ltb_spec off 0); [lia | ].
  replace (off + n - off) with n in * by lia.
  destruct (Z.ltb_spec (Z.of_nat (length (take (Z.to_nat n)
      (drop (Z.to_nat off) (store_file s))))) n); [lia | reflexivity].
Qed.

(** Reading at the start of a frame returns its payload and leaves the
    store as it was, flushed. *)
Lemma store_Read_frame s pos p :
  store_wf s ->
  frame_at (store_content s) pos p ->
  exists s', store_Read s pos = (Ok p, s') /\
    store_wf s' /\ store_content s' = store_content s /\
    store_name s' = store_name s /\ store_size s' = store_size s.
Proof.
  intros Hwf [Hf1 Hf2].
  destruct (buf_Flush_wf s Hwf) as (s1 & HF & Hfile & Hbuf & Hn & Hsz & Hcl & He).
  destruct Hwf as (_ & _ & Hsize & Hlt).
  pose proof (slice_inv _ _ _ _ Hf1) as (Hp0 & _ & _ & _).
  pose proof (slice_inv _ _ _ _ Hf2) as (_ & _ & Hp1 & _).
  unfold store_Read. rewrite HF.
  unfold lenWidth in *.
  rewrite to_int64_small by lia.
  rewrite (File_ReadAt_slice s1 8 pos (PutUint64 (Z.of_nat (length p))))
    by (rewrite ?Hfile; assumption).
  rewrite Uint64_PutUint64, wrap64_small by lia.
  destruct (Z.leb_spec (2 ^ 63) (Z.of_nat (length p))); [lia | ].
  rewrite (wrap64_small (pos + 8)) by lia.
  rewrite to_int64_small by lia.
  rewrite (File_ReadAt_slice s1 (Z.of_nat (length p)) (pos + 8) p)
    by (rewrite ?Hfile; assumption).
  exists s1. split; [reflexivity | ].
  assert (Hco : store_content s1 = store_content s).
  { unfold store_content at 1. rewrite Hfile, Hbuf. apply app_nil_r. }
  repeat split; auto; rewrite ?Hco, ?Hsz; auto.
Qed.

(** ** The index *)

Lemma index_Read_unfold i in_ :
  index_size i <> 0 ->
  index_Read i in_ =
    let e := if in_ =? -1 then wrap32 (wrap64 (index_size i / entWidth - 1))
             else wrap32 in_ in
    if index_size i <? e * entWidth + entWidth then Err EOF
    else match read_entry (mmap i) e with
         | Some x => Ok x
         | None => Err Panic
         end.
Proof.
  intros Hnz. unfold index_Read, read_entry.
  destruct (Z.eqb_spec (index_size i) 0); [contradiction | ].
  cbv zeta.
  set (e := if in_ =? -1 then _ else _).
  assert (He : 0 <= e < 2 ^ 32) by (subst e; destruct (in_ =? -1); apply wrap32_range).
  change entWidth with 12 in *. change offWidth with 4 in *.
  rewrite (wrap64_small (e * 12)) by lia.
  rewrite !wrap64_small by lia.
  destruct (index_size i <? e * 12 + 12); [reflexivity | ].
  destruct (slice (mmap i) (e * 12) (e * 12 + 4)),
    (slice (mmap i) (e * 12 + 4) (e * 12 + 12)); reflexivity.
Qed.

Lemma read_entry_Some m e :
  0 <= e -> e * entWidth + entWidth <= Z.of_nat (length m) ->
  exists o p, read_entry m e = Some (o, p).
Proof.
  intros He Hl. unfold read_entry, entWidth, offWidth, posWidth in *.
  cbn [Z.add Pos.add Pos.succ] in *.
  rewrite !slice_Some by lia. eauto.
Qed.

(** What [index.Write] does when there is room. *)
Lemma index_Write_ok i off pos :
  0 <= index_size i ->
  index_size i + entWidth <= Z.of_nat (length (mmap i)) ->
  index_size i + entWidth < 2 ^ 64 ->
  index_Write i off pos =
    (None,
     {| index_name := index_name i; index_closed := index_closed i;
        mmap := slice_put (slice_put (mmap i) (index_size i) (PutUint32 off))
                  (index_size i + offWidth) (PutUint64 pos);
        index_size := index_size i + entWidth |}).
Proof.
  intros H0 Hroom Hlt. unfold index_Write.
  change entWidth with 12 in *. change offWidth with 4 in *.
  rewrite !wrap64_small by lia.
  destruct (Z.ltb_spec (Z.of_nat (length (mmap i))) (index_size i + 12)); [lia | ].
  rewrite !slice_Some by lia. reflexivity.
Qed.

Lemma index_Write_full i off pos :
  0 <= index_size i ->
  Z.of_nat (length (mmap i)) < index_size i + entWidth ->
  index_size i + entWidth < 2 ^ 64 ->
  index_Write i off pos = (Some EOF, i).
Proof.
  intros H0 Hfull Hlt. unfold index_Write.
  rewrite wrap64_small by (unfold entWidth, offWidth, posWidth in *; lia).
  destruct (Z.ltb_spec (Z.of_nat (length (mmap i))) (index_size i + entWidth));
    [reflexivity | lia].
Qed.

(** C8.  [index.Write(off, pos)] fails with EOF exactly when
    [size + entWidth] exceeds the length of the mapped region, and then
    changes nothing; otherwise it puts [off] big-endian in bytes
    [size, size+4) and [pos] big-endian in bytes [size+4, size+12) of the
    region, leaves the other bytes alone and advances [size] by
    [entWidth], so that a [size] that was a multiple of [entWidth] still
    is.  The size is that of a file, below [2^63]. *)
Theorem index_Write_spec (i : index) (off pos : Z) :
  0 <= index_size i < 2 ^ 63 ->
  (fst (index_Write i off pos) = Some EOF
     <-> Z.of_nat (length (mmap i)) < index_size i + entWidth) /\
  (fst (index_Write i off pos) = Some EOF -> snd (index_Write i off pos) = i) /\
  (fst (index_Write i off pos) <> Some EOF ->
     let i' := snd (index_Write i off pos) in
     fst (index_Write i off pos) = None /\
     slice (mmap i') (index_size i) (index_size i + 4) = Some (PutUint32 off) /\
     slice (mmap i') (index_size i + 4) (index_size i + 12) = Some (PutUint64 pos) /\
     Uint32 (PutUint32 off) = wrap32 off /\
     Uint64 (PutUint64 pos) = wrap64 pos /\
     length (mmap i') = length (mmap i) /\
     (forall x y, y <= index_size i \/ index_size i + 12 <= x ->
        slice (mmap i') x y = slice (mmap i) x y) /\
     index_size i' = index_size i + entWidth /\
     (index_size i mod entWidth = 0 -> index_size i' mod entWidth = 0)).
Proof.
  intros Hs.
  assert (Hew : entWidth = 12) by reflexivity.
  destruct (Z_lt_le_dec (Z.of_nat (length (mmap i))) (index_size i + entWidth))
    as [Hfull|Hroom].
  - rewrite index_Write_full by lia. cbn [fst snd].
    split; [tauto | ]. split; [reflexivity | ]. intros Hne. contradiction.
  - rewrite index_Write_ok by lia. cbn [fst snd].
    split; [split; [discriminate | lia] | ]. split; [discriminate | ].
    intros _. cbv zeta. cbn [mmap index_size].
    change offWidth with 4. rewrite Hew in *.
    pose proof (PutUint32_length off) as L4.
    pose proof (PutUint64_length pos) as L8.
    assert (Hlen1 : length (slice_put (mmap i) (index_size i) (PutUint32 off))
                    = length (mmap i)) by (apply slice_put_length; lia).
    split; [reflexivity | ]. split; [ | split; [ | split; [ | split; [ | split; [ | split; [ | split] ] ] ] ] ].
    + rewrite slice_put_other by lia.
      pose proof (slice_put_same (mmap i) (index_size i) (PutUint32 off)) as Hp.
      rewrite L4 in Hp. apply Hp; lia.
    + pose proof (slice_put_same
                    (slice_put (mmap i) (index_size i) (PutUint32 off))
                    (index_size i + 4) (PutUint64 pos)) as Hp.
      rewrite L8 in Hp.
      replace (index_size i + 12) with (index_size i + 4 + Z.of_nat 8) by lia.
      apply Hp; lia.
    + apply Uint32_PutUint32.
    + apply Uint64_PutUint64.
    + rewrite slice_put_length by lia. exact Hlen1.
    + intros x y Hxy. rewrite !slice_put_other by lia. reflexivity.
    + reflexivity.
    + intros Hm. rewrite <- Z.add_mod_idemp_l, Hm by lia. reflexivity.
Qed.

Lemma store_Append_position_size_witness :
  exists s',
    store_Append example_store0 hello_world = (Ok (19, 0), s') /\
    store_size s' = 19.
Proof.
  destruct (store_Append example_store0 hello_world) as [[[n pos]|e] s'] eqn:E;
    [ | vm_compute in E; discriminate].
  destruct (store_Append_position_size example_store0 hello_world n pos s')
    as (Hn & Hpos & Hsz & _);
    [vm_compute; discriminate | vm_compute; reflexivity | exact E | ].
  exists s'. rewrite Hn, Hpos, Hsz. split; reflexivity.
Defined.

Lemma index_Write_spec_witness :
  fst (index_Write example_index0 0 10) = None /\
  index_size example_index1 = 12.
Proof.
  destruct (index_Write_spec example_index0 0 10) as (H1 & _ & H3);
    [vm_compute; split; [discriminate | reflexivity] | ].
  assert (Hne : fst (index_Write example_index0 0 10) <> Some EOF).
  { intros H. apply H1 in H. vm_compute in H. discriminate. }
  destruct (H3 Hne) as (Hnone & _ & _ & _ & _ & _ & _ & Hsz & _).
  split; [exact Hnone | exact Hsz].
Defined.

(** C9 as stated fails: an argument of [2^32] or more is cut to its low
    32 bits, so [Read(2^32)] on an index of one entry returns entry 0
    although [size < in * entWidth + entWidth]. *)
Lemma index_Read_large_in_not_EOF :
  0 <= 2 ^ 32 /\
  index_size example_index1 < 2 ^ 32 * entWidth + entWidth /\
  index_Read example_index1 (2 ^ 32) = Ok (0, 10) /\
  index_Read example_index1 (2 ^ 32) <> Err EOF.
Proof. vm_compute. repeat split; discriminate. Qed.

(** C9, amended.  [index.Read(in)] fails with EOF when [size = 0].
    Otherwise it reads entry [size / entWidth - 1] for [in = -1], which is
    then the last entry, and entry [uint32(in)] for any other [in], which
    is entry [in] when [0 <= in < 2^32]; it fails with EOF exactly when
    that entry ends beyond [size], and on success returns the relative
    offset and the position stored in that entry. *)
Theorem index_Read_spec (i : index) (in_ : Z) :
  index_wf i ->
  (index_size i = 0 -> index_Read i in_ = Err EOF) /\
  (index_size i <> 0 ->
     let e := if in_ =? -1 then index_size i / entWidth - 1 else wrap32 in_ in
     (index_size i < e * entWidth + entWidth <-> index_Read i in_ = Err EOF) /\
     (e * entWidth + entWidth <= index_size i ->
        exists o p, read_entry (mmap i) e = Some (o, p) /\
                    index_Read i in_ = Ok (o, p)) /\
     (in_ = -1 -> e * entWidth + entWidth = index_size i)) /\
  (0 <= in_ < 2 ^ 32 -> wrap32 in_ = in_).
Proof.
  intros (H0 & Hmod & Hlen & Hcap).
  split; [ | split; [ | apply wrap32_small] ].
  - intros Hz. unfold index_Read. rewrite Hz. reflexivity.
  - intros Hnz. cbv zeta.
    rewrite (index_Read_unfold i in_ Hnz). cbv zeta.
    change entWidth with 12 in *.
    assert (Hdiv : index_size i = 12 * (index_size i / 12))
      by (apply Z.div_exact; lia).
    assert (Hlast : wrap32 (wrap64 (index_size i / 12 - 1)) = index_size i / 12 - 1).
    { rewrite wrap64_small by lia. apply wrap32_small. lia. }
    set (e := if in_ =? -1 then index_size i / 12 - 1 else wrap32 in_).
    assert (He : (if in_ =? -1 then wrap32 (wrap64 (index_size i / 12 - 1))
                  else wrap32 in_) = e).
    { subst e. destruct (in_ =? -1); [exact Hlast | reflexivity]. }
    rewrite He.
    assert (He0 : 0 <= e).
    { subst e. destruct (in_ =? -1); [lia | apply wrap32_range]. }
    split; [ | split].
    + destruct (Z.ltb_spec (index_size i) (e * 12 + 12)) as [Hlt|Hge].
      * tauto.
      * destruct (read_entry_Some (mmap i) e He0) as (o & p & Hr);
          [change entWidth with 12; lia | ].
        rewrite Hr. split; [lia | discriminate].
    + intros Hge.
      destruct (Z.ltb_spec (index_size i) (e * 12 + 12)) as [Hlt|_]; [lia | ].
      destruct (read_entry_Some (mmap i) e He0) as (o & p & Hr);
        [change entWidth with 12; lia | ].
      rewrite Hr. eauto.
    + intros ->. subst e. cbn. lia.
Qed.

Lemma index_Read_spec_witness :
  index_Read example_index1 (-1) = Ok (0, 10).
Proof.
  destruct (index_Read_spec example_index1 (-1)) as (_ & H & _);
    [vm_compute; repeat split; discriminate | ].
  destruct H as (_ & H & _); [vm_compute; discriminate | ].
  destruct H as (o & p & Hr & ->); [vm_compute; discriminate | ].
  vm_compute in Hr. congruence.
Defined.

(** After a write, the entry that was written decodes to what was
    written and the earlier entries are unchanged. *)
Lemma index_Write_entries i off pos (n : nat) :
  index_size i = entWidth * Z.of_nat n ->
  index_size i + entWidth <= Z.of_nat (length (mmap i)) ->
  Z.of_nat (length (mmap i)) < 2 ^ 63 ->
  exists i', index_Write i off pos = (None, i') /\
    index_name i' = index_name i /\
    index_closed i' = index_closed i /\
    length (mmap i') = length (mmap i) /\
    index_size i' = entWidth * Z.of_nat (S n) /\
    read_entry (mmap i') (Z.of_nat n) = Some (wrap32 off, wrap64 pos) /\
    (forall k, 0 <= k < Z.of_nat n ->
       read_entry (mmap i') k = read_entry (mmap i) k).
Proof.
  intros Hsz Hroom Hlt.
  assert (Hew : entWidth = 12) by reflexivity.
  destruct (index_Write_spec i off pos) as (H1 & _ & H3); [lia | ].
  assert (Hne : fst (index_Write i off pos) <> Some EOF)
    by (intros H; apply H1 in H; lia).
  destruct (H3 Hne) as (Hnone & Ho & Hp & _ & _ & Hlen & Hoth & Hsz' & _).
  rewrite index_Write_ok in * by lia. cbn [fst snd] in *.
  eexists. split; [reflexivity | ]. cbn [index_name index_closed].
  split; [reflexivity | ]. split; [reflexivity | ]. split; [exact Hlen | ].
  split; [rewrite Hsz'; lia | ].
  change offWidth with 4 in *. rewrite Hew in *. split.
  - unfold read_entry. change entWidth with 12. change offWidth with 4.
    replace (Z.of_nat n * 12) with (index_size i) by lia.
    rewrite Ho, Hp, Uint32_PutUint32, Uint64_PutUint64. reflexivity.
  - intros k Hk. unfold read_entry. change entWidth with 12. change offWidth with 4.
    rewrite !Hoth by lia. reflexivity.
Qed.

(** ** Segments *)

Section SegmentProperties.
Context {codec : Codec}.

Lemma frame_at_app content more pos p :
  frame_at content pos p -> frame_at (content ++ more) pos p.
Proof. intros [H1 H2]. split; apply slice_app_l; assumption. Qed.

(** An append to a segment that holds [rs]: with room in the index the
    record goes in at [nextOffset]; without, the call fails with EOF and
    the segment holds what it held. *)
Lemma segment_Append_holds s rs r p :
  seg_holds s rs ->
  Marshal (with_offset r (nextOffset s)) = Ok p ->
  store_size (s_store s) + lenWidth + Z.of_nat (length p) < 2 ^ 63 ->
  nextOffset s + 1 < 2 ^ 64 ->
  exists s',
    baseOffset s' = baseOffset s /\ config s' = config s /\
    store_name (s_store s') = store_name (s_store s) /\
    index_name (s_index s') = index_name (s_index s) /\
    length (mmap (s_index s')) = length (mmap (s_index s)) /\
    store_size (s_store s')
      = store_size (s_store s) + lenWidth + Z.of_nat (length p) /\
    ((index_size (s_index s) + entWidth <= Z.of_nat (length (mmap (s_index s))) /\
      segment_Append s r = (Ok (nextOffset s), s') /\
      seg_holds s' (rs ++ [with_offset r (nextOffset s)]))
     \/
     (Z.of_nat (length (mmap (s_index s))) < index_size (s_index s) + entWidth /\
      segment_Append s r = (Err EOF, s') /\
      seg_holds s' rs)).
Proof.
  intros (Hst & Hic & Hisz & Hile & Hcap & Hb0 & Hnext & Hn64 & Hrec) HM Hsz Hn1.
  destruct (store_Append_wf (s_store s) p Hst Hsz)
    as (st' & HA & Hname & Hst' & Hco & Hssz & Hframe).
  assert (Hew : entWidth = 12) by reflexivity.
  unfold segment_Append. change {| Value := Value r; Offset := nextOffset s |}
    with (with_offset r (nextOffset s)). rewrite HM, HA.
  destruct (Z_lt_le_dec (Z.of_nat (length (mmap (s_index s))))
              (index_size (s_index s) + entWidth)) as [Hfull|Hroom].
  - rewrite index_Write_full by lia.
    exists {| s_store := st'; s_index := s_index s; baseOffset := baseOffset s;
              nextOffset := nextOffset s; config := config s |}.
    cbn [baseOffset config s_store s_index].
    do 6 (split; [first [reflexivity | assumption] | ]).
    right. split; [exact Hfull | ]. split; [reflexivity | ].
    unfold seg_holds. cbn [baseOffset nextOffset s_store s_index].
    do 8 (split; [assumption | ]).
    intros k r0 Hk. destruct (Hrec k r0 Hk) as (Hoff & pos & p0 & He & Hm0 & Hf).
    split; [exact Hoff | ]. exists pos, p0. split; [exact He | ].
    split; [exact Hm0 | ]. rewrite Hco. apply frame_at_app. exact Hf.
  - destruct (index_Write_entries (s_index s)
                (wrap32 (wrap64 (nextOffset s - baseOffset s)))
                (store_size (s_store s)) (length rs) Hisz Hroom)
      as (ix' & HW & Hiname & Hicl & Hilen & Hisz' & Hlast & Hold); [lia | ].
    rewrite HW.
    exists {| s_store := st'; s_index := ix'; baseOffset := baseOffset s;
              nextOffset := wrap64 (nextOffset s + 1); config := config s |}.
    cbn [baseOffset config s_store s_index].
    do 6 (split; [first [reflexivity | assumption] | ]).
    left. split; [exact Hroom | ]. split; [reflexivity | ].
    change entWidth with 12 in *.
    assert (Hrel : wrap32 (wrap32 (wrap64 (nextOffset s - baseOffset s)))
                   = Z.of_nat (length rs)).
    { replace (nextOffset s - baseOffset s) with (Z.of_nat (length rs)) by lia.
      rewrite wrap64_small by lia.
      rewrite !(wrap32_small (Z.of_nat (length rs))) by lia. reflexivity. }
    destruct Hst as (_ & _ & Hsize & Hlt63).
    unfold seg_holds. cbn [baseOffset nextOffset s_store s_index].
    change entWidth with 12.
    rewrite wrap64_small by lia.
    split; [exact Hst' | ]. split; [congruence | ].
    split; [rewrite Hisz', length_app; cbn [length]; lia | ].
    split; [rewrite Hisz', Hilen; lia | ].
    split; [rewrite Hilen; exact Hcap | ].
    split; [exact Hb0 | ].
    split; [rewrite length_app; cbn [length]; lia | ].
    split; [lia | ].
    intros k r0 Hk.
    destruct (Nat.lt_ge_cases k (length rs)) as [Hklt|Hkge].
    + rewrite lookup_app_l in Hk by exact Hklt.
      destruct (Hrec k r0 Hk) as (Hoff & pos & p0 & He & Hm0 & Hf).
      split; [exact Hoff | ]. exists pos, p0.
      split; [rewrite Hold by lia; exact He | ].
      split; [exact Hm0 | ]. rewrite Hco. apply frame_at_app. exact Hf.
    + rewrite lookup_app_r in Hk by exact Hkge.
      destruct (k - length rs)%nat as [|j] eqn:Ej; [ | destruct j; discriminate].
      cbn in Hk. injection Hk as <-.
      assert (k = length rs) by lia. subst k.
      split; [cbn; lia | ].
      exists (store_size (s_store s)), p.
      split; [rewrite Hlast, Hrel, wrap64_small by lia; reflexivity | ].
      split; [exact HM | exact Hframe].
Qed.

End SegmentProperties.

Section SegmentReads.
Context {codec : Codec} {laws : CodecLaws codec}.

(** Reading through index entry [in_], which selects entry [k] of a
    segment that holds [rs]. *)
Lemma segment_Read_entry s rs (k : nat) r off :
  seg_holds s rs ->
  rs !! k = Some r ->
  (let in_ := to_int64 (wrap64 (off - baseOffset s)) in
   (if in_ =? -1 then wrap32 (wrap64 (index_size (s_index s) / entWidth - 1))
    else wrap32 in_) = Z.of_nat k) ->
  exists s', segment_Read s off = (Ok r, s') /\ seg_holds s' rs /\
    baseOffset s' = baseOffset s /\ nextOffset s' = nextOffset s /\
    config s' = config s /\ s_index s' = s_index s /\
    store_name (s_store s') = store_name (s_store s) /\
    store_size (s_store s') = store_size (s_store s).
Proof.
  intros Hh Hk He. cbv zeta in He.
  pose proof Hh as (Hst & Hic & Hisz & Hile & Hcap & Hb0 & Hnext & Hn64 & Hrec).
  destruct (Hrec k r Hk) as (Hoff & pos & p & Hent & HM & Hf).
  pose proof (lookup_lt_Some _ _ _ Hk) as Hlt.
  assert (Hnz : index_size (s_index s) <> 0)
    by (rewrite Hisz; change entWidth with 12; lia).
  unfold segment_Read. rewrite (index_Read_unfold _ _ Hnz). cbv zeta.
  rewrite He, Hent.
  destruct (Z.ltb_spec (index_size (s_index s)) (Z.of_nat k * entWidth + entWidth))
    as [Hbad|_]; [rewrite Hisz in Hbad; change entWidth with 12 in Hbad; lia | ].
  destruct (store_Read_frame (s_store s) pos p Hst Hf)
    as (st' & HR & Hst' & Hco & Hname & Hsz).
  rewrite HR, (Unmarshal_Marshal r p HM).
  eexists. split; [reflexivity | ]. cbn [baseOffset nextOffset config s_index s_store].
  split; [ | auto 10].
  unfold seg_holds. cbn [baseOffset nextOffset config s_index s_store].
  rewrite Hco. auto 12.
Qed.

Lemma segment_Read_holds s rs (k : nat) r :
  seg_holds s rs ->
  rs !! k = Some r ->
  exists s', segment_Read s (baseOffset s + Z.of_nat k) = (Ok r, s') /\
    seg_holds s' rs /\
    baseOffset s' = baseOffset s /\ nextOffset s' = nextOffset s /\
    config s' = config s /\ s_index s' = s_index s /\
    store_name (s_store s') = store_name (s_store s) /\
    store_size (s_store s') = store_size (s_store s).
Proof.
  intros Hh Hk. apply (segment_Read_entry s rs k r); [exact Hh | exact Hk | ].
  destruct Hh as (_ & _ & Hisz & Hile & Hcap & Hb0 & _).
  pose proof (lookup_lt_Some _ _ _ Hk) as Hlt.
  change entWidth with 12 in *. cbv zeta.
  replace (baseOffset s + Z.of_nat k - baseOffset s) with (Z.of_nat k) by lia.
  rewrite wrap64_small, to_int64_small by lia.
  destruct (Z.eqb_spec (Z.of_nat k) (-1)); [lia | ].
  apply wrap32_small. lia.
Qed.

(** The offset just below the base wraps to the sentinel [-1]. *)
Lemma offset_before_base b :
  to_int64 (wrap64 (wrap64 (b - 1) - b)) = -1.
Proof.
  assert (H : wrap64 (wrap64 (b - 1) - b) = 2 ^ 64 - 1).
  { unfold wrap64. rewrite Zminus_mod_idemp_l.
    replace (b - 1 - b) with (-1) by lia. reflexivity. }
  rewrite H. reflexivity.
Qed.

Lemma segment_Read_before_base s rs r :
  seg_holds s rs ->
  last rs = Some r ->
  exists s', segment_Read s (wrap64 (baseOffset s - 1)) = (Ok r, s') /\
    seg_holds s' rs.
Proof.
  intros Hh Hl.
  assert (Hk : rs !! (length rs - 1)%nat = Some r).
  { rewrite <- Hl. rewrite last_lookup. f_equal. lia. }
  destruct (segment_Read_entry s rs (length rs - 1) r (wrap64 (baseOffset s - 1)) Hh Hk)
    as (s' & HR & Hh' & _); [ | eauto].
  cbv zeta. rewrite offset_before_base. change (-1 =? -1) with true. cbv iota.
  destruct Hh as (_ & _ & Hisz & Hile & Hcap & _).
  pose proof (lookup_lt_Some _ _ _ Hk) as Hlt.
  change entWidth with 12 in *. rewrite Hisz.
  replace (12 * Z.of_nat (length rs) / 12) with (Z.of_nat (length rs))
    by (rewrite Z.mul_comm, Z.div_mul; lia).
  rewrite (wrap64_small (Z.of_nat (length rs) - 1)) by lia.
  rewrite wrap32_small by lia. lia.
Qed.

End SegmentReads.

Section SegmentAppends.
Context {codec : Codec}.

Lemma assign_offsets_length next rs :
  length (assign_offsets next rs) = length rs.
Proof.
  revert next. induction rs as [|r rs IH]; intros; simpl;
    [ | rewrite IH]; reflexivity.
Qed.

(** One append, given only that the store file stays below [2^63] bytes
    and the offsets below [2^64]. *)
Lemma segment_Append_step s rs r res s' :
  seg_holds s rs ->
  segment_Append s r = (res, s') ->
  Z.of_nat (length (store_content (s_store s'))) < 2 ^ 63 ->
  nextOffset s + 1 < 2 ^ 64 ->
  baseOffset s' = baseOffset s /\ config s' = config s /\
  store_name (s_store s') = store_name (s_store s) /\
  index_name (s_index s') = index_name (s_index s) /\
  length (mmap (s_index s')) = length (mmap (s_index s)) /\
  ((res = Ok (nextOffset s) /\
    seg_holds s' (rs ++ [with_offset r (nextOffset s)]))
   \/ (exists e, res = Err e /\ seg_holds s' rs)).
Proof.
  intros Hh HA Hlen Hn.
  destruct (Marshal (with_offset r (nextOffset s))) as [p|e] eqn:HM.
  - assert (Hsz : store_size (s_store s) + lenWidth + Z.of_nat (length p) < 2 ^ 63).
    { pose proof Hh as ((_ & He & Hsize & _) & _).
      destruct (store_Append_ok (s_store s) p He) as (st & HS & _ & _ & _ & Hco & _).
      assert (Hst : s_store s' = st).
      { revert HA. unfold segment_Append.
        change {| Value := Value r; Offset := nextOffset s |}
          with (with_offset r (nextOffset s)). rewrite HM, HS.
        destruct (index_Write _ _ _) as [[e|] ix]; intros [= <- <-]; reflexivity. }
      rewrite Hst, Hco, !length_app, PutUint64_length in Hlen.
      rewrite Hsize. unfold lenWidth. lia. }
    destruct (segment_Append_holds s rs r p Hh HM Hsz Hn)
      as (s1 & Hb & Hc & Hsn & Hin & Hml & _ & Hcases).
    destruct Hcases as [(_ & HA1 & Hh1) | (_ & HA1 & Hh1)];
      rewrite HA1 in HA; injection HA as <- <-;
      (do 5 (split; [assumption | ])); eauto.
  - revert HA. unfold segment_Append.
    change {| Value := Value r; Offset := nextOffset s |}
      with (with_offset r (nextOffset s)). rewrite HM.
    intros [= <- <-]. do 5 (split; [reflexivity | ]). right. eauto.
Qed.

Lemma store_Append_content_length s p r s' :
  store_Append s p = (r, s') ->
  (length (store_content s) <= length (store_content s'))%nat.
Proof.
  unfold store_Append, buf_Write, store_content.
  destruct (buf_err s); cbn.
  - intros [= <- <-]. lia.
  - intros [= <- <-]. cbn. rewrite !length_app. lia.
Qed.

Lemma segment_Append_content_length s r res s' :
  segment_Append s r = (res, s') ->
  (length (store_content (s_store s)) <= length (store_content (s_store s')))%nat.
Proof.
  unfold segment_Append. destruct (Marshal _) as [p|e].
  - destruct (store_Append (s_store s) p) as [[[n pos]|e] st] eqn:ES;
      apply store_Append_content_length in ES.
    + destruct (index_Write _ _ _) as [[e|] ix]; intros [= <- <-]; exact ES.
    + intros [= <- <-]. exact ES.
  - intros [= <- <-]. lia.
Qed.

Lemma segment_Appends_content_length rs : forall s s',
  segment_Appends s rs = Some s' ->
  (length (store_content (s_store s)) <= length (store_content (s_store s')))%nat.
Proof.
  induction rs as [|r rs IH]; intros s s'; cbn.
  - intros [= <-]. lia.
  - destruct (segment_Append s r) as [[off|e] s1] eqn:EA; [ | discriminate].
    intros H. apply IH in H. apply segment_Append_content_length in EA. lia.
Qed.

(** [k] appends that all succeed add the [k] records, with consecutive
    offsets. *)
Lemma segment_Appends_holds rs : forall s rs0 s',
  seg_holds s rs0 ->
  segment_Appends s rs = Some s' ->
  Z.of_nat (length (store_content (s_store s'))) < 2 ^ 63 ->
  nextOffset s + Z.of_nat (length rs) < 2 ^ 64 ->
  seg_holds s' (rs0 ++ assign_offsets (nextOffset s) rs) /\
  baseOffset s' = baseOffset s /\ config s' = config s /\
  store_name (s_store s') = store_name (s_store s) /\
  index_name (s_index s') = index_name (s_index s) /\
  length (mmap (s_index s')) = length (mmap (s_index s)).
Proof.
  induction rs as [|r rs IH]; intros s rs0 s' Hh HA Hlen Hn.
  - cbn in HA. injection HA as <-. cbn. rewrite app_nil_r. auto 10.
  - cbn in HA.
    destruct (segment_Append s r) as [[off|e] s1] eqn:EA; [ | discriminate].
    pose proof (segment_Appends_content_length _ _ _ HA) as Hmono.
    cbn [length] in Hn.
    destruct (segment_Append_step s rs0 r _ _ Hh EA) as (Hb & Hc & Hsn & Hin & Hml & Hcases);
      [lia | lia | ].
    destruct Hcases as [[_ Hh1] | (e & He & _)]; [ | discriminate].
    assert (Hnext1 : nextOffset s1 = nextOffset s + 1).
    { destruct Hh as (_ & _ & _ & _ & _ & _ & Hnx & _).
      destruct Hh1 as (_ & _ & _ & _ & _ & _ & Hnx1 & _).
      rewrite length_app in Hnx1. cbn [length] in Hnx1. lia. }
    destruct (IH s1 _ s' Hh1 HA Hlen) as (Hh' & Hb' & Hc' & Hsn' & Hin' & Hml'); [lia | ].
    cbn [assign_offsets]. rewrite Hnext1 in Hh'. rewrite <- app_assoc in Hh'.
    split; [exact Hh' | ]. repeat split; congruence.
Qed.

End SegmentAppends.

(** ** File names *)

Lemma string_app_inv_l (s a b : string) :
  (s ++ a)%string = (s ++ b)%string -> a = b.
Proof.
  induction s as [|c s IH]; cbn; [auto | ]. intros [= H]. auto.
Qed.

Lemma store_index_names_differ b :
  file_name b ".store" <> file_name b ".index".
Proof. unfold file_name. intros H. apply string_app_inv_l in H. discriminate. Qed.

(** ** Opening and closing a segment *)

Lemma read_entry_app a b k x :
  read_entry a k = Some x -> read_entry (a ++ b) k = Some x.
Proof.
  unfold read_entry.
  destruct (slice a _ _) as [o|] eqn:E1; [ | discriminate].
  destruct (slice a _ _) as [p|] eqn:E2 in |- *; [ | discriminate].
  rewrite (slice_app_l _ b _ _ _ E1), (slice_app_l _ b _ _ _ E2). auto.
Qed.

Lemma slice_take m (n : nat) lo hi v :
  slice m lo hi = Some v -> hi <= Z.of_nat n ->
  slice (take n m) lo hi = Some v.
Proof.
  intros Hs Hn. pose proof (slice_inv _ _ _ _ Hs) as (H1 & H2 & H3 & _).
  assert (Hs' : slice (take n m) lo hi
                = Some (take (Z.to_nat (hi - lo)) (drop (Z.to_nat lo) (take n m))))
    by (apply slice_Some; rewrite ?length_take; lia).
  pose proof (slice_app_l _ (drop n m) _ _ _ Hs') as Hs''.
  rewrite take_drop, Hs in Hs''. rewrite Hs'. symmetry. exact Hs''.
Qed.

Lemma read_entry_take m (n : nat) k x :
  read_entry m k = Some x -> k * entWidth + entWidth <= Z.of_nat n ->
  read_entry (take n m) k = Some x.
Proof.
  unfold read_entry. change entWidth with 12. change offWidth with 4.
  destruct (slice m _ _) as [o|] eqn:E1; [ | discriminate].
  destruct (slice m _ _) as [p|] eqn:E2 in |- *; [ | discriminate].
  intros Hx Hn.
  rewrite (slice_take _ n _ _ _ E1), (slice_take _ n _ _ _ E2) by lia. exact Hx.
Qed.

Lemma resize_ge n m :
  Z.of_nat (length m) <= n -> resize n m = m ++ replicate (Z.to_nat n - length m) Byte.x00.
Proof. intros H. unfold resize. rewrite take_ge by lia. reflexivity. Qed.

Lemma resize_le n m :
  0 <= n <= Z.of_nat (length m) -> resize n m = take (Z.to_nat n) m.
Proof.
  intros H. unfold resize.
  replace (Z.to_nat n - length m)%nat with 0%nat by lia. apply app_nil_r.
Qed.

Lemma resize_length n m : 0 <= n -> Z.of_nat (length (resize n m)) = n.
Proof.
  intros H. unfold resize. rewrite length_app, length_take, length_replicate. lia.
Qed.

Lemma OpenFile_spec d name :
  exists d1, OpenFile d name = (d1, default [] (d !! name)) /\
    d1 !! name = Some (default [] (d !! name)) /\
    (forall n, n <> name -> d1 !! n = d !! n).
Proof.
  unfold OpenFile. destruct (d !! name) as [content|] eqn:E.
  - exists d. cbn. auto.
  - eexists. split; [reflexivity | ]. cbn. split.
    + apply lookup_insert_eq.
    + intros n Hn. apply lookup_insert_ne. congruence.
Qed.

Section SegmentFiles.
Context {codec : Codec}.

(** Opening a segment over its files gives a segment that holds the
    records of the files, with [nextOffset] just past the last one. *)
Lemma newSegment_holds d base c rs :
  seg_files d base rs ->
  0 <= base -> base + Z.of_nat (length rs) < 2 ^ 64 ->
  0 < MaxIndexBytes c <= 2 ^ 32 * entWidth ->
  entWidth * Z.of_nat (length rs) <= MaxIndexBytes c ->
  exists s d', newSegment d base c = (Ok s, d') /\
    seg_holds s rs /\
    baseOffset s = base /\ nextOffset s = base + Z.of_nat (length rs) /\
    config s = c /\
    store_name (s_store s) = file_name base ".store" /\
    index_name (s_index s) = file_name base ".index" /\
    Z.of_nat (length (mmap (s_index s))) = MaxIndexBytes c /\
    store_content (s_store s) = default [] (d !! file_name base ".store") /\
    is_Some (d' !! file_name base ".store") /\
    is_Some (d' !! file_name base ".index") /\
    (forall n, n <> file_name base ".store" -> n <> file_name base ".index" ->
       d' !! n = d !! n).
Proof.
  intros (Hclen & Helen & Hrec) Hb0 Hb64 HM Hfit.
  assert (Hew : entWidth = 12) by reflexivity. rewrite Hew in *.
  pose proof (store_index_names_differ base) as Hne.
  set (sname := file_name base ".store") in *.
  set (iname := file_name base ".index") in *.
  set (content := default [] (d !! sname)) in *.
  set (entries := default [] (d !! iname)) in *.
  unfold newSegment. fold sname iname.
  destruct (OpenFile_spec d sname) as (d1 & -> & Hd1 & Hd1o).
  destruct (OpenFile_spec d1 iname) as (d2 & -> & Hd2 & Hd2o).
  fold content in Hd1 |- *.
  assert (Hent : default [] (d1 !! iname) = entries)
    by (subst entries; rewrite Hd1o by congruence; reflexivity).
  rewrite Hent in Hd2.
  unfold newIndex. rewrite Hd2.
  rewrite to_int64_small by lia.
  destruct (Z.ltb_spec (MaxIndexBytes c) 0); [lia | ].
  rewrite resize_ge by lia.
  set (region := entries ++ replicate (Z.to_nat (MaxIndexBytes c) - length entries) Byte.x00).
  assert (Hrlen : Z.of_nat (length region) = MaxIndexBytes c).
  { subst region. rewrite length_app, length_replicate. lia. }
  destruct region as [|b0 region'] eqn:Er; [cbn in Hrlen; lia | ].
  rewrite <- Er in *. clear Er b0 region'.
  rewrite wrap64_small by lia.
  set (ix := {| index_name := iname; index_closed := false;
                mmap := region; index_size := Z.of_nat (length entries) |}).
  assert (Hheld : forall (k : nat) (r : api_Record), rs !! k = Some r ->
            Offset r = base + Z.of_nat k /\
            exists pos p, read_entry region (Z.of_nat k) = Some (Z.of_nat k, pos) /\
              Marshal r = Ok p /\
              frame_at (store_content (newStore sname content)) pos p).
  { intros k r Hk. destruct (Hrec k r Hk) as (Ho & pos & p & He & Hm & Hf).
    split; [exact Ho | ]. exists pos, p.
    split; [subst region; apply read_entry_app; exact He | ].
    split; [exact Hm | ]. unfold store_content, newStore. cbn.
    rewrite app_nil_r. exact Hf. }
  assert (Hwf : store_wf (newStore sname content)).
  { unfold store_wf, newStore, store_content. cbn. rewrite app_nil_r.
    rewrite wrap64_small by lia. auto. }
  assert (Hdone : forall next, next = base + Z.of_nat (length rs) ->
    let s := {| s_store := newStore sname content; s_index := ix;
                baseOffset := base; nextOffset := next; config := c |} in
    seg_holds s rs /\ baseOffset s = base /\
    nextOffset s = base + Z.of_nat (length rs) /\ config s = c /\
    store_name (s_store s) = sname /\ index_name (s_index s) = iname /\
    Z.of_nat (length (mmap (s_index s))) = MaxIndexBytes c /\
    store_content (s_store s) = content /\
    is_Some (<[iname := region]> d2 !! sname) /\
    is_Some (<[iname := region]> d2 !! iname) /\
    (forall n, n <> sname -> n <> iname -> <[iname := region]> d2 !! n = d !! n)).
  { intros next ->. cbv zeta. cbn [s_store s_index baseOffset nextOffset config].
    split.
    - unfold seg_holds. cbn [s_store s_index baseOffset nextOffset config ix
                               index_closed index_size mmap].
      rewrite Hew. repeat split; try lia; try (apply Hwf); auto;
        apply Hheld; assumption.
    - do 6 (split; [first [reflexivity | assumption] | ]).
      split; [unfold store_content, newStore; cbn; apply app_nil_r | ].
      split; [rewrite lookup_insert_ne by congruence; rewrite Hd2o by congruence;
              exists content; exact Hd1 | ].
      split; [rewrite lookup_insert_eq; eauto | ].
      intros n Hn1 Hn2. rewrite lookup_insert_ne by congruence.
      rewrite Hd2o by congruence. apply Hd1o. congruence. }
  destruct (rs) as [|r0 rs'] eqn:Ers.
  - (* an empty index: EOF *)
    assert (Hz : index_size ix = 0) by (subst ix; cbn in *; lia).
    unfold index_Read. rewrite Hz. cbn [Z.eqb].
    eexists _, _. split; [reflexivity | ]. apply Hdone. cbn. lia.
  - rewrite <- Ers in *.
    assert (Hn : (0 < length rs)%nat) by (rewrite Ers; cbn; lia).
    assert (Hnz : index_size ix <> 0) by (subst ix; cbn; lia).
    rewrite (index_Read_unfold ix (-1) Hnz). cbv zeta. change (-1 =? -1) with true.
    cbv iota. cbn [index_size mmap ix]. rewrite Hew, Helen.
    replace (12 * Z.of_nat (length rs) / 12) with (Z.of_nat (length rs))
      by (rewrite Z.mul_comm, Z.div_mul; lia).
    rewrite (wrap64_small (Z.of_nat (length rs) - 1)) by lia.
    rewrite wrap32_small by lia.
    destruct (Z.ltb_spec (12 * Z.of_nat (length rs))
                ((Z.of_nat (length rs) - 1) * 12 + 12)); [lia | ].
    assert (Hlast : exists r, rs !! (length rs - 1)%nat = Some r)
      by (apply lookup_lt_is_Some; lia).
    destruct Hlast as (r & Hr).
    destruct (Hheld _ _ Hr) as (_ & pos & p & He & _).
    replace (Z.of_nat (length rs - 1)) with (Z.of_nat (length rs) - 1) in He by lia.
    rewrite He.
    eexists _, _. split; [reflexivity | ]. apply Hdone.
    rewrite (wrap64_small (base + _)) by lia. rewrite wrap64_small by lia. lia.
Qed.

(** Closing a segment leaves its records in its two files. *)
Lemma segment_Close_files s rs d :
  seg_holds s rs ->
  store_name (s_store s) = file_name (baseOffset s) ".store" ->
  index_name (s_index s) = file_name (baseOffset s) ".index" ->
  is_Some (d !! file_name (baseOffset s) ".store") ->
  is_Some (d !! file_name (baseOffset s) ".index") ->
  exists s' d', segment_Close s d = (None, s', d') /\
    seg_files d' (baseOffset s) rs /\
    baseOffset s' = baseOffset s /\ nextOffset s' = nextOffset s /\
    (forall n, n <> file_name (baseOffset s) ".store" ->
               n <> file_name (baseOffset s) ".index" -> d' !! n = d !! n).
Proof.
  intros (Hst & Hic & Hisz & Hile & Hcap & Hb0 & Hnext & Hn64 & Hrec)
    Hsn Hin [c0 Hds] [e0 Hdi].
  assert (Hew : entWidth = 12) by reflexivity. rewrite Hew in *.
  pose proof (store_index_names_differ (baseOffset s)) as Hne.
  set (sname := file_name (baseOffset s) ".store") in *.
  set (iname := file_name (baseOffset s) ".index") in *.
  unfold segment_Close, index_Close. rewrite Hic.
  rewrite to_int64_small by lia.
  destruct (Z.ltb_spec (index_size (s_index s)) 0); [lia | ].
  rewrite Hin, Hdi.
  destruct (buf_Flush_wf _ Hst) as (st1 & HF & Hfile & Hbuf & Hname & Hsz & Hcl & He).
  unfold store_Close. rewrite HF, Hcl, Hname, Hsn.
  rewrite lookup_insert_ne by congruence. rewrite Hds.
  eexists _, _. split; [reflexivity | ]. cbn [baseOffset nextOffset].
  split; [ | split; [reflexivity | split; [reflexivity | ] ] ].
  - unfold seg_files. fold sname iname. cbv zeta.
    rewrite lookup_insert_eq.
    rewrite lookup_insert_ne by congruence. rewrite lookup_insert_eq.
    cbn [default from_option id]. rewrite Hew.
    rewrite Hfile. destruct Hst as (_ & _ & Hsize & Hlt).
    rewrite resize_le by lia.
    split; [lia | ]. split; [rewrite length_take; lia | ].
    intros k r Hk. destruct (Hrec k r Hk) as (Ho & pos & p & Hent & Hm & Hf).
    pose proof (lookup_lt_Some _ _ _ Hk) as Hlt'.
    split; [exact Ho | ]. exists pos, p.
    split; [apply read_entry_take; [exact Hent | rewrite Hew; lia] | ]. auto.
  - intros n Hn1 Hn2. rewrite !lookup_insert_ne by congruence. reflexivity.
Qed.

End SegmentFiles.

(** ** Recovery of [nextOffset] and reads below the base offset *)

Lemma example_codec_laws : CodecLaws example_codec.
Proof.
  constructor. intros [v o] p.
  cbn [Marshal Unmarshal example_codec Offset Value].
  destruct (Z.leb_spec 0 o); [ | discriminate].
  destruct (Z.ltb_spec o (2 ^ 64)); [ | discriminate].
  cbn [andb]. intros Hp.
  assert (p = PutUint64 o ++ v) as -> by congruence. clear Hp.
  pose proof (PutUint64_length o) as L.
  rewrite length_app, L.
  destruct (Nat.ltb_spec (8 + length v) 8); [lia | ].
  rewrite drop_app_length', take_app_length' by (symmetry; exact L).
  rewrite Uint64_PutUint64, wrap64_small by lia. reflexivity.
Qed.

Section Recovery.
Context {codec : Codec}.

Lemma seg_files_fresh d base :
  d !! file_name base ".store" = None ->
  d !! file_name base ".index" = None ->
  seg_files d base [].
Proof.
  intros H1 H2. unfold seg_files. rewrite H1, H2. cbn.
  split; [lia | ]. split; [reflexivity | ]. intros k r Hk. discriminate.
Qed.

(** C5.  [newSegment] sets [nextOffset = baseOffset] when reading index
    entry [-1] fails with EOF, as it does on an empty index, and
    [nextOffset = baseOffset + lastRelativeOffset + 1] when the read
    succeeds.  Hence a segment made in a directory that had no files for
    it, after [k] appends that succeed and a close, is reopened with
    [nextOffset = baseOffset + k]. *)
Theorem newSegment_nextOffset (d : directory) (base : Z) (c : Config) :
  (forall s d', newSegment d base c = (Ok s, d') ->
     (index_size (s_index s) = 0 -> index_Read (s_index s) (-1) = Err EOF) /\
     (index_Read (s_index s) (-1) = Err EOF -> nextOffset s = base) /\
     (forall off pos, index_Read (s_index s) (-1) = Ok (off, pos) ->
        nextOffset s = wrap64 (wrap64 (base + off) + 1))) /\
  (forall rs s0 d0 s1,
     d !! file_name base ".store" = None ->
     d !! file_name base ".index" = None ->
     0 <= base -> base + Z.of_nat (length rs) < 2 ^ 64 ->
     0 < MaxIndexBytes c <= 2 ^ 32 * entWidth ->
     newSegment d base c = (Ok s0, d0) ->
     segment_Appends s0 rs = Some s1 ->
     Z.of_nat (length (store_content (s_store s1))) < 2 ^ 63 ->
     exists s2 d2 s3 d3,
       segment_Close s1 d0 = (None, s2, d2) /\
       newSegment d2 base c = (Ok s3, d3) /\
       nextOffset s3 = base + Z.of_nat (length rs)).
Proof.
  split.
  - intros s d'. unfold newSegment.
    destruct (OpenFile d _) as [d1 content].
    destruct (OpenFile d1 _) as [d2 ?].
    destruct (newIndex d2 _ c) as [[ix|e] d3]; [ | discriminate].
    assert (Hempty : index_size ix = 0 -> index_Read ix (-1) = Err EOF)
      by (intros Hz; unfold index_Read; rewrite Hz; reflexivity).
    destruct (index_Read ix (-1)) as [[off pos]|e] eqn:ER.
    + intros [= <- <-]. cbn [s_index nextOffset].
      rewrite ER. split; [exact Hempty | ]. split; [discriminate | ].
      intros ? ? [= <- <-]. reflexivity.
    + destruct e; try discriminate; intros [= <- <-];
        cbn [s_index nextOffset]; rewrite ER; (split; [exact Hempty | ]);
        (split; [reflexivity | discriminate]).
  - intros rs s0 d0 s1 Hns Hni Hb0 Hb64 HM HN HA Hlen.
    assert (Hew : entWidth = 12) by reflexivity.
    destruct (newSegment_holds d base c [] (seg_files_fresh d base Hns Hni))
      as (s0' & d0' & HN' & Hh0 & Hbase & Hnext & Hc & Hsn & Hin & Hml & _ & Hds & Hdi & _);
      [exact Hb0 | cbn; lia | exact HM | cbn; lia | ].
    rewrite HN' in HN. injection HN as <- <-.
    destruct (segment_Appends_holds rs s0' [] s1 Hh0 HA Hlen)
      as (Hh1 & Hb1 & Hc1 & Hsn1 & Hin1 & Hml1); [cbn in Hnext; lia | ].
    cbn [app] in Hh1. rewrite Hnext in Hh1. cbn in Hh1.
    rewrite Z.add_0_r in Hh1.
    destruct (segment_Close_files s1 _ d0' Hh1)
      as (s2 & d2 & HC & Hf2 & _); try (rewrite Hb1, Hbase); try congruence.
    rewrite Hb1, Hbase in Hf2.
    pose proof Hh1 as (_ & _ & Hisz & Hile & _).
    rewrite assign_offsets_length in *. rewrite Hml1 in Hile.
    destruct (newSegment_holds d2 base c _ Hf2)
      as (s3 & d3 & HN3 & _ & _ & Hnext3 & _);
      [exact Hb0 | rewrite assign_offsets_length; lia | exact HM
      | rewrite assign_offsets_length; lia | ].
    rewrite assign_offsets_length in Hnext3. eauto 10.
Qed.

End Recovery.

Lemma newSegment_nextOffset_witness :
  exists s1 s2 d2 s3 d3,
    example_segment3 = Some s1 /\
    segment_Close s1 (snd example_segment0) = (None, s2, d2) /\
    newSegment d2 16 example_config = (Ok s3, d3) /\
    nextOffset s3 = 16 + 3.
Proof.
  assert (Hlen : match example_segment3 with
                 | Some s1 => Z.of_nat (length (store_content (s_store s1))) < 2 ^ 63
                 | None => True
                 end) by (vm_compute; reflexivity).
  destruct example_segment3 as [s1|] eqn:E3; [ | vm_compute in E3; discriminate].
  unfold example_segment3 in E3.
  destruct example_segment0 as [[s0|e] d0] eqn:E0; [ | vm_compute in E0; discriminate].
  destruct (newSegment_nextOffset (codec := example_codec) ∅ 16 example_config)
    as [_ H].
  destruct (H [hello_record; hello_record; hello_record] s0 d0 s1)
    as (s2 & d2 & s3 & d3 & HC & HN & Hnext);
    [reflexivity | reflexivity | lia | vm_compute; reflexivity
    | vm_compute; split; [reflexivity | discriminate] | exact E0 | exact E3
    | exact Hlen | ].
  exists s1, s2, d2, s3, d3. cbn [snd]. auto.
Defined.

Section ReadBelowBase.
Context {codec : Codec} {laws : CodecLaws codec}.

(** C10.  On a segment that holds at least one record,
    [segment.Read(baseOffset - 1)] does not fail: [off - baseOffset] wraps
    to [2^64 - 1], which as [int64] is [-1], the argument with which
    [index.Read] reads the last entry, so the call returns the last record
    of the segment.  The range test of [Log.Read] does not select the
    segment for that offset. *)
Theorem segment_Read_below_base (s : segment) (rs : list api_Record)
    (r : api_Record) :
  seg_holds s rs ->
  last rs = Some r ->
  wrap64 (wrap64 (baseOffset s - 1) - baseOffset s) = 2 ^ 64 - 1 /\
  to_int64 (wrap64 (wrap64 (baseOffset s - 1) - baseOffset s)) = -1 /\
  (exists s', segment_Read s (wrap64 (baseOffset s - 1)) = (Ok r, s')) /\
  (baseOffset s <=? wrap64 (baseOffset s - 1))
    && (wrap64 (baseOffset s - 1) <? nextOffset s) = false.
Proof.
  intros Hh Hl.
  pose proof (offset_before_base (baseOffset s)) as Hm.
  split; [ | split; [exact Hm | split] ].
  - unfold wrap64. rewrite Zminus_mod_idemp_l.
    replace (baseOffset s - 1 - baseOffset s) with (-1) by lia. reflexivity.
  - destruct (segment_Read_before_base s rs r Hh Hl) as (s' & HR & _). eauto.
  - destruct Hh as (_ & _ & _ & _ & _ & Hb0 & Hnext & Hn64 & _).
    destruct (Z.eq_dec (baseOffset s) 0) as [Hz|Hnz].
    + rewrite Hz. change (wrap64 (0 - 1)) with (2 ^ 64 - 1).
      destruct (Z.ltb_spec (2 ^ 64 - 1) (nextOffset s)); [lia | ].
      apply andb_false_r.
    + rewrite wrap64_small by lia.
      destruct (Z.leb_spec (baseOffset s) (baseOffset s - 1)); [lia | ].
      reflexivity.
Qed.

End ReadBelowBase.

Lemma segment_Read_below_base_witness :
  exists s3 s',
    example_segment3 = Some s3 /\
    segment_Read (codec := example_codec) s3 15
      = (Ok (with_offset hello_record 18), s').
Proof.
  assert (Hlen : match example_segment3 with
                 | Some s1 => Z.of_nat (length (store_content (s_store s1))) < 2 ^ 63
                 | None => True
                 end) by (vm_compute; reflexivity).
  destruct example_segment3 as [s3|] eqn:E3; [ | vm_compute in E3; discriminate].
  unfold example_segment3 in E3.
  destruct example_segment0 as [[s0|e] d0] eqn:E0; [ | vm_compute in E0; discriminate].
  destruct (newSegment_holds (codec := example_codec) ∅ 16 example_config []
              (seg_files_fresh ∅ 16 (lookup_empty _) (lookup_empty _)))
    as (s0' & d0' & HN' & Hh0 & Hbase & Hnext & _);
    [lia | vm_compute; reflexivity | vm_compute; split; [reflexivity | discriminate]
    | vm_compute; discriminate | ].
  unfold example_segment0 in E0. rewrite HN' in E0. injection E0 as <- <-.
  destruct (segment_Appends_holds _ s0' [] s3 Hh0 E3 Hlen)
    as (Hh3 & Hb3 & _); [rewrite Hnext; vm_compute; reflexivity | ].
  rewrite Hnext in Hh3. cbn [app length Z.of_nat] in Hh3.
  destruct (segment_Read_below_base (codec := example_codec)
              (laws := example_codec_laws) s3 _
              (with_offset hello_record 18) Hh3)
    as (_ & _ & (s' & HR) & _); [reflexivity | ].
  rewrite Hb3, Hbase in HR. exists s3, s'. split; [reflexivity | exact HR].
Defined.

(** ** Construction of the log *)

(** C3 fails on the code.  In an empty directory, with a configuration
    under which the segment cannot be made (the index file cannot be sized
    to [2^63] bytes), [setup] drops the error of [newSegment] with
    [return nil]: [NewLog] returns without error and the log has no
    segment. *)
Theorem NewLog_drops_newSegment_error :
  fst (newSegment ∅ (InitialOffset bad_config) bad_config) = Err ErrInvalid /\
  fst (NewLog ∅ bad_config) = None /\
  segments (snd (NewLog ∅ bad_config)) = [] /\
  activeSegment (snd (NewLog ∅ bad_config)) = None.
Proof. vm_compute. auto. Qed.

(** C6 fails on the code.  The loop of [setup] takes every other element
    of the sorted offsets instead of removing duplicates: in a directory
    with [0.store], [0.index] and one stray file, whose name parses to 0,
    the offsets are [0; 0; 0] and two segments are made for base offset
    0. *)
Theorem setup_two_segments_for_one_offset :
  merge_sort Z.le
    ((fun name => ParseUint (TrimSuffix name (Ext name))) <$> ReadDir stray_directory)
    = [0; 0; 0] /\
  fst (NewLog stray_directory example_log_config) = None /\
  ranges (snd (NewLog stray_directory example_log_config))
    = [Some (0, 0); Some (0, 1)] /\
  length (segments (snd (NewLog stray_directory example_log_config))) = 2%nat.
Proof. vm_compute. auto. Qed.

(** ** File names of different segments differ *)

Lemma string_length_app (s1 s2 : string) :
  String.length (s1 ++ s2) = (String.length s1 + String.length s2)%nat.
Proof. induction s1 as [|c s1 IH]; simpl; [reflexivity | now f_equal]. Qed.

Lemma string_app_inv_r (s1 s2 e1 e2 : string) :
  String.length e1 = String.length e2 ->
  (s1 ++ e1)%string = (s2 ++ e2)%string -> s1 = s2.
Proof.
  revert s2. induction s1 as [|c s1 IH]; intros [|c2 s2] Hl H; simpl in H.
  - reflexivity.
  - apply (f_equal String.length) in H. simpl in H.
    rewrite !string_length_app in H. simpl in H. lia.
  - apply (f_equal String.length) in H. simpl in H.
    rewrite !string_length_app in H. simpl in H. lia.
  - injection H as -> H. f_equal. eapply IH; eassumption.
Qed.

Lemma N_to_uint_nonnil n : N.to_uint n <> Nil.
Proof.
  destruct n as [|p]; cbn; [discriminate | ].
  apply DecimalPos.Unsigned.to_uint_nonnil.
Qed.

Lemma file_name_inj b1 b2 e1 e2 :
  0 <= b1 -> 0 <= b2 -> String.length e1 = String.length e2 ->
  file_name b1 e1 = file_name b2 e2 -> b1 = b2.
Proof.
  intros H1 H2 Hl H. unfold file_name in H.
  apply string_app_inv_r in H; [ | exact Hl].
  apply (f_equal NilZero.uint_of_string) in H.
  rewrite !NilZero.usu in H by apply N_to_uint_nonnil.
  injection H as H. apply Unsigned.to_uint_inj in H. lia.
Qed.

Lemma segment_file_inj name b1 b2 :
  0 <= b1 -> 0 <= b2 -> segment_file name b1 -> segment_file name b2 -> b1 = b2.
Proof.
  intros H1 H2 [-> | ->] [H | H];
    (eapply file_name_inj; [ | | | exact H]; auto).
Qed.

(** ** Offsets under the operations of a segment *)

Lemma newSegment_fresh d b c :
  d !! file_name b ".store" = None ->
  d !! file_name b ".index" = None ->
  0 < to_int64 (MaxIndexBytes c) ->
  exists s d', newSegment d b c = (Ok s, d') /\
    baseOffset s = b /\ nextOffset s = b /\ config s = c /\
    (forall name, is_Some (d' !! name) ->
       is_Some (d !! name) \/ segment_file name b).
Proof.
  intros Hs Hi HM.
  pose proof (store_index_names_differ b) as Hne.
  unfold newSegment, OpenFile. rewrite Hs.
  rewrite lookup_insert_ne by congruence. rewrite Hi.
  unfold newIndex. rewrite lookup_insert_eq.
  destruct (Z.ltb_spec (to_int64 (MaxIndexBytes c)) 0); [lia | ].
  destruct (resize (to_int64 (MaxIndexBytes c)) []) as [|x region] eqn:Er.
  { apply (f_equal (fun l => Z.of_nat (length l))) in Er.
    rewrite resize_length in Er by lia. cbn in Er. lia. }
  cbn [length Z.of_nat]. change (wrap64 0) with 0.
  unfold index_Read at 1. cbn [index_size Z.eqb].
  eexists _, _. split; [reflexivity | ]. cbn [baseOffset nextOffset config].
  do 3 (split; [reflexivity | ]).
  intros name [v Hv].
  destruct (decide (name = file_name b ".index")) as [->|Hn1];
    [right; right; reflexivity | ].
  destruct (decide (name = file_name b ".store")) as [->|Hn2];
    [right; left; reflexivity | ].
  left. rewrite !lookup_insert_ne in Hv by congruence. eauto.
Qed.

Lemma newSegment_fails d b c :
  ~ 0 < to_int64 (MaxIndexBytes c) ->
  exists e d', newSegment d b c = (Err e, d').
Proof.
  intros HM. unfold newSegment.
  destruct (OpenFile_spec d (file_name b ".store")) as (d1 & -> & _ & _).
  destruct (OpenFile_spec d1 (file_name b ".index")) as (d2 & -> & Hd2 & _).
  unfold newIndex. rewrite Hd2.
  destruct (Z.ltb_spec (to_int64 (MaxIndexBytes c)) 0); [eauto | ].
  assert (Hz : to_int64 (MaxIndexBytes c) = 0) by lia. rewrite Hz.
  unfold resize. cbn. eauto.
Qed.

Section SegmentOffsets.
Context {codec : Codec}.

Lemma segment_Append_offsets s r res s' :
  segment_Append s r = (res, s') ->
  baseOffset s' = baseOffset s /\ config s' = config s /\
  ((exists e, res = Err e /\ nextOffset s' = nextOffset s) \/
   (res = Ok (nextOffset s) /\ nextOffset s' = wrap64 (nextOffset s + 1))).
Proof.
  unfold segment_Append. destruct (Marshal _) as [p|e].
  - destruct (store_Append (s_store s) p) as [[[n pos]|e] st].
    + destruct (index_Write _ _ _) as [[e|] ix]; intros [= <- <-]; cbn; eauto 10.
    + intros [= <- <-]. cbn. eauto 10.
  - intros [= <- <-]. eauto 10.
Qed.

End SegmentOffsets.

Lemma segment_Close_offsets s d e s' d' :
  segment_Close s d = (e, s', d') ->
  baseOffset s' = baseOffset s /\ nextOffset s' = nextOffset s /\
  config s' = config s /\
  (forall name, is_Some (d' !! name) -> is_Some (d !! name)).
Proof.
  unfold segment_Close, index_Close.
  assert (Hins : forall (m : directory) k (v : bytes) name,
            is_Some (m !! k) -> is_Some (<[k := v]> m !! name) -> is_Some (m !! name)).
  { intros m k v name Hk Hn. destruct (decide (k = name)) as [<-|Hne]; [exact Hk | ].
    rewrite lookup_insert_ne in Hn by exact Hne. exact Hn. }
  assert (Hmatch : forall (m : directory) k (v : bytes) name,
            is_Some (match m !! k with Some _ => <[k := v]> m | None => m end !! name)
            -> is_Some (m !! name)).
  { intros m k v name. destruct (m !! k) eqn:E; [ | auto].
    apply Hins. rewrite E. eauto. }
  destruct (index_closed (s_index s)).
  { intros [= <- <- <-]. auto. }
  destruct (to_int64 (index_size (s_index s)) <? 0).
  { intros [= <- <- <-]. cbn. repeat split; auto. intros name. apply Hmatch. }
  unfold store_Close.
  destruct (buf_Flush (s_store s)) as [[e1|] st1].
  { intros [= <- <- <-]. cbn. repeat split; auto. intros name. apply Hmatch. }
  destruct (store_closed st1).
  { intros [= <- <- <-]. cbn. repeat split; auto. intros name. apply Hmatch. }
  intros [= <- <- <-]. cbn. repeat split; auto.
  intros name Hn. apply Hmatch in Hn. apply Hmatch in Hn. exact Hn.
Qed.

Lemma os_Remove_names d name d' :
  os_Remove d name = Ok d' ->
  forall n, is_Some (d' !! n) -> is_Some (d !! n).
Proof.
  unfold os_Remove. destruct (d !! name); [ | discriminate].
  intros [= <-] n Hn. destruct (decide (name = n)) as [<-|Hne].
  - rewrite lookup_delete_eq in Hn. destruct Hn; discriminate.
  - rewrite lookup_delete_ne in Hn by exact Hne. exact Hn.
Qed.

Lemma segment_Remove_offsets s d e s' d' :
  segment_Remove s d = (e, s', d') ->
  baseOffset s' = baseOffset s /\ nextOffset s' = nextOffset s /\
  config s' = config s /\
  (forall name, is_Some (d' !! name) -> is_Some (d !! name)).
Proof.
  unfold segment_Remove.
  destruct (segment_Close s d) as [[e1 s1] d1] eqn:EC.
  apply segment_Close_offsets in EC as (Hb & Hn & Hc & Hd).
  destruct e1 as [e1|].
  { intros [= <- <- <-]. auto. }
  destruct (os_Remove d1 _) as [d2|e2] eqn:E2.
  2: { intros [= <- <- <-]. auto. }
  pose proof (os_Remove_names _ _ _ E2) as Hd2.
  destruct (os_Remove d2 _) as [d3|e3] eqn:E3.
  2: { intros [= <- <- <-]. repeat split; auto. }
  pose proof (os_Remove_names _ _ _ E3) as Hd3.
  intros [= <- <- <-]. repeat split; auto.
Qed.

(** ** Chains of segments *)

Lemma same_offsets_refl h p : same_offsets h h p.
Proof. intros s Hs. eauto. Qed.

Lemma same_offsets_trans h1 h2 h3 p :
  same_offsets h1 h2 p -> same_offsets h2 h3 p -> same_offsets h1 h3 p.
Proof.
  intros H12 H23 s Hs. destruct (H12 s Hs) as (s2 & Hs2 & Hb & Hn & Hc).
  destruct (H23 s2 Hs2) as (s3 & Hs3 & Hb3 & Hn3 & Hc3).
  exists s3. repeat split; congruence.
Qed.

Lemma same_offsets_insert h p s s1 q :
  h !! p = Some s ->
  baseOffset s1 = baseOffset s -> nextOffset s1 = nextOffset s ->
  config s1 = config s ->
  same_offsets h (<[p := s1]> h) q.
Proof.
  intros Hp Hb Hn Hcf sq Hq. destruct (decide (p = q)) as [<-|Hne].
  - exists s1. rewrite list_lookup_insert_eq by (eapply lookup_lt_Some; eauto).
    assert (sq = s) by congruence. subst. auto.
  - exists sq. rewrite list_lookup_insert_ne by exact Hne. auto.
Qed.

Lemma same_offsets_insert_other h p s1 q :
  p <> q -> same_offsets h (<[p := s1]> h) q.
Proof.
  intros Hne sq Hq. exists sq. rewrite list_lookup_insert_ne by exact Hne. auto.
Qed.

Lemma same_offsets_app h s p : same_offsets h (h ++ [s]) p.
Proof.
  intros sp Hp. exists sp. rewrite lookup_app_l by (eapply lookup_lt_Some; eauto).
  auto.
Qed.

Lemma chained_ext h h' ptrs :
  (forall p, p ∈ ptrs -> same_offsets h h' p) ->
  chained h ptrs -> chained h' ptrs.
Proof.
  induction ptrs as [|p rest IH]; intros Hsame; [auto | ].
  cbn [chained]. intros [(s & Hs & Hsane & Hnext) Hrest].
  split.
  - destruct (Hsame p (list_elem_of_here _ _) s Hs) as (s' & Hs' & Hb & Hn & _).
    exists s'. split; [exact Hs' | ].
    split; [unfold seg_sane in *; rewrite Hb, Hn; exact Hsane | ].
    destruct rest as [|q rest']; [exact I | ].
    destruct Hnext as (sq & Hsq & Heq).
    destruct (Hsame q (list_elem_of_further _ _ _ (list_elem_of_here _ _)) sq Hsq)
      as (sq' & Hsq' & Hbq & Hnq & _).
    exists sq'. split; [exact Hsq' | congruence].
  - apply IH; [ | exact Hrest]. intros q Hq. apply Hsame. now apply list_elem_of_further.
Qed.

Lemma chained_drop h ptrs k : chained h ptrs -> chained h (drop k ptrs).
Proof.
  revert ptrs. induction k as [|k IH]; intros ptrs Hc; [now rewrite drop_0 | ].
  destruct ptrs as [|p rest]; [exact Hc | ]. cbn [drop]. apply IH. apply Hc.
Qed.

Lemma chained_lookup h ptrs p :
  chained h ptrs -> p ∈ ptrs -> exists s, h !! p = Some s /\ seg_sane s.
Proof.
  induction ptrs as [|q rest IH]; intros Hc Hp; [inversion Hp | ].
  destruct Hc as [(s & Hs & Hsane & _) Hrest].
  apply elem_of_cons in Hp as [->|Hp]; [eauto | auto].
Qed.

(** Along a chain the segments only go up: after a segment that ends at
    [n], every segment begins and ends at [n] or later. *)
Lemma chained_le h p rest s :
  chained h (p :: rest) -> h !! p = Some s ->
  forall q, q ∈ rest ->
    exists sq, h !! q = Some sq /\
      nextOffset s <= baseOffset sq /\ nextOffset s <= nextOffset sq.
Proof.
  revert p s. induction rest as [|r rest IH]; intros p s Hc Hp q Hq; [inversion Hq | ].
  destruct Hc as [(s0 & Hs0 & Hsane & (sr & Hsr & Heq)) Hrest].
  assert (s0 = s) by congruence. subst s0.
  pose proof Hrest as [(sr' & Hsr' & Hsane_r & _) _].
  assert (sr' = sr) by congruence. subst sr'.
  apply elem_of_cons in Hq as [->|Hq].
  - exists sr. unfold seg_sane in *. split; [exact Hsr | lia].
  - destruct (IH r sr Hrest Hsr q Hq) as (sq & Hsq & H1 & H2).
    exists sq. unfold seg_sane in *. split; [exact Hsq | lia].
Qed.

Lemma chained_snoc h ptrs s_new :
  chained h ptrs ->
  (forall p, p ∈ ptrs -> (p < length h)%nat) ->
  seg_sane s_new ->
  (ptrs = [] \/
   exists a s, last ptrs = Some a /\ h !! a = Some s /\
     nextOffset s = baseOffset s_new) ->
  chained (h ++ [s_new]) (ptrs ++ [length h]).
Proof.
  intros Hc Hlt Hsane Hlast.
  assert (Hnew : (h ++ [s_new]) !! length h = Some s_new).
  { rewrite lookup_app_r by lia. rewrite Nat.sub_diag. reflexivity. }
  induction ptrs as [|p rest IH].
  - cbn. split; [ | exact I]. exists s_new. auto.
  - destruct Hc as [(s & Hs & Hss & Hnext) Hrest].
    cbn [app chained]. split.
    + exists s. split; [rewrite lookup_app_l by (eapply lookup_lt_Some; eauto); exact Hs | ].
      split; [exact Hss | ].
      destruct rest as [|q rest'].
      * cbn [app]. exists s_new. split; [exact Hnew | ].
        destruct Hlast as [Hnil | (a & sa & Hl & Ha & Heq)]; [discriminate | ].
        cbn in Hl. injection Hl as <-. congruence.
      * cbn [app]. destruct Hnext as (sq & Hsq & Heq). exists sq.
        split; [rewrite lookup_app_l by (eapply lookup_lt_Some; eauto); exact Hsq | exact Heq].
    + apply IH; [exact Hrest | | ].
      * intros q Hq. apply Hlt. now apply list_elem_of_further.
      * destruct rest as [|q rest']; [left; reflexivity | right].
        destruct Hlast as [Hnil | (a & sa & Hl & Ha & Heq)]; [discriminate | ].
        exists a, sa. split; [ | auto]. rewrite <- Hl. reflexivity.
Qed.


(** ** Truncation *)

(** From a segment that is kept on, the loop of [Truncate] keeps
    everything. *)
Lemma Truncate_loop_keep_all h lowest : forall ptrs d kept,
  chained h ptrs ->
  (forall p s, head ptrs = Some p -> h !! p = Some s ->
     wrap64 (lowest + 1) < nextOffset s) ->
  Truncate_loop d h ptrs lowest kept = (None, d, h, kept ++ ptrs).
Proof.
  induction ptrs as [|p rest IH]; intros d kept Hc Hhd.
  - cbn. now rewrite app_nil_r.
  - pose proof Hc as [(s & Hs & Hsane & Hnext) Hrest].
    cbn [Truncate_loop]. rewrite Hs.
    pose proof (Hhd p s eq_refl Hs) as Hgt.
    destruct (Z.leb_spec (nextOffset s) (wrap64 (lowest + 1))); [lia | ].
    rewrite IH; [now rewrite <- app_assoc | exact Hrest | ].
    intros q sq Hq Hsq. destruct rest as [|q' rest']; [discriminate | ].
    injection Hq as ->. destruct Hnext as (sq' & Hsq' & Heq).
    assert (sq' = sq) by congruence. subst sq'.
    destruct Hrest as [(sq'' & Hsq'' & Hsane_q & _) _].
    assert (sq'' = sq) by congruence. subst sq''.
    unfold seg_sane in *. lia.
Qed.

(** The loop of [Truncate] on a chain: the segments keep their offsets,
    no file appears, and what is kept is a tail of the list. *)
Lemma Truncate_loop_chain lowest : forall ptrs d h res d' h' kept',
  chained h ptrs ->
  Truncate_loop d h ptrs lowest [] = (res, d', h', kept') ->
  (forall p, same_offsets h h' p) /\
  length h' = length h /\
  (forall name, is_Some (d' !! name) -> is_Some (d !! name)) /\
  (res = None -> exists k, kept' = drop k ptrs).
Proof.
  induction ptrs as [|p rest IH]; intros d h res d' h' kept' Hc HT.
  - cbn in HT. injection HT as <- <- <- <-.
    repeat split; auto using same_offsets_refl. intros _. exists 0%nat. reflexivity.
  - pose proof Hc as [(s & Hs & Hsane & Hnext) Hrest].
    destruct (Z_le_gt_dec (nextOffset s) (wrap64 (lowest + 1))) as [Hle|Hgt].
    + cbn [Truncate_loop] in HT. rewrite Hs in HT.
      destruct (Z.leb_spec (nextOffset s) (wrap64 (lowest + 1))); [ | lia].
      destruct (segment_Remove s d) as [[e s1] d1] eqn:ER.
      apply segment_Remove_offsets in ER as (Hb & Hn & Hcf & Hd).
      assert (Hso : forall q, same_offsets h (<[p := s1]> h) q)
        by (intros q; eapply same_offsets_insert; eauto).
      destruct e as [e|].
      * injection HT as <- <- <- <-.
        split; [exact Hso | ]. split; [apply length_insert | ].
        split; [exact Hd | discriminate].
      * apply IH in HT as (Hso' & Hlen & Hd' & Hk).
        2: { eapply chained_ext; [ | exact Hrest]. intros q _. apply Hso. }
        split; [intros q; eapply same_offsets_trans; [apply Hso | apply Hso'] | ].
        split; [rewrite Hlen; apply length_insert | ].
        split; [auto | ].
        intros Hres. destruct (Hk Hres) as (k & ->). exists (S k). reflexivity.
    + rewrite (Truncate_loop_keep_all h lowest (p :: rest) d [] Hc) in HT.
      * injection HT as <- <- <- <-.
        repeat split; auto using same_offsets_refl. intros _. exists 0%nat. reflexivity.
      * intros q sq [= <-] Hsq. assert (sq = s) by congruence. subst. lia.
Qed.

(** ** The invariant of the log *)

Lemma last_drop {A} (l : list A) k :
  drop k l <> [] -> last (drop k l) = last l.
Proof.
  revert l. induction k as [|k IH]; intros l Hne; [now rewrite drop_0 | ].
  destruct l as [|x l]; [reflexivity | ]. cbn [drop] in *.
  rewrite IH by exact Hne. destruct l as [|y l]; [ | reflexivity].
  rewrite drop_nil in Hne. contradiction.
Qed.

(** Updating the last segment of a chain, which keeps its base offset. *)
Lemma chained_update_last h ptrs a s s1 :
  chained h ptrs ->
  ptrs = [] \/ last ptrs = Some a ->
  NoDup ptrs ->
  h !! a = Some s ->
  baseOffset s1 = baseOffset s -> seg_sane s1 ->
  chained (<[a := s1]> h) ptrs.
Proof.
  intros Hc Hlast Hnd Ha Hb Hsane.
  assert (Halt : (<[a := s1]> h) !! a = Some s1)
    by (apply list_lookup_insert_eq; eapply lookup_lt_Some; eauto).
  induction ptrs as [|p rest IH]; [exact I | ].
  destruct Hlast as [Hnil | Hlast]; [discriminate | ].
  destruct Hc as [(sp & Hsp & Hss & Hnext) Hrest].
  apply NoDup_cons in Hnd as [Hnotin Hnd].
  destruct rest as [|q rest'].
  - cbn in Hlast. injection Hlast as ->. cbn. split; [ | exact I].
    exists s1. auto.
  - assert (Hpa : p <> a).
    { intros ->. apply Hnotin. change (last (q :: rest') = Some a) in Hlast.
      apply last_Some in Hlast as (l' & ->). apply elem_of_app. right.
      apply list_elem_of_here. }
    cbn [chained]. split.
    + exists sp. rewrite list_lookup_insert_ne by congruence.
      split; [exact Hsp | ]. split; [exact Hss | ].
      destruct Hnext as (sq & Hsq & Heq).
      destruct (decide (q = a)) as [->|Hqa].
      * exists s1. split; [exact Halt | ]. assert (sq = s) by congruence. subst. lia.
      * exists sq. rewrite list_lookup_insert_ne by congruence. auto.
    + apply IH; [exact Hrest | right; exact Hlast | exact Hnd].
Qed.

Lemma log_ok_mono b b' l : log_ok b l -> b <= b' -> log_ok b' l.
Proof.
  intros (Hnd & Hlt & Hc & Hact) Hle. unfold log_ok.
  do 3 (split; [assumption | ]).
  destruct (activeSegment l) as [a|]; [ | exact Hact].
  destruct Hact as (s & Hs & Hsane & Hb & Hrest). exists s.
  split; [exact Hs | ]. split; [exact Hsane | ]. split; [lia | exact Hrest].
Qed.

(** A log made in an empty directory. *)
Lemma NewLog_empty_ok c :
  0 <= InitialOffset c < 2 ^ 64 ->
  log_ok (InitialOffset c) (snd (NewLog ∅ c)).
Proof.
  intros HI. unfold NewLog, setup. cbn [Dir LConfig InitialOffset MaxIndexBytes].
  unfold ReadDir. rewrite map_to_list_empty. cbn [fmap list_fmap setup_loop segments].
  change (merge_sort Z.le []) with (@nil Z). cbn [setup_loop segments].
  unfold Log_newSegment. cbn [Dir LConfig heap segments activeSegment].
  set (c2 := {| MaxStoreBytes := _; MaxIndexBytes := _; InitialOffset := _ |}).
  change (InitialOffset c2) with (InitialOffset c).
  destruct (Z_lt_le_dec 0 (to_int64 (MaxIndexBytes c2))) as [HM|HM].
  - destruct (newSegment_fresh ∅ (InitialOffset c) c2 (lookup_empty _) (lookup_empty _) HM)
      as (s & d' & -> & Hb & Hn & Hc & Hd).
    cbn [snd]. unfold log_ok. cbn [segments heap activeSegment Dir LConfig app length].
    split; [apply NoDup_singleton | ].
    split; [intros p Hp; apply list_elem_of_singleton in Hp; subst; lia | ].
    assert (Hsane : seg_sane s) by (unfold seg_sane; lia).
    split; [cbn; split; [exists s; auto | exact I] | ].
    exists s. split; [reflexivity | ]. split; [exact Hsane | ].
    split; [lia | ]. split; [right; reflexivity | ]. split; [exact HM | ].
    split; [exact Hc | ].
    intros name Hname. destruct (Hd name Hname) as [[v Hv] | Hf].
    + rewrite lookup_empty in Hv. discriminate.
    + exists (InitialOffset c). split; [exact Hf | lia].
  - destruct (newSegment_fails ∅ (InitialOffset c) c2) as (e & d' & ->); [lia | ].
    cbn [snd]. unfold log_ok. cbn [segments heap activeSegment].
    split; [apply NoDup_nil_2 | ]. split; [intros p Hp; inversion Hp | ].
    split; [exact I | reflexivity].
Qed.

Lemma log_ok_Truncate b l lowest :
  log_ok b l -> log_ok b (snd (Log_Truncate l lowest)).
Proof.
  intros (Hnd & Hlt & Hc & Hact). unfold Log_Truncate.
  destruct (Truncate_loop (Dir l) (heap l) (segments l) lowest [])
    as [[[res d'] h'] kept'] eqn:ET.
  destruct (Truncate_loop_chain _ _ _ _ _ _ _ _ Hc ET) as (Hso & Hlen & Hd & Hk).
  assert (Hactive : forall segs, segs = [] \/ last segs = last (segments l) ->
            (segments l = [] -> segs = []) ->
            match activeSegment l with
            | None => segs = []
            | Some a =>
                exists s, h' !! a = Some s /\ seg_sane s /\ nextOffset s <= b /\
                  (segs = [] \/ last segs = Some a) /\
                  0 < to_int64 (MaxIndexBytes (LConfig l)) /\
                  config s = LConfig l /\
                  (forall name, is_Some (d' !! name) ->
                     exists b0, segment_file name b0 /\ 0 <= b0 <= baseOffset s)
            end).
  { intros segs Hsegs Hnil. destruct (activeSegment l) as [a|]; [ | auto].
    destruct Hact as (s & Hs & Hsane & Hb & Hl & HM & Hcf & Hnames).
    destruct (Hso a s Hs) as (s' & Hs' & Hb' & Hn' & Hc').
    exists s'. split; [exact Hs' | ].
    split; [unfold seg_sane in *; rewrite Hb', Hn'; exact Hsane | ].
    split; [lia | ].
    split; [destruct Hl as [Hl|Hl]; [left; auto | destruct Hsegs; [left | right]; congruence] | ].
    split; [exact HM | ]. split; [congruence | ].
    intros name Hname. rewrite Hb'. apply Hnames. apply Hd. exact Hname. }
  destruct res as [e|]; cbn [snd]; unfold log_ok;
    cbn [segments heap activeSegment Dir LConfig].
  - split; [exact Hnd | ]. split; [rewrite Hlen; exact Hlt | ].
    split; [eapply chained_ext; [ | exact Hc]; intros p _; apply Hso | ].
    apply Hactive; auto.
  - destruct (Hk eq_refl) as (k & ->).
    split; [eapply sublist_NoDup; [exact Hnd | apply sublist_drop] | ].
    split; [intros p Hp; rewrite Hlen; apply Hlt;
            eapply elem_of_sublist; [exact Hp | apply sublist_drop] | ].
    split; [apply chained_drop; eapply chained_ext; [ | exact Hc]; intros p _; apply Hso | ].
    apply Hactive.
    + destruct (drop k (segments l)) eqn:E; [left; reflexivity | right].
      rewrite <- E. apply last_drop. rewrite E. discriminate.
    + intros ->. apply drop_nil.
Qed.

Section LogAppend.
Context {codec : Codec}.

Lemma segment_Read_offsets s off res s' :
  segment_Read s off = (res, s') ->
  baseOffset s' = baseOffset s /\ nextOffset s' = nextOffset s /\
  config s' = config s /\ s_index s' = s_index s.
Proof.
  unfold segment_Read. destruct (index_Read _ _) as [[o pos]|e].
  - destruct (store_Read _ _) as [[p|e] st]; intros [= <- <-]; auto.
  - intros [= <- <-]. auto.
Qed.

Lemma Log_Read_heap l off res l' :
  Log_Read l off = (res, l') ->
  Dir l' = Dir l /\ LConfig l' = LConfig l /\
  segments l' = segments l /\ activeSegment l' = activeSegment l /\
  (heap l' = heap l \/
   exists p s s' r, heap l !! p = Some s /\ segment_Read s off = (r, s') /\
     heap l' = <[p := s']> (heap l)).
Proof.
  unfold Log_Read. destruct (find_segment _ _ _) as [p|].
  - destruct (heap l !! p) as [s|] eqn:Hs.
    + destruct (nextOffset s <=? off).
      * intros [= <- <-]. auto 10.
      * destruct (segment_Read s off) as [r s1] eqn:ER. intros [= <- <-].
        unfold set_heap. cbn. do 4 (split; [reflexivity | ]). right. eauto 10.
    + intros [= <- <-]. auto 10.
  - intros [= <- <-]. auto 10.
Qed.

Lemma log_ok_Read b l off : log_ok b l -> log_ok b (snd (Log_Read l off)).
Proof.
  intros Hok. destruct (Log_Read l off) as [res l'] eqn:ER. cbn [snd].
  apply Log_Read_heap in ER as (Hd & Hcf & Hsegs & Hact & Hheap).
  destruct Hheap as [Hheap | (p & s & s' & r & Hs & HR & Hheap)].
  - destruct l, l'; cbn in *; subst; exact Hok.
  - apply segment_Read_offsets in HR as (Hb & Hn & Hc & _).
    assert (Hso : forall q, same_offsets (heap l) (heap l') q)
      by (intros q; rewrite Hheap; eapply same_offsets_insert; eauto).
    destruct Hok as (Hnd & Hlt & Hch & Hactive). unfold log_ok.
    rewrite Hsegs, Hact, Hd, Hcf.
    split; [exact Hnd | ].
    split; [intros q Hq; rewrite Hheap, length_insert; auto | ].
    split; [eapply chained_ext; [ | exact Hch]; intros q _; apply Hso | ].
    destruct (activeSegment l) as [a|]; [ | exact Hactive].
    destruct Hactive as (sa & Hsa & Hsane & Hbd & Hlast & HM & Hcfa & Hnames).
    destruct (Hso a sa Hsa) as (sa' & Hsa' & Hb' & Hn' & Hc').
    exists sa'. split; [exact Hsa' | ].
    split; [unfold seg_sane in *; rewrite Hb', Hn'; exact Hsane | ].
    split; [lia | ]. split; [exact Hlast | ]. split; [exact HM | ].
    split; [congruence | ]. rewrite Hb'. exact Hnames.
Qed.

Lemma log_ok_Append b l r :
  log_ok b l -> b + 1 < 2 ^ 64 -> log_ok (b + 1) (snd (Log_Append l r)).
Proof.
  intros Hok Hb1. pose proof Hok as (Hnd & Hlt & Hc & Hact).
  unfold Log_Append.
  destruct (activeSegment l) as [a|] eqn:Ea;
    [ | cbn [snd]; eapply log_ok_mono; [exact Hok | lia] ].
  destruct Hact as (s & Hs & Hsane & Hb & Hlast & HM & Hcf & Hnames).
  rewrite Hs.
  destruct (segment_Append s r) as [res s1] eqn:EA.
  destruct (segment_Append_offsets _ _ _ _ EA) as (Hbase & Hconf & Hcases).
  assert (Hins : (<[a := s1]> (heap l)) !! a = Some s1)
    by (apply list_lookup_insert_eq; eapply lookup_lt_Some; eauto).
  destruct Hcases as [(e & -> & Hnext) | (-> & Hnext)].
  - (* the append failed: the offsets are as before *)
    cbn [snd]. unfold log_ok, set_heap.
    cbn [segments heap activeSegment Dir LConfig]. rewrite Ea.
    split; [exact Hnd | ]. split; [rewrite length_insert; exact Hlt | ].
    split; [eapply chained_ext; [ | exact Hc]; intros p _;
            eapply same_offsets_insert; eauto | ].
    exists s1. split; [exact Hins | ].
    split; [unfold seg_sane in *; rewrite Hbase, Hnext; exact Hsane | ].
    split; [lia | ]. split; [exact Hlast | ]. split; [exact HM | ].
    split; [congruence | ]. rewrite Hbase. exact Hnames.
  - (* the append succeeded *)
    assert (Hn1 : nextOffset s1 = nextOffset s + 1).
    { rewrite Hnext. apply wrap64_small. unfold seg_sane in Hsane. lia. }
    assert (Hsane1 : seg_sane s1) by (unfold seg_sane in *; lia).
    assert (Hc1 : chained (<[a := s1]> (heap l)) (segments l))
      by (eapply chained_update_last; eauto).
    destruct (IsMaxed s1).
    + (* a new segment is made at [off + 1] *)
      rewrite (wrap64_small (nextOffset s + 1)) by (unfold seg_sane in Hsane; lia).
      unfold Log_newSegment, set_heap. cbn [Dir LConfig heap segments activeSegment].
      assert (Hfresh : forall ext, ext = ".store"%string \/ ext = ".index"%string ->
                Dir l !! file_name (nextOffset s + 1) ext = None).
      { intros ext Hext.
        destruct (Dir l !! file_name (nextOffset s + 1) ext) as [v|] eqn:E; [ | reflexivity].
        destruct (Hnames _ (ex_intro _ v E)) as (b0 & Hf & Hb0).
        assert (Hf' : segment_file (file_name (nextOffset s + 1) ext) (nextOffset s + 1))
          by (destruct Hext as [-> | ->]; [left | right]; reflexivity).
        unfold seg_sane in Hsane.
        assert (b0 = nextOffset s + 1)
          by (eapply segment_file_inj; [ | | exact Hf | exact Hf']; lia).
        lia. }
      destruct (newSegment_fresh (Dir l) (nextOffset s + 1) (LConfig l)
                  (Hfresh _ (or_introl eq_refl)) (Hfresh _ (or_intror eq_refl)) HM)
        as (sn & d' & -> & Hbn & Hnn & Hcn & Hdn).
      cbn [snd]. unfold log_ok. cbn [segments heap activeSegment Dir LConfig].
      rewrite length_insert.
      split.
      { apply NoDup_app. split; [exact Hnd | ]. split; [ | apply NoDup_singleton].
        intros p Hp Hp'. apply list_elem_of_singleton in Hp'. apply Hlt in Hp. lia. }
      split.
      { intros p Hp. rewrite length_app, length_insert. cbn.
        apply elem_of_app in Hp as [Hp|Hp]; [apply Hlt in Hp; lia | ].
        apply list_elem_of_singleton in Hp. lia. }
      assert (Hsane_n : seg_sane sn) by (unfold seg_sane in *; lia).
      split.
      { rewrite <- (length_insert (heap l) a s1). apply chained_snoc.
        - exact Hc1.
        - intros p Hp. rewrite length_insert. auto.
        - exact Hsane_n.
        - destruct Hlast as [Hnil | Hl]; [left; exact Hnil | right].
          exists a, s1. split; [exact Hl | ]. split; [exact Hins | lia]. }
      exists sn. split.
      { rewrite lookup_app_r by (rewrite length_insert; lia).
        rewrite length_insert, Nat.sub_diag. reflexivity. }
      split; [exact Hsane_n | ]. split; [lia | ].
      split; [right; apply last_snoc | ]. split; [exact HM | ].
      split; [exact Hcn | ].
      intros name Hname. destruct (Hdn name Hname) as [Hold | Hnew].
      * destruct (Hnames name Hold) as (b0 & Hf & Hb0). exists b0.
        split; [exact Hf | ]. unfold seg_sane in Hsane. lia.
      * exists (nextOffset s + 1). split; [exact Hnew | ].
        unfold seg_sane in Hsane. lia.
    + cbn [snd]. unfold log_ok, set_heap.
      cbn [segments heap activeSegment Dir LConfig]. rewrite Ea.
      split; [exact Hnd | ]. split; [rewrite length_insert; exact Hlt | ].
      split; [exact Hc1 | ].
      exists s1. split; [exact Hins | ]. split; [exact Hsane1 | ].
      split; [lia | ]. split; [exact Hlast | ]. split; [exact HM | ].
      split; [congruence | ]. rewrite Hbase. exact Hnames.
Qed.


End LogAppend.

(** ** Append, then read *)


Lemma chained_before h pre p0 post s0 :
  chained h (pre ++ p0 :: post) -> h !! p0 = Some s0 ->
  forall p, p ∈ pre ->
    exists sp, h !! p = Some sp /\ nextOffset sp <= baseOffset s0.
Proof.
  induction pre as [|q pre IH]; intros Hc Ha p Hp; [inversion Hp | ].
  apply elem_of_cons in Hp as [->|Hp].
  - pose proof Hc as [(sq & Hsq & _) _]. exists sq. split; [exact Hsq | ].
    destruct (chained_le h q (pre ++ p0 :: post) sq Hc Hsq p0) as (sa & Hsa & Hle & _).
    + apply elem_of_app. right. apply list_elem_of_here.
    + assert (sa = s0) by congruence. subst. exact Hle.
  - apply IH; [apply Hc | exact Ha | exact Hp].
Qed.

Section LogInvariant.
Context {codec : Codec}.

(** A log made in an empty directory satisfies the invariant. *)
Lemma NewLog_empty_inv c :
  0 <= InitialOffset c < 2 ^ 64 ->
  0 <= MaxIndexBytes c <= 2 ^ 32 * entWidth ->
  fst (NewLog ∅ c) = None /\ log_inv (snd (NewLog ∅ c)).
Proof.
  intros HI HM. unfold NewLog, setup. cbn [Dir LConfig InitialOffset MaxIndexBytes].
  unfold ReadDir. rewrite map_to_list_empty. cbn [fmap list_fmap setup_loop segments].
  change (merge_sort Z.le []) with (@nil Z). cbn [setup_loop segments].
  unfold Log_newSegment. cbn [Dir LConfig heap segments activeSegment].
  set (c2 := {| MaxStoreBytes := _; MaxIndexBytes := _; InitialOffset := _ |}).
  change (InitialOffset c2) with (InitialOffset c).
  assert (HM2 : 0 < MaxIndexBytes c2 <= 2 ^ 32 * entWidth).
  { subst c2. cbn [MaxIndexBytes]. change entWidth with 12 in *.
    destruct (Z.eqb_spec (MaxIndexBytes c) 0); lia. }
  destruct (newSegment_holds ∅ (InitialOffset c) c2 []
              (seg_files_fresh ∅ _ (lookup_empty _) (lookup_empty _)))
    as (s & d' & -> & Hh & Hb & Hn & _);
    [lia | cbn [length Z.of_nat]; lia | exact HM2 | cbn [length Z.of_nat]; lia | ].
  cbn [fst snd]. split; [reflexivity | ].
  unfold log_inv. cbn [segments heap activeSegment app length].
  split; [apply NoDup_singleton | ].
  split.
  - cbn. split; [ | exact I]. exists s. split; [reflexivity | ].
    split; [unfold seg_sane; cbn in Hn; lia | exact I].
  - exists 0%nat, s, []. auto.
Qed.

(** [Log.Append] keeps the invariant. *)
Lemma log_inv_Append b l r :
  log_ok b l -> log_inv l -> b + 1 < 2 ^ 64 ->
  0 < MaxIndexBytes (LConfig l) <= 2 ^ 32 * entWidth ->
  stores_below (snd (Log_Append l r)) ->
  log_inv (snd (Log_Append l r)).
Proof.
  intros Hok Hinv Hb1 HM Hsb.
  destruct (log_ok_Append b l r Hok Hb1) as (Hnd' & _ & Hc' & _).
  split; [exact Hnd' | ]. split; [exact Hc' | ]. clear Hnd' Hc'.
  destruct Hinv as (Hnd & Hc & a & s & rs & Ea & Hlast & Hs & Hh).
  destruct Hok as (_ & Hlt & _ & Hact). rewrite Ea in Hact.
  destruct Hact as (s0 & Hs0 & Hsane & Hb & _ & _ & _ & Hnames).
  assert (s0 = s) by congruence. subst s0.
  assert (Halt : (a < length (heap l))%nat) by (eapply lookup_lt_Some; eauto).
  revert Hsb. unfold Log_Append. rewrite Ea, Hs.
  destruct (segment_Append s r) as [res s1] eqn:EA.
  assert (Hins : (<[a := s1]> (heap l)) !! a = Some s1)
    by (apply list_lookup_insert_eq; exact Halt).
  assert (Hstep : stores_below (set_heap l (<[a := s1]> (heap l))) ->
            baseOffset s1 = baseOffset s /\
            ((res = Ok (nextOffset s) /\
              seg_holds s1 (rs ++ [with_offset r (nextOffset s)])) \/
             (exists e, res = Err e /\ seg_holds s1 rs))).
  { intros Hsb. destruct (segment_Append_step s rs r _ _ Hh EA) as (Hb' & _ & _ & _ & _ & Hcases).
    - apply (Hsb a). exact Hins.
    - unfold seg_sane in Hsane. lia.
    - auto. }
  destruct res as [off|e].
  - destruct (IsMaxed s1).
    + pose proof (segment_Append_offsets _ _ _ _ EA) as (_ & _ & [(e & He & _) | (He & _)]);
        [discriminate | ]. injection He as ->.
      rewrite (wrap64_small (nextOffset s + 1)) by (unfold seg_sane in Hsane; lia).
      unfold Log_newSegment, set_heap. cbn [Dir LConfig heap segments activeSegment].
      assert (Hfresh : forall ext, ext = ".store"%string \/ ext = ".index"%string ->
                Dir l !! file_name (nextOffset s + 1) ext = None).
      { intros ext Hext.
        destruct (Dir l !! file_name (nextOffset s + 1) ext) as [v|] eqn:E; [ | reflexivity].
        destruct (Hnames _ (ex_intro _ v E)) as (b0 & Hf & Hb0).
        assert (Hf' : segment_file (file_name (nextOffset s + 1) ext) (nextOffset s + 1))
          by (destruct Hext as [-> | ->]; [left | right]; reflexivity).
        unfold seg_sane in Hsane.
        assert (b0 = nextOffset s + 1)
          by (eapply segment_file_inj; [ | | exact Hf | exact Hf']; lia).
        lia. }
      destruct (newSegment_holds (Dir l) (nextOffset s + 1) (LConfig l) []
                  (seg_files_fresh _ _ (Hfresh _ (or_introl eq_refl))
                     (Hfresh _ (or_intror eq_refl))))
        as (sn & d' & -> & Hhn & _);
        [unfold seg_sane in Hsane; lia | cbn [length Z.of_nat]; lia | exact HM
        | cbn [length Z.of_nat]; lia | ].
      cbn [snd]. intros _. cbn [segments heap activeSegment].
      exists (length (<[a := s1]> (heap l))), sn, [].
      split; [reflexivity | ]. split; [apply last_snoc | ].
      split; [ | exact Hhn].
      rewrite lookup_app_r by lia. rewrite Nat.sub_diag. reflexivity.
    + cbn [snd]. intros Hsb. destruct (Hstep Hsb) as (_ & [[_ Hh1] | (e & He & _)]);
        [ | discriminate].
      unfold set_heap. cbn [segments heap activeSegment]. eauto 10.
  - cbn [snd]. intros Hsb. destruct (Hstep Hsb) as (_ & [[He _] | (e' & _ & Hh1)]);
      [discriminate | ].
    unfold set_heap. cbn [segments heap activeSegment]. eauto 10.
Qed.

End LogInvariant.

(** ** What [Truncate] removes *)

(** The loop of [Truncate] keeps exactly the segments whose [nextOffset]
    is above [lowest + 1], in their order, and leaves them untouched. *)
Lemma Truncate_loop_kept lowest : forall ptrs d h kept d' h' kept',
  Truncate_loop d h ptrs lowest kept = (None, d', h', kept') ->
  (forall q, same_offsets h h' q) /\
  (forall q sq, h !! q = Some sq -> wrap64 (lowest + 1) < nextOffset sq ->
     h' !! q = Some sq) /\
  exists kept_now,
    kept' = kept ++ kept_now /\ kept_now `sublist_of` ptrs /\
    (forall q, q ∈ kept_now <->
       q ∈ ptrs /\ exists s, h !! q = Some s /\ wrap64 (lowest + 1) < nextOffset s).
Proof.
  induction ptrs as [|p rest IH]; intros d h kept d' h' kept' HT.
  - cbn in HT. injection HT as <- <- <-.
    split; [intros q; apply same_offsets_refl | ]. split; [auto | ].
    exists []. rewrite app_nil_r. split; [reflexivity | ]. split; [reflexivity | ].
    intros q. split; [intros Hq; inversion Hq | intros [Hq _]; inversion Hq].
  - cbn [Truncate_loop] in HT.
    destruct (h !! p) as [s|] eqn:Hs; [ | discriminate].
    destruct (Z.leb_spec (nextOffset s) (wrap64 (lowest + 1))) as [Hle|Hgt].
    + destruct (segment_Remove s d) as [[e s1] d1] eqn:ER.
      apply segment_Remove_offsets in ER as (Hb & Hn & Hcf & _).
      destruct e as [e|]; [discriminate | ].
      apply IH in HT as (Hso & Hsame & kn & -> & Hsub & Hkn).
      split; [intros q; eapply same_offsets_trans; [ | apply Hso];
              eapply same_offsets_insert; eauto | ].
      split.
      { intros q sq Hq Hgt. apply Hsame; [ | exact Hgt].
        rewrite list_lookup_insert_ne; [exact Hq | ]. intros ->.
        assert (sq = s) by congruence. subst. lia. }
      exists kn. split; [reflexivity | ]. split; [now apply sublist_cons | ].
      intros q. rewrite Hkn. split.
      * intros (Hq & sq & Hsq & Hgt). split; [now apply list_elem_of_further | ].
        destruct (decide (p = q)) as [<-|Hne].
        -- rewrite list_lookup_insert_eq in Hsq by (eapply lookup_lt_Some; eauto).
           injection Hsq as <-. lia.
        -- rewrite list_lookup_insert_ne in Hsq by exact Hne. eauto.
      * intros (Hq & sq & Hsq & Hgt).
        apply elem_of_cons in Hq as [-> | Hq].
        -- assert (sq = s) by congruence. subst. lia.
        -- split; [exact Hq | ]. exists sq. split; [ | exact Hgt].
           rewrite list_lookup_insert_ne; [exact Hsq | ]. intros ->.
           assert (sq = s) by congruence. subst. lia.
    + apply IH in HT as (Hso & Hsame & kn & -> & Hsub & Hkn).
      split; [exact Hso | ]. split; [exact Hsame | ].
      exists (p :: kn). split; [now rewrite <- app_assoc | ].
      split; [now apply sublist_skip | ].
      intros q. rewrite !elem_of_cons, Hkn. split.
      * intros [-> | (Hq & Hex)]; [split; [left; reflexivity | eauto] | tauto].
      * intros ([-> | Hq] & Hex); [left; reflexivity | right; tauto].
Qed.




(** ** The theorems on examples *)



(** ** Stores only grow, and removed segments do not come back *)

Lemma heap_grows_refl h : heap_grows h h.
Proof. intros p s Hs. eauto. Qed.

Lemma heap_grows_trans h1 h2 h3 :
  heap_grows h1 h2 -> heap_grows h2 h3 -> heap_grows h1 h3.
Proof.
  intros H12 H23 p s Hs. destruct (H12 p s Hs) as (s2 & Hs2 & Hle).
  destruct (H23 p s2 Hs2) as (s3 & Hs3 & Hle3). exists s3. split; [exact Hs3 | lia].
Qed.

Lemma heap_grows_insert h p s s1 :
  h !! p = Some s ->
  (length (store_content (s_store s)) <= length (store_content (s_store s1)))%nat ->
  heap_grows h (<[p := s1]> h).
Proof.
  intros Hp Hle q sq Hq. destruct (decide (p = q)) as [<-|Hne].
  - exists s1. rewrite list_lookup_insert_eq by (eapply lookup_lt_Some; eauto).
    assert (sq = s) by congruence. subst. auto.
  - exists sq. rewrite list_lookup_insert_ne by exact Hne. auto.
Qed.

Lemma heap_grows_app h more : heap_grows h (h ++ more).
Proof.
  intros p s Hs. exists s. rewrite lookup_app_l by (eapply lookup_lt_Some; eauto).
  auto.
Qed.

Lemma stores_below_grows l l' :
  heap_grows (heap l) (heap l') -> stores_below l' -> stores_below l.
Proof.
  intros Hg Hsb p s Hs. destruct (Hg p s Hs) as (s' & Hs' & Hle).
  specialize (Hsb p s' Hs'). lia.
Qed.

Lemma buf_Flush_content s e s' :
  buf_Flush s = (e, s') -> store_content s' = store_content s.
Proof.
  unfold buf_Flush, store_content. destruct (buf_err s).
  - intros [= <- <-]. reflexivity.
  - destruct (buf s) as [|x bs] eqn:Eb.
    + intros [= <- <-]. now rewrite Eb.
    + destruct (store_closed s); intros [= <- <-]; cbn; [reflexivity | ].
      now rewrite app_nil_r.
Qed.

Lemma store_Read_content s pos r s' :
  store_Read s pos = (r, s') -> store_content s' = store_content s.
Proof.
  unfold store_Read. destruct (buf_Flush s) as [[e|] s1] eqn:EF;
    apply buf_Flush_content in EF.
  - intros [= <- <-]. exact EF.
  - destruct (File_ReadAt s1 _ _); [ | intros [= <- <-]; exact EF].
    destruct (_ <=? _); [intros [= <- <-]; exact EF | ].
    destruct (File_ReadAt s1 _ _); intros [= <- <-]; exact EF.
Qed.

Lemma store_Close_content s d e s' d' :
  store_Close s d = (e, s', d') -> store_content s' = store_content s.
Proof.
  unfold store_Close. destruct (buf_Flush s) as [[e1|] s1] eqn:EF;
    apply buf_Flush_content in EF.
  - intros [= <- <- <-]. exact EF.
  - destruct (store_closed s1); intros [= <- <- <-]; exact EF.
Qed.

Lemma segment_Remove_content s d e s' d' :
  segment_Remove s d = (e, s', d') ->
  store_content (s_store s') = store_content (s_store s).
Proof.
  assert (HC : forall e1 s1 d1, segment_Close s d = (e1, s1, d1) ->
            store_content (s_store s1) = store_content (s_store s)).
  { unfold segment_Close. intros e1 s1 d1.
    destruct (index_Close _ _) as [[[e2|] ix] d2].
    - intros [= <- <- <-]. reflexivity.
    - destruct (store_Close _ _) as [[e3 st] d3] eqn:ES.
      apply store_Close_content in ES. intros [= <- <- <-]. exact ES. }
  unfold segment_Remove. destruct (segment_Close s d) as [[e1 s1] d1] eqn:EC.
  specialize (HC _ _ _ eq_refl). destruct e1; [intros [= <- <- <-]; exact HC | ].
  destruct (os_Remove d1 _); [ | intros [= <- <- <-]; exact HC].
  destruct (os_Remove _ _); intros [= <- <- <-]; exact HC.
Qed.

(** The loop of [Truncate], whatever the list: the heap keeps its length,
    its segments their offsets and the stores their contents. *)
Lemma Truncate_loop_heap lowest : forall ptrs d h kept res d' h' kept',
  Truncate_loop d h ptrs lowest kept = (res, d', h', kept') ->
  length h' = length h /\ heap_grows h h'.
Proof.
  induction ptrs as [|p rest IH]; intros d h kept res d' h' kept' HT.
  - cbn in HT. injection HT as <- <- <- <-. split; [reflexivity | apply heap_grows_refl].
  - cbn [Truncate_loop] in HT. destruct (h !! p) as [s|] eqn:Hs.
    2: { injection HT as <- <- <- <-. split; [reflexivity | apply heap_grows_refl]. }
    destruct (_ <=? _).
    + destruct (segment_Remove s d) as [[e s1] d1] eqn:ER.
      apply segment_Remove_content in ER.
      assert (Hg : heap_grows h (<[p := s1]> h))
        by (eapply heap_grows_insert; [exact Hs | rewrite ER; lia]).
      destruct e as [e|].
      * injection HT as <- <- <- <-. split; [apply length_insert | exact Hg].
      * apply IH in HT as [Hlen Hg']. rewrite length_insert in Hlen.
        split; [exact Hlen | eapply heap_grows_trans; eauto].
    + apply IH in HT. exact HT.
Qed.

Section RunProperties.
Context {codec : Codec}.

Lemma segment_Read_content s off r s' :
  segment_Read s off = (r, s') ->
  store_content (s_store s') = store_content (s_store s).
Proof.
  unfold segment_Read. destruct (index_Read _ _) as [[o pos]|e].
  - destruct (store_Read _ _) as [[p|e] st] eqn:ES;
      apply store_Read_content in ES; intros [= <- <-]; exact ES.
  - intros [= <- <-]. reflexivity.
Qed.

(** What an operation does to the heap and to the segment list. *)
Lemma run_op_heap l o :
  (length (heap l) <= length (heap (run_op l o)))%nat /\
  heap_grows (heap l) (heap (run_op l o)) /\
  (forall p, p ∈ segments (run_op l o) ->
     p ∈ segments l \/ (length (heap l) <= p)%nat).
Proof.
  destruct o as [r | off | lowest]; cbn [run_op].
  - unfold Log_Append. destruct (activeSegment l) as [a|];
      [ | cbn; split; [lia | split; [apply heap_grows_refl | auto] ] ].
    destruct (heap l !! a) as [s|] eqn:Hs;
      [ | cbn; split; [lia | split; [apply heap_grows_refl | auto] ] ].
    destruct (segment_Append s r) as [res s1] eqn:EA.
    apply segment_Append_content_length in EA.
    pose proof (heap_grows_insert _ _ _ _ Hs EA) as Hg.
    destruct res as [off|e]; [ | cbn; rewrite length_insert; auto].
    destruct (IsMaxed s1); [ | cbn; rewrite length_insert; auto].
    unfold Log_newSegment, set_heap. cbn [Dir LConfig heap segments activeSegment].
    destruct (newSegment _ _ _) as [[sn|e] d']; cbn; rewrite ?length_insert.
    + rewrite length_app, length_insert. split; [lia | ].
      split; [eapply heap_grows_trans; [exact Hg | apply heap_grows_app] | ].
      intros p Hp. apply elem_of_app in Hp as [Hp | Hp]; [auto | ].
      apply list_elem_of_singleton in Hp. right. lia.
    + auto.
  - destruct (Log_Read l off) as [res l'] eqn:ER. cbn [snd].
    apply Log_Read_heap in ER as (_ & _ & Hsegs & _ & Hheap). rewrite Hsegs.
    destruct Hheap as [-> | (p & s & s' & r & Hs & HR & ->)].
    + split; [lia | split; [apply heap_grows_refl | auto] ].
    + rewrite length_insert. split; [lia | ]. split; [ | auto].
      eapply heap_grows_insert; [exact Hs | ].
      apply segment_Read_content in HR. rewrite HR. lia.
  - unfold Log_Truncate.
    destruct (Truncate_loop _ _ _ _ _) as [[[res d'] h'] kept'] eqn:ET.
    pose proof (Truncate_loop_heap _ _ _ _ _ _ _ _ _ ET) as [Hlen Hg].
    destruct res as [e|]; cbn [snd heap segments].
    + split; [lia | auto].
    + split; [lia | ]. split; [exact Hg | ]. intros p Hp. left.
      apply Truncate_loop_kept in ET as (_ & _ & kn & -> & Hsub & _).
      cbn [app] in Hp. eapply elem_of_sublist; eauto.
Qed.

Lemma run_heap ops : forall l,
  (length (heap l) <= length (heap (run ops l)))%nat /\
  heap_grows (heap l) (heap (run ops l)) /\
  (forall p, p ∈ segments (run ops l) ->
     p ∈ segments l \/ (length (heap l) <= p)%nat).
Proof.
  induction ops as [|o ops IH]; intros l.
  - cbn [run fold_left]. split; [lia | split; [apply heap_grows_refl | auto] ].
  - change (run (o :: ops) l) with (run ops (run_op l o)).
    destruct (run_op_heap l o) as (Hlen & Hg & Hsegs).
    destruct (IH (run_op l o)) as (Hlen' & Hg' & Hsegs').
    split; [lia | ]. split; [eapply heap_grows_trans; eauto | ].
    intros p Hp. destruct (Hsegs' p Hp) as [Hin | Hge]; [ | right; lia].
    destruct (Hsegs p Hin); [auto | right; lia].
Qed.

End RunProperties.

(** ** Append, then read, with other operations in between *)

Lemma store_Read_wf s pos r s' :
  store_wf s -> store_Read s pos = (r, s') ->
  store_wf s' /\ store_content s' = store_content s.
Proof.
  intros Hwf HR. pose proof (store_Read_content _ _ _ _ HR) as Hco.
  split; [ | exact Hco].
  destruct (buf_Flush_wf s Hwf) as (s1 & HF & Hfile & Hbuf & Hn & Hsz & Hcl & He).
  assert (s' = s1).
  { revert HR. unfold store_Read. rewrite HF.
    destruct (File_ReadAt s1 _ _); [ | intros [= _ <-]; reflexivity].
    destruct (_ <=? _); [intros [= _ <-]; reflexivity | ].
    destruct (File_ReadAt s1 _ _); intros [= _ <-]; reflexivity. }
  subst s'. destruct Hwf as (_ & _ & Hsize & Hlt).
  unfold store_wf. rewrite Hcl, He, Hsz, Hco. auto.
Qed.

Section Subsequent.
Context {codec : Codec}.

(** A read of any offset leaves a segment holding what it holds. *)
Lemma segment_Read_any s rs off res s' :
  seg_holds s rs -> segment_Read s off = (res, s') -> seg_holds s' rs.
Proof.
  intros Hh HR. pose proof (segment_Read_offsets _ _ _ _ HR) as (Hb & Hn & _ & Hix).
  assert (Hst : store_wf (s_store s') /\
                store_content (s_store s') = store_content (s_store s)).
  { revert HR. unfold segment_Read. destruct (index_Read _ _) as [[o pos]|e].
    - destruct (store_Read _ _) as [[p|e] st] eqn:ES;
        apply store_Read_wf in ES; try apply Hh; intros [= _ <-]; exact ES.
    - intros [= _ <-]. split; [apply Hh | reflexivity]. }
  destruct Hst as [Hwf Hco].
  destruct Hh as (_ & H2 & H3 & H4 & H5 & H6 & H7 & H8 & H9).
  unfold seg_holds. rewrite Hb, Hn, Hix, Hco. auto 10.
Qed.

(** What [Log.Append] does to the heap and to the list. *)
Lemma Log_Append_effect l r a s :
  activeSegment l = Some a -> heap l !! a = Some s ->
  exists res s1 more,
    segment_Append s r = (res, s1) /\
    heap (snd (Log_Append l r)) = <[a := s1]> (heap l) ++ more /\
    (forall p, p ∈ segments l -> p ∈ segments (snd (Log_Append l r))) /\
    LConfig (snd (Log_Append l r)) = LConfig l /\
    (forall O, fst (fst (Log_Append l r)) = O ->
       snd (fst (Log_Append l r)) = None -> res = Ok O).
Proof.
  intros Ea Hs. unfold Log_Append. rewrite Ea, Hs.
  destruct (segment_Append s r) as [res s1] eqn:EA. exists res, s1.
  destruct res as [off|e].
  - destruct (IsMaxed s1).
    + unfold Log_newSegment, set_heap. cbn [Dir LConfig heap segments activeSegment].
      destruct (newSegment _ _ _) as [[sn|e] d'].
      * exists [sn]. cbn. split; [reflexivity | ]. split; [reflexivity | ].
        split; [intros p Hp; apply elem_of_app; auto | ].
        split; [reflexivity | congruence].
      * exists []. cbn. rewrite app_nil_r. split; [reflexivity | ].
        split; [reflexivity | ]. split; [auto | ]. split; [reflexivity | congruence].
    + exists []. cbn. rewrite app_nil_r. split; [reflexivity | ].
      split; [reflexivity | ]. split; [auto | ]. split; [reflexivity | congruence].
  - exists []. cbn. rewrite app_nil_r. split; [reflexivity | ].
    split; [reflexivity | ]. split; [auto | ]. split; [reflexivity | ].
    intros O _ H. discriminate.
Qed.


Lemma log_inv_Read l off : log_inv l -> log_inv (snd (Log_Read l off)).
Proof.
  intros (Hnd & Hc & a & s & rs & Ea & Hlast & Hs & Hh).
  destruct (Log_Read l off) as [res l'] eqn:ER. cbn [snd].
  apply Log_Read_heap in ER as (_ & _ & Hsegs & Hact & Hheap).
  unfold log_inv. rewrite Hsegs, Hact.
  destruct Hheap as [-> | (p & sp & sp' & r & Hsp & HR & ->)]; [eauto 10 | ].
  pose proof (segment_Read_offsets _ _ _ _ HR) as (Hb & Hn & Hcf & _).
  split; [exact Hnd | ].
  split; [eapply chained_ext; [ | exact Hc]; intros q _;
          eapply same_offsets_insert; eauto | ].
  destruct (decide (p = a)) as [->|Hne].
  - assert (sp = s) by congruence. subst sp.
    exists a, sp', rs. split; [exact Ea | ]. split; [exact Hlast | ].
    split; [apply list_lookup_insert_eq; eapply lookup_lt_Some; eauto | ].
    eapply segment_Read_any; eauto.
  - exists a, s, rs. split; [exact Ea | ]. split; [exact Hlast | ].
    split; [rewrite list_lookup_insert_ne by exact Hne; exact Hs | exact Hh].
Qed.


(** A [Truncate] that succeeds and keeps the segment at [p0]. *)
Lemma log_inv_Truncate b l lowest p0 :
  log_ok b l -> log_inv l ->
  fst (Log_Truncate l lowest) = None ->
  p0 ∈ segments (snd (Log_Truncate l lowest)) ->
  log_inv (snd (Log_Truncate l lowest)) /\
  (forall O rec, holds_at l p0 O rec ->
     holds_at (snd (Log_Truncate l lowest)) p0 O rec).
Proof.
  intros Hok (Hnd & Hc & a & s & rs & Ea & Hlast & Hs & Hh) Hres Hp0.
  destruct (log_ok_Truncate b l lowest Hok) as (Hnd' & _ & Hc' & _).
  revert Hres Hp0 Hnd' Hc'. unfold Log_Truncate.
  destruct (Truncate_loop _ _ _ _ _) as [[[res d'] h'] kept'] eqn:ET.
  destruct res as [e|]; cbn [fst snd segments heap]; [discriminate | ].
  intros _ Hp0 Hnd' Hc'.
  destruct (Truncate_loop_chain _ _ _ _ _ _ _ _ Hc ET) as (_ & _ & _ & Hk).
  destruct (Hk eq_refl) as (k & Hkept).
  apply Truncate_loop_kept in ET as (_ & Hsame & kn & Hkn & _ & Hmem).
  cbn [app] in Hkn. subst kn.
  assert (Hkeep : forall q, q ∈ kept' -> h' !! q = heap l !! q).
  { intros q Hq. apply Hmem in Hq as (_ & sq & Hsq & Hgt).
    rewrite Hsq. apply Hsame; assumption. }
  assert (Hlast' : last kept' = Some a).
  { rewrite Hkept, last_drop; [exact Hlast | ].
    rewrite <- Hkept. intros Hnil. rewrite Hnil in Hp0. inversion Hp0. }
  assert (Ha : a ∈ kept').
  { apply last_Some in Hlast' as (l' & ->). apply elem_of_app. right.
    apply list_elem_of_here. }
  split.
  - unfold log_inv. cbn [segments heap activeSegment].
    split; [exact Hnd' | ]. split; [exact Hc' | ].
    exists a, s, rs. rewrite (Hkeep a Ha). auto.
  - intros O rec (_ & s0 & rs0 & k0 & Hs0 & Hrest).
    split; [exact Hp0 | ]. exists s0, rs0, k0. cbn [heap].
    rewrite (Hkeep p0 Hp0). auto.
Qed.

Lemma LConfig_run_op l o : LConfig (run_op l o) = LConfig l.
Proof.
  destruct o as [r | off | lowest]; cbn [run_op].
  - unfold Log_Append. destruct (activeSegment l); [ | reflexivity].
    destruct (heap l !! n); [ | reflexivity].
    destruct (segment_Append _ _) as [[off|e] s1]; [ | reflexivity].
    destruct (IsMaxed s1); [ | reflexivity].
    unfold Log_newSegment, set_heap. cbn [Dir LConfig].
    destruct (newSegment _ _ _) as [[sn|e] d']; reflexivity.
  - destruct (Log_Read l off) as [res l'] eqn:ER. cbn [snd].
    apply Log_Read_heap in ER. apply ER.
  - unfold Log_Truncate. destruct (Truncate_loop _ _ _ _ _) as [[[[e|] d'] h'] kept'];
      reflexivity.
Qed.



Lemma log_ok_tight b l a s :
  log_ok b l -> activeSegment l = Some a -> heap l !! a = Some s ->
  log_ok (nextOffset s) l.
Proof.
  intros (Hnd & Hlt & Hc & Hact) Ea Hs. unfold log_ok.
  do 3 (split; [assumption | ]). rewrite Ea in *.
  destruct Hact as (s0 & Hs0 & Hsane & _ & Hrest).
  assert (s0 = s) by congruence. subst s0.
  exists s. split; [exact Hs | ]. split; [exact Hsane | ]. split; [lia | exact Hrest].
Qed.


End Subsequent.


(** * The store beyond [Append] *)

Lemma store_Appends_content_length ps : forall s s',
  store_Appends s ps = Some s' ->
  (length (store_content s) <= length (store_content s'))%nat.
Proof.
  induction ps as [|p ps IH]; intros s s'; cbn.
  - intros [= <-]. lia.
  - destruct (store_Append s p) as [[x|e] s1] eqn:E1; [ | discriminate].
    intros H. apply IH in H. apply store_Append_content_length in E1. lia.
Qed.

Lemma store_Appends_wf ps : forall s s',
  store_wf s ->
  store_Appends s ps = Some s' ->
  Z.of_nat (length (store_content s')) < 2 ^ 63 ->
  store_wf s' /\ store_name s' = store_name s /\
  exists more, store_content s' = store_content s ++ more.
Proof.
  induction ps as [|p ps IH]; intros s s' Hwf HA Hb; cbn in HA.
  - injection HA as <-. split; [exact Hwf | ]. split; [reflexivity | ].
    exists (@nil Byte.byte). now rewrite app_nil_r.
  - destruct (store_Append s p) as [[[n pos]|e] s1] eqn:E1; [ | discriminate].
    pose proof (store_Appends_content_length ps s1 s' HA) as Hle.
    assert (Hb1 : store_size s + lenWidth + Z.of_nat (length p) < 2 ^ 63).
    { destruct Hwf as (_ & He & Hsz & _).
      destruct (store_Append_ok s p He) as (s1' & HA1 & _ & _ & _ & Hco & _).
      rewrite E1 in HA1. injection HA1 as _ _ <-.
      rewrite Hco, !length_app, PutUint64_length in Hle. unfold lenWidth. lia. }
    destruct (store_Append_wf s p Hwf Hb1) as (s1' & HA1 & Hn & Hwf1 & Hco & _).
    rewrite E1 in HA1. injection HA1 as _ _ <-.
    destruct (IH s1 s' Hwf1 HA Hb) as (Hwf' & Hn' & more & Hmore).
    split; [exact Hwf' | ]. split; [congruence | ].
    exists ((PutUint64 (Z.of_nat (length p)) ++ p) ++ more).
    rewrite Hmore, Hco. now rewrite <- !app_assoc.
Qed.

(** X1.  What [store.Append] has written, [store.Read] returns: the
    payload appended at position [pos] is read back from [pos], also after
    any number of further appends and while it is still in the write
    buffer. *)
Theorem store_Append_then_Read (s : store) (p : bytes) (n pos : Z)
    (s1 : store) (ps : list bytes) (s2 : store) :
  store_wf s ->
  store_Append s p = (Ok (n, pos), s1) ->
  store_Appends s1 ps = Some s2 ->
  Z.of_nat (length (store_content s2)) < 2 ^ 63 ->
  exists s3, store_Read s2 pos = (Ok p, s3) /\
    store_content s3 = store_content s2.
Proof.
  intros Hwf HA HAs Hb.
  pose proof (store_Appends_content_length ps s1 s2 HAs) as Hle.
  assert (Hb1 : store_size s + lenWidth + Z.of_nat (length p) < 2 ^ 63).
  { destruct Hwf as (_ & He & Hsz & _).
    destruct (store_Append_ok s p He) as (s1' & HA1 & _ & _ & _ & Hco & _).
    rewrite HA in HA1. injection HA1 as _ _ <-.
    rewrite Hco, !length_app, PutUint64_length in Hle. unfold lenWidth. lia. }
  destruct (store_Append_wf s p Hwf Hb1) as (s1' & HA1 & _ & Hwf1 & _ & _ & Hfr).
  rewrite HA in HA1. injection HA1 as -> -> <-.
  destruct (store_Appends_wf ps s1 s2 Hwf1 HAs Hb) as (Hwf2 & _ & more & Hmore).
  assert (Hfr2 : frame_at (store_content s2) (store_size s) p).
  { rewrite Hmore. apply frame_at_app. exact Hfr. }
  destruct (store_Read_frame s2 (store_size s) p Hwf2 Hfr2)
    as (s3 & HR & _ & Hco & _).
  exists s3. split; assumption.
Qed.

Lemma store_Append_then_Read_witness :
  exists n pos s1 s2 s3,
    store_Append example_store0 hello_world = (Ok (n, pos), s1) /\
    store_Appends s1 [hello_world; hello_world] = Some s2 /\
    store_Read s2 pos = (Ok hello_world, s3).
Proof.
  destruct (store_Append example_store0 hello_world) as [[[n pos]|e] s1] eqn:E1;
    [ | vm_compute in E1; discriminate].
  destruct (store_Appends s1 [hello_world; hello_world]) as [s2|] eqn:E2;
    [ | vm_compute in E1; injection E1 as _ _ <-; vm_compute in E2; discriminate].
  assert (Hwf : store_wf example_store0)
    by (vm_compute; repeat split; discriminate).
  assert (Hb : Z.of_nat (length (store_content s2)) < 2 ^ 63).
  { vm_compute in E1. injection E1 as _ _ <-.
    vm_compute in E2. injection E2 as <-. vm_compute. reflexivity. }
  destruct (store_Append_then_Read example_store0 hello_world n pos s1
              [hello_world; hello_world] s2 Hwf E1 E2 Hb) as (s3 & HR & _).
  exists n, pos, s1, s2, s3. auto.
Defined.

(** X2.  [store.Read] at a position where no whole length prefix is left
    fails with [io.EOF] and leaves what the store holds as it was. *)
Theorem store_Read_past_end (s : store) (pos : Z) :
  store_wf s ->
  0 <= pos < 2 ^ 63 ->
  store_size s < pos + lenWidth ->
  exists s', store_Read s pos = (Err EOF, s') /\
    store_content s' = store_content s.
Proof.
  intros Hwf Hpos Hend.
  destruct (buf_Flush_wf s Hwf) as (s1 & HF & Hfile & Hbuf & Hn & Hsz & Hcl & He).
  destruct Hwf as (_ & _ & Hsize & Hlt).
  unfold store_Read. rewrite HF, to_int64_small by lia.
  unfold File_ReadAt. rewrite Hcl.
  destruct (Z.ltb_spec pos 0); [lia | ].
  rewrite Hfile.
  destruct (Z.ltb_spec (Z.of_nat (length (take (Z.to_nat lenWidth)
      (drop (Z.to_nat pos) (store_content s))))) lenWidth) as [_|Hge].
  - exists s1. split; [reflexivity | ].
    unfold store_content at 1. rewrite Hfile, Hbuf. apply app_nil_r.
  - rewrite length_take, length_drop in Hge. unfold lenWidth in *. lia.
Qed.

Lemma store_Read_past_end_witness :
  exists s', store_Read example_store0 0 = (Err EOF, s').
Proof.
  destruct (store_Read_past_end example_store0 0) as (s' & HR & _).
  - vm_compute. repeat split; discriminate.
  - lia.
  - vm_compute. reflexivity.
  - exists s'. exact HR.
Defined.

(** X3.  [originReader.Read] with a buffer of [n] bytes returns the bytes
    from its offset on of all that was appended to the store, those still
    in the write buffer included, and advances the offset by their number;
    it reports [io.EOF] exactly when fewer than [n] bytes were left. *)
Theorem originReader_Read_spec (s : store) (off n : Z) :
  store_wf s ->
  0 <= off < 2 ^ 63 ->
  0 < n ->
  exists s1,
    originReader_Read s off n
      = (take (Z.to_nat n) (drop (Z.to_nat off) (store_content s)),
         (if off + n <=? Z.of_nat (length (store_content s))
          then None else Some EOF),
         s1,
         off + Z.min n (Z.max 0 (Z.of_nat (length (store_content s)) - off))) /\
    store_content s1 = store_content s /\ buf s1 = [].
Proof.
  intros Hwf Hoff Hn.
  destruct (buf_Flush_wf s Hwf) as (s1 & HF & Hfile & Hbuf & Hnm & Hsz & Hcl & He).
  destruct Hwf as (_ & _ & Hsize & Hlt).
  exists s1. split.
  - unfold originReader_Read, store_ReadAt. rewrite HF.
    unfold File_ReadAt_n. rewrite Hcl, Hfile.
    destruct (Z.ltb_spec off 0); [lia | ].
    destruct (Z.leb_spec n 0); [lia | ].
    set (chunk := take (Z.to_nat n) (drop (Z.to_nat off) (store_content s))).
    assert (Hlen : Z.of_nat (length chunk)
                   = Z.min n (Z.max 0 (Z.of_nat (length (store_content s)) - off))).
    { unfold chunk. rewrite length_take, length_drop. lia. }
    rewrite to_int64_small by lia.
    rewrite Hlen.
    destruct (Z.ltb_spec (Z.min n (Z.max 0 (Z.of_nat (length (store_content s)) - off))) n),
      (Z.leb_spec (off + n) (Z.of_nat (length (store_content s))));
      try lia; reflexivity.
  - split; [ | exact Hbuf].
    unfold store_content at 1. rewrite Hfile, Hbuf. apply app_nil_r.
Qed.

Lemma originReader_Read_spec_witness :
  exists s0 s1,
    fst (store_Append example_store0 hello_world) = Ok (19, 0) /\
    s0 = snd (store_Append example_store0 hello_world) /\
    originReader_Read s0 8 100 = (hello_world, Some EOF, s1, 19).
Proof.
  exists (snd (store_Append example_store0 hello_world)).
  destruct (originReader_Read_spec (snd (store_Append example_store0 hello_world)) 8 100)
    as (s1 & HR & _).
  - vm_compute. repeat split; discriminate.
  - lia.
  - lia.
  - exists s1. split; [reflexivity | ]. split; [reflexivity | ].
    rewrite HR. reflexivity.
Defined.

(** X4.  [store.Close] writes all that was appended to the file: a store
    opened on the file afterwards has the size of the closed one and reads
    back every frame of it.  No other file of the directory changes. *)
Theorem store_Close_reopen (s : store) (d : directory) :
  store_wf s ->
  is_Some (d !! store_name s) ->
  exists s' d',
    store_Close s d = (None, s', d') /\
    (forall name, name <> store_name s -> d' !! name = d !! name) /\
    forall d2 content, OpenFile d' (store_name s) = (d2, content) ->
      d2 = d' /\
      store_size (newStore (store_name s) content) = store_size s /\
      forall pos p, frame_at (store_content s) pos p ->
        exists s3, store_Read (newStore (store_name s) content) pos = (Ok p, s3).
Proof.
  intros Hwf [old Hold].
  destruct (buf_Flush_wf s Hwf) as (s1 & HF & Hfile & Hbuf & Hnm & Hsz & Hcl & He).
  pose proof Hwf as (_ & _ & Hsize & Hlt).
  unfold store_Close. rewrite HF, Hcl, Hnm, Hold, Hfile.
  eexists _, _. split; [reflexivity | ]. split.
  - intros name Hne. now rewrite lookup_insert_ne by congruence.
  - intros d2 content. unfold OpenFile. rewrite lookup_insert_eq.
    intros [= <- <-]. split; [reflexivity | ].
    assert (Hwf2 : store_wf (newStore (store_name s) (store_content s))).
    { unfold store_wf, newStore, store_content at 2 3; cbn.
      rewrite app_nil_r, wrap64_small by lia. repeat split; auto; lia. }
    split.
    + cbn. rewrite wrap64_small by lia. lia.
    + intros pos p Hfr.
      destruct (store_Read_frame (newStore (store_name s) (store_content s)) pos p Hwf2)
        as (s3 & HR & _).
      * unfold store_content at 1; cbn. rewrite app_nil_r. exact Hfr.
      * exists s3. exact HR.
Qed.

Lemma store_Close_reopen_witness :
  exists s1 s' d',
    store_Append example_store0 hello_world = (Ok (19, 0), s1) /\
    store_Close s1 {[ "0.store"%string := [] ]} = (None, s', d') /\
    exists s3, store_Read (newStore "0.store" (default [] (d' !! "0.store"%string))) 0
               = (Ok hello_world, s3).
Proof.
  destruct (store_Append example_store0 hello_world) as [r s1] eqn:EA.
  assert (Hr : r = Ok (19, 0)) by (vm_compute in EA; congruence). subst r.
  assert (Hname : store_name s1 = "0.store"%string)
    by (vm_compute in EA; injection EA as <-; reflexivity).
  assert (Hwf : store_wf s1).
  { vm_compute in EA. injection EA as <-. vm_compute. repeat split; discriminate. }
  assert (Hfr : frame_at (store_content s1) 0 hello_world).
  { vm_compute in EA. injection EA as <-. vm_compute. split; reflexivity. }
  destruct (store_Close_reopen s1 {[ "0.store"%string := [] ]} Hwf)
    as (s' & d' & HC & _ & Hre).
  { rewrite Hname. rewrite lookup_singleton_eq. eauto. }
  exists s1, s', d'. split; [reflexivity | ]. split; [exact HC | ].
  destruct (OpenFile d' (store_name s1)) as [d2 content] eqn:EO.
  destruct (Hre d2 content eq_refl) as (-> & _ & Hread).
  destruct (Hread 0 hello_world Hfr) as (s3 & HR).
  exists s3. rewrite <- HR. f_equal. rewrite Hname. f_equal.
  revert EO. unfold OpenFile. rewrite Hname.
  destruct (d' !! "0.store"%string); intros H; cbn; congruence.
Defined.

(** * The index beyond single calls *)

Lemma index_Write_room i off pos i' :
  0 <= index_size i -> index_size i + entWidth < 2 ^ 64 ->
  index_Write i off pos = (None, i') ->
  index_size i + entWidth <= Z.of_nat (length (mmap i)).
Proof.
  intros H0 Hb HW.
  destruct (Z.le_gt_cases (index_size i + entWidth) (Z.of_nat (length (mmap i))))
    as [Hle|Hgt]; [exact Hle | ].
  rewrite (index_Write_full i off pos H0) in HW by lia. discriminate.
Qed.

(** X5.  An entry written by [index.Write] is the one [index.Read] returns
    for [-1] and for its number, and the entries written before it read as
    they did. *)
Theorem index_Write_then_Read (i : index) (off pos : Z) (n : nat) (i' : index) :
  index_size i = entWidth * Z.of_nat n ->
  index_size i <= Z.of_nat (length (mmap i)) ->
  Z.of_nat (length (mmap i)) <= 2 ^ 32 * entWidth ->
  0 <= off < 2 ^ 32 ->
  0 <= pos < 2 ^ 64 ->
  index_Write i off pos = (None, i') ->
  index_Read i' (-1) = Ok (off, pos) /\
  index_Read i' (Z.of_nat n) = Ok (off, pos) /\
  forall k, 0 <= k < Z.of_nat n -> index_Read i' k = index_Read i k.
Proof.
  intros Hsz Hin Hcap Hoff Hpos HW.
  change entWidth with 12 in *.
  assert (Hroom : index_size i + 12 <= Z.of_nat (length (mmap i))).
  { apply (index_Write_room i off pos i'); change entWidth with 12; [lia | lia | exact HW]. }
  destruct (index_Write_entries i off pos n) as (i1 & HW1 & _ & _ & Hlen & Hsz1 & Hnew & Hold);
    [exact Hsz | exact Hroom | lia | ].
  rewrite HW in HW1. injection HW1 as <-.
  change entWidth with 12 in *.
  rewrite wrap32_small in Hnew by lia. rewrite wrap64_small in Hnew by lia.
  assert (Hnz : index_size i' <> 0) by lia.
  assert (Hdiv : index_size i' / 12 = Z.of_nat (S n)).
  { rewrite Hsz1. rewrite Z.mul_comm. apply Z.div_mul. lia. }
  split; [ | split].
  - rewrite (index_Read_unfold i' (-1) Hnz). cbv zeta.
    change (-1 =? -1) with true. cbv iota. change entWidth with 12. rewrite Hdiv.
    rewrite wrap64_small by lia. rewrite wrap32_small by lia.
    replace (Z.of_nat (S n) - 1) with (Z.of_nat n) by lia.
    destruct (Z.ltb_spec (index_size i') (Z.of_nat n * 12 + 12)); [lia | ].
    rewrite Hnew. reflexivity.
  - rewrite (index_Read_unfold i' (Z.of_nat n) Hnz). cbv zeta.
    destruct (Z.eqb_spec (Z.of_nat n) (-1)); [lia | ].
    rewrite wrap32_small by lia. change entWidth with 12.
    destruct (Z.ltb_spec (index_size i') (Z.of_nat n * 12 + 12)); [lia | ].
    rewrite Hnew. reflexivity.
  - intros k Hk.
    assert (Hnz0 : index_size i <> 0) by lia.
    rewrite (index_Read_unfold i' k Hnz), (index_Read_unfold i k Hnz0). cbv zeta.
    destruct (Z.eqb_spec k (-1)); [lia | ].
    rewrite wrap32_small by lia. change entWidth with 12.
    destruct (Z.ltb_spec (index_size i') (k * 12 + 12)); [lia | ].
    destruct (Z.ltb_spec (index_size i) (k * 12 + 12)); [lia | ].
    rewrite (Hold k Hk). reflexivity.
Qed.

Lemma index_Write_then_Read_witness :
  index_Read example_index1 (-1) = Ok (0, 10) /\
  index_Read example_index1 0 = Ok (0, 10).
Proof.
  destruct (index_Write_then_Read example_index0 0 10 0 example_index1)
    as (H1 & H2 & _).
  - vm_compute. reflexivity.
  - vm_compute. discriminate.
  - vm_compute. discriminate.
  - lia.
  - lia.
  - vm_compute. reflexivity.
  - split; [exact H1 | exact H2].
Defined.

(** X6.  An index takes as many entries as fit into its mapped region and
    no more: a run of writes succeeds exactly when, with the entries the
    index already has, they take at most the length of the region. *)
Theorem index_Writes_capacity (i : index) (n : nat) (es : list (Z * Z)) :
  index_size i = entWidth * Z.of_nat n ->
  index_size i <= Z.of_nat (length (mmap i)) ->
  Z.of_nat (length (mmap i)) < 2 ^ 63 ->
  (is_Some (index_Writes i es) <->
   entWidth * Z.of_nat (n + length es) <= Z.of_nat (length (mmap i))).
Proof.
  revert i n. induction es as [|[off pos] es IH]; intros i n Hsz Hle Hcap.
  - cbn [index_Writes length]. split; [intros _ | eauto].
    replace (n + 0)%nat with n by lia. lia.
  - cbn [index_Writes length]. change entWidth with 12 in *.
    destruct (Z.le_gt_cases (index_size i + 12) (Z.of_nat (length (mmap i))))
      as [Hroom|Hfull].
    + destruct (index_Write_entries i off pos n)
        as (i1 & HW & _ & _ & Hlen & Hsz1 & _); [exact Hsz | exact Hroom | exact Hcap | ].
      rewrite HW. change entWidth with 12 in *.
      rewrite (IH i1 (S n)); rewrite ?Hlen; lia.
    + rewrite (index_Write_full i off pos) by (change entWidth with 12; lia).
      split; [intros [x Hx]; discriminate | lia].
Qed.

Lemma index_Writes_capacity_witness :
  is_Some (index_Writes example_index0 [(0, 0); (1, 19); (2, 38)]) /\
  ~ is_Some (index_Writes example_index0 [(0, 0); (1, 19); (2, 38); (3, 57)]).
Proof.
  split.
  - apply (index_Writes_capacity example_index0 0).
    + vm_compute. reflexivity.
    + vm_compute. discriminate.
    + vm_compute. reflexivity.
    + vm_compute. discriminate.
  - intros H. apply (index_Writes_capacity example_index0 0) in H.
    + vm_compute in H. apply H. reflexivity.
    + vm_compute. reflexivity.
    + vm_compute. discriminate.
    + vm_compute. reflexivity.
Defined.

(** X7.  [index.Close] cuts the file back to the entries written, and
    [newIndex] on that file, with a limit that has room for them, gives an
    index of the same size whose every [Read] answers as the closed one
    did. *)
Theorem index_Close_reopen (i : index) (d : directory) (c : Config) (n : nat) :
  index_closed i = false ->
  index_size i = entWidth * Z.of_nat n ->
  index_size i <= Z.of_nat (length (mmap i)) ->
  is_Some (d !! index_name i) ->
  0 < MaxIndexBytes c < 2 ^ 63 ->
  index_size i <= MaxIndexBytes c ->
  exists i1 d1 i2 d2,
    index_Close i d = (None, i1, d1) /\
    d1 !! index_name i = Some (take (Z.to_nat (index_size i)) (mmap i)) /\
    newIndex d1 (index_name i) c = (Ok i2, d2) /\
    index_size i2 = index_size i /\
    Z.of_nat (length (mmap i2)) = MaxIndexBytes c /\
    forall in_, index_Read i2 in_ = index_Read i in_.
Proof.
  intros Hopen Hsz Hle [old Hold] Hmax Hfit.
  change entWidth with 12 in *.
  unfold index_Close. rewrite Hopen, to_int64_small by lia.
  destruct (Z.ltb_spec (index_size i) 0); [lia | ].
  rewrite Hold, (resize_le (index_size i) (mmap i)) by lia.
  set (file := take (Z.to_nat (index_size i)) (mmap i)).
  assert (Hflen : Z.of_nat (length file) = index_size i)
    by (unfold file; rewrite length_take; lia).
  eexists _, _. 
  unfold newIndex. rewrite lookup_insert_eq.
  rewrite (to_int64_small (MaxIndexBytes c)) by lia.
  destruct (Z.ltb_spec (MaxIndexBytes c) 0); [lia | ].
  rewrite (resize_ge (MaxIndexBytes c) file) by lia.
  set (region := file ++ replicate (Z.to_nat (MaxIndexBytes c) - length file) Byte.x00).
  assert (Hrlen : Z.of_nat (length region) = MaxIndexBytes c).
  { unfold region. rewrite length_app, length_replicate. lia. }
  destruct region as [|b0 region'] eqn:Er; [cbn in Hrlen; lia | ].
  rewrite <- Er in *.
  eexists _, _. split; [reflexivity | ]. split; [reflexivity | ].
  split; [reflexivity | ]. cbn [index_size mmap].
  split; [rewrite wrap64_small by lia; exact Hflen | ].
  split; [exact Hrlen | ].
  intros in_. rewrite Hflen, wrap64_small by lia.
  destruct (Z.eq_dec (index_size i) 0) as [Hz|Hnz].
  - unfold index_Read. cbn [index_size]. rewrite Hz. reflexivity.
  - rewrite (index_Read_unfold i in_ Hnz).
    rewrite index_Read_unfold by (cbn [index_size]; exact Hnz).
    cbn [index_size mmap]. cbv zeta. change entWidth with 12.
    set (e := if in_ =? -1 then wrap32 (wrap64 (index_size i / 12 - 1))
              else wrap32 in_).
    assert (He0 : 0 <= e).
    { subst e. destruct (in_ =? -1); apply wrap32_range. }
    destruct (Z.ltb_spec (index_size i) (e * 12 + 12)) as [Hlt|Hge]; [reflexivity | ].
    destruct (read_entry_Some (mmap i) e He0) as (o & p & Hr);
      [change entWidth with 12; lia | ].
    rewrite Hr. unfold region.
    rewrite (read_entry_app file _ e (o, p)); [reflexivity | ].
    apply read_entry_take; [exact Hr | change entWidth with 12; lia].
Qed.

Lemma index_Close_reopen_witness :
  exists i1 d1 i2 d2,
    index_Close example_index1 {[ "0.index"%string := [] ]} = (None, i1, d1) /\
    newIndex d1 "0.index" example_config = (Ok i2, d2) /\
    index_size i2 = 12 /\
    index_Read i2 (-1) = Ok (0, 10).
Proof.
  destruct (index_Close_reopen example_index1 {[ "0.index"%string := [] ]}
              example_config 1)
    as (i1 & d1 & i2 & d2 & HC & _ & HN & Hsz & _ & HR).
  - reflexivity.
  - vm_compute. reflexivity.
  - vm_compute. discriminate.
  - vm_compute. eauto.
  - vm_compute. split; reflexivity.
  - vm_compute. discriminate.
  - exists i1, d1, i2, d2. split; [exact HC | ]. split; [exact HN | ].
    split; [exact Hsz | ]. rewrite HR. vm_compute. reflexivity.
Defined.



(** * Segments: a full index, reading past the end, reopening, removing *)

Section SegmentExtras.
Context {codec : Codec}.

(** X9.  When the index of a segment has no room for another entry,
    [segment.Append] fails with [io.EOF] and gives out no offset, but it
    has already appended the record to the store, which has grown by the
    frame; the records of the segment are still there. *)
Theorem segment_Append_index_full (s : segment) (rs : list api_Record)
    (r : api_Record) (p : bytes) :
  seg_holds s rs ->
  Marshal (with_offset r (nextOffset s)) = Ok p ->
  store_size (s_store s) + lenWidth + Z.of_nat (length p) < 2 ^ 63 ->
  nextOffset s + 1 < 2 ^ 64 ->
  Z.of_nat (length (mmap (s_index s))) < index_size (s_index s) + entWidth ->
  exists s',
    segment_Append s r = (Err EOF, s') /\
    nextOffset s' = nextOffset s /\
    index_size (s_index s') = index_size (s_index s) /\
    store_size (s_store s')
      = store_size (s_store s) + lenWidth + Z.of_nat (length p) /\
    seg_holds s' rs.
Proof.
  intros Hh HM Hb Hn Hfull.
  destruct (segment_Append_holds s rs r p Hh HM Hb Hn)
    as (s' & _ & _ & _ & _ & _ & Hsz & [(Hroom & _) | (_ & HA & Hh')]); [lia | ].
  exists s'. split; [exact HA | ].
  destruct (segment_Append_offsets s r _ _ HA) as (_ & _ & [(e & _ & Hnx) | (Hok & _)]);
    [ | discriminate].
  split; [exact Hnx | ]. split; [ | split; [exact Hsz | exact Hh'] ].
  destruct Hh as (_ & _ & Hi & _). destruct Hh' as (_ & _ & Hi' & _). congruence.
Qed.


Lemma assign_offsets_lookup rs : forall next (k : nat) r,
  rs !! k = Some r ->
  assign_offsets next rs !! k = Some (with_offset r (next + Z.of_nat k)).
Proof.
  induction rs as [|r0 rs IH]; intros next k r Hk; [discriminate | ].
  destruct k as [|k].
  - cbn in *. injection Hk as <-. now rewrite Z.add_0_r.
  - cbn [assign_offsets].
    change ((with_offset r0 next :: assign_offsets (next + 1) rs) !! S k)
      with (assign_offsets (next + 1) rs !! k).
    change ((r0 :: rs) !! S k) with (rs !! k) in Hk.
    rewrite (IH (next + 1) k r Hk). do 2 f_equal. lia.
Qed.

(** X11.  The records of a segment outlive it: after the appends, [Close]
    and [newSegment] on the same directory, [segment.Read] returns every
    record that was appended, at the offset it was given. *)
Theorem segment_reopen_Read {laws : CodecLaws codec}
    (d : directory) (base : Z) (c : Config) (rs : list api_Record)
    (s0 : segment) (d0 : directory) (s1 : segment) :
  d !! file_name base ".store" = None ->
  d !! file_name base ".index" = None ->
  0 <= base -> base + Z.of_nat (length rs) < 2 ^ 64 ->
  0 < MaxIndexBytes c <= 2 ^ 32 * entWidth ->
  newSegment d base c = (Ok s0, d0) ->
  segment_Appends s0 rs = Some s1 ->
  Z.of_nat (length (store_content (s_store s1))) < 2 ^ 63 ->
  exists s2 d2 s3 d3,
    segment_Close s1 d0 = (None, s2, d2) /\
    newSegment d2 base c = (Ok s3, d3) /\
    forall (k : nat) r, rs !! k = Some r ->
      exists s4, segment_Read s3 (base + Z.of_nat k)
                 = (Ok (with_offset r (base + Z.of_nat k)), s4).
Proof.
  intros Hns Hni Hb0 Hb64 HM HN HA Hlen.
  destruct (newSegment_holds d base c [] (seg_files_fresh d base Hns Hni))
    as (s0' & d0' & HN' & Hh0 & Hbase & Hnext & Hc & Hsn & Hin & Hml & _ & Hds & Hdi & _);
    [exact Hb0 | cbn; lia | exact HM | cbn; lia | ].
  rewrite HN' in HN. injection HN as <- <-.
  destruct (segment_Appends_holds rs s0' [] s1 Hh0 HA Hlen)
    as (Hh1 & Hb1 & Hc1 & Hsn1 & Hin1 & Hml1); [cbn in Hnext; lia | ].
  cbn [app] in Hh1. rewrite Hnext in Hh1. cbn in Hh1.
  rewrite Z.add_0_r in Hh1.
  destruct (segment_Close_files s1 _ d0' Hh1)
    as (s2 & d2 & HC & Hf2 & _); try (rewrite Hb1, Hbase); try congruence.
  rewrite Hb1, Hbase in Hf2.
  pose proof Hh1 as (_ & _ & Hisz & Hile & _).
  rewrite assign_offsets_length in *. rewrite Hml1 in Hile.
  destruct (newSegment_holds d2 base c _ Hf2)
    as (s3 & d3 & HN3 & Hh3 & Hbase3 & _);
    [exact Hb0 | rewrite assign_offsets_length; lia | exact HM
    | rewrite assign_offsets_length; lia | ].
  exists s2, d2, s3, d3. split; [exact HC | ]. split; [exact HN3 | ].
  intros k r Hk.
  destruct (segment_Read_holds s3 _ k _ Hh3 (assign_offsets_lookup rs base k r Hk))
    as (s4 & HR & _).
  rewrite Hbase3 in HR. eauto.
Qed.

(** X12.  [segment.Remove] of an open segment whose two files are in the
    directory succeeds, deletes exactly those two files and leaves every
    other file as it was. *)
Theorem segment_Remove_files (s : segment) (rs : list api_Record) (d : directory) :
  seg_holds s rs ->
  store_name (s_store s) = file_name (baseOffset s) ".store" ->
  index_name (s_index s) = file_name (baseOffset s) ".index" ->
  is_Some (d !! file_name (baseOffset s) ".store") ->
  is_Some (d !! file_name (baseOffset s) ".index") ->
  exists s' d',
    segment_Remove s d = (None, s', d') /\
    d' !! file_name (baseOffset s) ".store" = None /\
    d' !! file_name (baseOffset s) ".index" = None /\
    forall name, name <> file_name (baseOffset s) ".store" ->
                 name <> file_name (baseOffset s) ".index" ->
                 d' !! name = d !! name.
Proof.
  intros (Hwf & Hopen & Hisz & Hile & Hcap & _) Hsn Hin [cs Hcs] [ci Hci].
  pose proof (store_index_names_differ (baseOffset s)) as Hne.
  change entWidth with 12 in *.
  destruct (buf_Flush_wf _ Hwf) as (st1 & HF & Hfile & Hbuf & Hnm & Hsz & Hcl & He).
  unfold segment_Remove, segment_Close, index_Close, store_Close, index_Name.
  rewrite Hopen, to_int64_small by lia.
  destruct (Z.ltb_spec (index_size (s_index s)) 0); [lia | ].
  rewrite Hin, Hci, HF, Hcl, Hnm, Hsn.
  rewrite lookup_insert_ne, Hcs by congruence.
  cbn [s_index s_store index_name store_name].
  unfold os_Remove.
  rewrite lookup_insert_ne by congruence. rewrite lookup_insert_eq.
  rewrite lookup_delete_ne by congruence. rewrite lookup_insert_eq.
  eexists _, _. split; [reflexivity | ]. split; [apply lookup_delete_eq | ].
  split.
  - rewrite lookup_delete_ne by congruence. apply lookup_delete_eq.
  - intros name H1 H2.
    rewrite !lookup_delete_ne, !lookup_insert_ne by congruence. reflexivity.
Qed.

End SegmentExtras.

Lemma example_segment3_holds :
  exists s3,
    example_segment3 = Some s3 /\
    seg_holds (codec := example_codec) s3
      (assign_offsets 16 [hello_record; hello_record; hello_record]) /\
    baseOffset s3 = 16 /\ nextOffset s3 = 19 /\
    store_name (s_store s3) = file_name 16 ".store" /\
    index_name (s_index s3) = file_name 16 ".index" /\
    length (mmap (s_index s3)) = 36%nat /\
    store_size (s_store s3) = 81.
Proof.
  assert (Hlen : match example_segment3 with
                 | Some s1 =>
                     Z.of_nat (length (store_content (s_store s1))) < 2 ^ 63 /\
                     nextOffset s1 = 19 /\ store_size (s_store s1) = 81
                 | None => True
                 end) by (vm_compute; repeat split; reflexivity).
  destruct example_segment3 as [s3|] eqn:E3; [ | vm_compute in E3; discriminate].
  destruct Hlen as (Hlen & Hnx & Hss).
  unfold example_segment3 in E3.
  destruct example_segment0 as [[s0|e] d0] eqn:E0; [ | vm_compute in E0; discriminate].
  destruct (newSegment_holds (codec := example_codec) ∅ 16 example_config []
              (seg_files_fresh ∅ 16 (lookup_empty _) (lookup_empty _)))
    as (s0' & d0' & HN' & Hh0 & Hbase & Hnext & _ & Hsn & Hin & Hml & _);
    [lia | vm_compute; reflexivity | vm_compute; split; [reflexivity | discriminate]
    | vm_compute; discriminate | ].
  unfold example_segment0 in E0. rewrite HN' in E0. injection E0 as <- <-.
  destruct (segment_Appends_holds _ s0' [] s3 Hh0 E3 Hlen)
    as (Hh3 & Hb3 & _ & Hsn3 & Hin3 & Hml3); [rewrite Hnext; vm_compute; reflexivity | ].
  rewrite Hnext in Hh3. cbn [app length Z.of_nat] in Hh3.
  exists s3. split; [reflexivity | ]. split; [exact Hh3 | ].
  split; [congruence | ]. split; [exact Hnx | ].
  split; [congruence | ]. split; [congruence | ].
  split; [ | exact Hss].
  rewrite Hml3. apply Nat2Z.inj. rewrite Hml. reflexivity.
Qed.

Lemma segment_Append_index_full_witness :
  exists s3 s',
    example_segment3 = Some s3 /\
    segment_Append (codec := example_codec) s3 hello_record = (Err EOF, s') /\
    nextOffset s' = 19 /\ store_size (s_store s') = 81 + 27.
Proof.
  destruct example_segment3_holds
    as (s3 & E3 & Hh & Hb & Hnx & _ & _ & Hml & Hss).
  destruct (segment_Append_index_full (codec := example_codec) s3 _ hello_record
              (PutUint64 19 ++ hello_world) Hh)
    as (s' & HA & Hnx' & _ & Hss' & _).
  - rewrite Hnx. reflexivity.
  - rewrite Hss. vm_compute. reflexivity.
  - rewrite Hnx. reflexivity.
  - destruct Hh as (_ & _ & Hisz & _). rewrite Hisz, Hml. vm_compute. reflexivity.
  - exists s3, s'. split; [exact E3 | ]. split; [exact HA | ].
    split; [congruence | ]. rewrite Hss', Hss. reflexivity.
Defined.


Lemma segment_reopen_Read_witness :
  exists s1 s2 d2 s3 d3 s4,
    example_segment3 = Some s1 /\
    segment_Close s1 (snd example_segment0) = (None, s2, d2) /\
    newSegment d2 16 example_config = (Ok s3, d3) /\
    segment_Read (codec := example_codec) s3 18
      = (Ok (with_offset hello_record 18), s4).
Proof.
  assert (Hlen : match example_segment3 with
                 | Some s1 => Z.of_nat (length (store_content (s_store s1))) < 2 ^ 63
                 | None => True
                 end) by (vm_compute; reflexivity).
  destruct example_segment3 as [s1|] eqn:E3; [ | vm_compute in E3; discriminate].
  unfold example_segment3 in E3.
  destruct example_segment0 as [[s0|e] d0] eqn:E0; [ | vm_compute in E0; discriminate].
  destruct (segment_reopen_Read (codec := example_codec) (laws := example_codec_laws)
              ∅ 16 example_config [hello_record; hello_record; hello_record] s0 d0 s1)
    as (s2 & d2 & s3 & d3 & HC & HN & HR);
    [reflexivity | reflexivity | lia | vm_compute; reflexivity
    | vm_compute; split; [reflexivity | discriminate] | exact E0 | exact E3
    | exact Hlen | ].
  destruct (HR 2%nat hello_record eq_refl) as (s4 & HR4).
  exists s1, s2, d2, s3, d3, s4. cbn [snd]. auto.
Defined.

Lemma segment_Remove_files_witness :
  exists s3 s' d',
    example_segment3 = Some s3 /\
    segment_Remove s3 (snd example_segment0) = (None, s', d') /\
    d' !! file_name 16 ".store" = None /\
    d' !! file_name 16 ".index" = None.
Proof.
  destruct example_segment3_holds
    as (s3 & E3 & Hh & Hb & Hnx & Hsn & Hin & _).
  destruct (segment_Remove_files (codec := example_codec) s3 _
              (snd example_segment0) Hh)
    as (s' & d' & HR & H1 & H2 & _).
  - rewrite Hb. exact Hsn.
  - rewrite Hb. exact Hin.
  - rewrite Hb. vm_compute. eauto.
  - rewrite Hb. vm_compute. eauto.
  - rewrite Hb in H1, H2. exists s3, s', d'. auto.
Defined.

(** * [nearestMultiple] *)

(** X13.  [nearestMultiple(j, k)] with [k] not zero is the largest
    multiple of [k] that is at most [j]; the branch for a negative [j] is
    never taken, [j] being unsigned.  With [k] zero the call panics. *)
Theorem nearestMultiple_spec (j k : Z) :
  0 <= j < 2 ^ 64 -> 0 <= k < 2 ^ 64 ->
  (k = 0 -> nearestMultiple j k = Err Panic) /\
  (0 < k ->
   exists m, nearestMultiple j k = Ok m /\
     m mod k = 0 /\ m <= j < m + k).
Proof.
  intros Hj Hk. unfold nearestMultiple.
  destruct (Z.leb_spec 0 j); [ | lia]. split.
  - intros ->. reflexivity.
  - intros Hpos. destruct (Z.eqb_spec k 0); [lia | ].
    pose proof (Z.div_mod j k ltac:(lia)) as Hdm.
    pose proof (Z.mod_pos_bound j k Hpos) as Hmod.
    assert (Hq : 0 <= j / k) by (apply Z.div_pos; lia).
    exists (j / k * k). split.
    + f_equal. apply wrap64_small. nia.
    + split; [apply Z.mod_mul; lia | nia].
Qed.

Lemma nearestMultiple_spec_witness :
  exists m, nearestMultiple 9 4 = Ok m /\ m mod 4 = 0 /\ m <= 9 < m + 4.
Proof.
  destruct (nearestMultiple_spec 9 4) as [_ H]; [lia | lia | ].
  apply H. lia.
Defined.

(** * The log: offsets out of range, offsets in a row, truncating all *)

Section LogExtras.
Context {codec : Codec}.

Lemma log_ok_run ops : forall b l,
  log_ok b l -> b + Z.of_nat (length ops) < 2 ^ 64 ->
  log_ok (b + Z.of_nat (length ops)) (run ops l).
Proof.
  induction ops as [|o ops IH]; intros b l Hinit Hb.
  - cbn. rewrite Z.add_0_r. exact Hinit.
  - cbn [run fold_left length] in *.
    replace (b + Z.of_nat (S (length ops))) with (b + 1 + Z.of_nat (length ops)) by lia.
    apply IH; [ | lia].
    destruct o as [r | off | lowest]; cbn [run_op].
    + apply log_ok_Append; [exact Hinit | lia].
    + eapply log_ok_mono; [apply log_ok_Read; exact Hinit | lia].
    + eapply log_ok_mono; [apply log_ok_Truncate; exact Hinit | lia].
Qed.

Lemma find_segment_Some h ptrs off p :
  find_segment h ptrs off = Some p ->
  p ∈ ptrs /\ exists s, h !! p = Some s /\ baseOffset s <= off < nextOffset s.
Proof.
  induction ptrs as [|q rest IH]; cbn; [discriminate | ].
  destruct (h !! q) as [s|] eqn:Eq.
  - destruct (Z.leb_spec (baseOffset s) off), (Z.ltb_spec off (nextOffset s)); cbn.
    + intros [= <-]. split; [apply list_elem_of_here | ]. exists s. split; [exact Eq | lia].
    + intros Hf. destruct (IH Hf) as [Hin Hs]. split; [now apply list_elem_of_further | exact Hs].
    + intros Hf. destruct (IH Hf) as [Hin Hs]. split; [now apply list_elem_of_further | exact Hs].
    + intros Hf. destruct (IH Hf) as [Hin Hs]. split; [now apply list_elem_of_further | exact Hs].
  - intros Hf. destruct (IH Hf) as [Hin Hs]. split; [now apply list_elem_of_further | exact Hs].
Qed.

Lemma find_segment_None h ptrs off :
  (forall p s, p ∈ ptrs -> h !! p = Some s ->
     ~ (baseOffset s <= off < nextOffset s)) ->
  find_segment h ptrs off = None.
Proof.
  intros H. destruct (find_segment h ptrs off) as [p|] eqn:E; [ | reflexivity].
  apply find_segment_Some in E as (Hin & s & Hs & Hr).
  exfalso. exact (H p s Hin Hs Hr).
Qed.

(** In a chained list every segment lies between the base offset of the
    first and the next offset of the last. *)
Lemma chained_bounds h ptrs pf pl sf sl :
  chained h ptrs ->
  head ptrs = Some pf -> last ptrs = Some pl ->
  h !! pf = Some sf -> h !! pl = Some sl ->
  forall p s, p ∈ ptrs -> h !! p = Some s ->
    baseOffset sf <= baseOffset s /\ nextOffset s <= nextOffset sl.
Proof.
  intros Hc Hhd Hl Hf Hla p s Hin Hs.
  destruct ptrs as [|p0 rest]; [discriminate | ].
  cbn in Hhd. injection Hhd as ->.
  split.
  - apply elem_of_cons in Hin as [-> | Hin].
    + assert (s = sf) by congruence. subst. lia.
    + destruct (chained_le _ _ _ _ Hc Hf p Hin) as (sq & Hq & H1 & _).
      assert (sq = s) by congruence. subst sq.
      destruct (chained_lookup _ _ pf Hc (list_elem_of_here _ _)) as (s0 & Hs0 & Hsane).
      assert (s0 = sf) by congruence. subst s0.
      destruct Hsane as [? _]. lia.
  - apply last_Some in Hl as [pre Hpre].
    rewrite Hpre in Hc, Hin.
    apply elem_of_app in Hin as [Hin | Hin].
    + replace (pre ++ [pl]) with (pre ++ pl :: []) in Hc by reflexivity.
      destruct (chained_before _ _ _ _ _ Hc Hla p Hin) as (sp & Hsp & Hle).
      assert (sp = s) by congruence. subst sp.
      destruct (chained_lookup _ _ pl Hc) as (s0 & Hs0 & Hsane).
      { apply elem_of_app. right. apply list_elem_of_here. }
      assert (s0 = sl) by congruence. subst s0.
      destruct Hsane as [? _]. lia.
    + apply list_elem_of_singleton in Hin as ->.
      assert (s = sl) by congruence. subst. lia.
Qed.

Lemma find_segment_chained h off : forall ptrs pf pl sf sl,
  chained h ptrs ->
  head ptrs = Some pf -> last ptrs = Some pl ->
  h !! pf = Some sf -> h !! pl = Some sl ->
  baseOffset sf <= off < nextOffset sl ->
  exists p, find_segment h ptrs off = Some p.
Proof.
  induction ptrs as [|p0 rest IH]; intros pf pl sf sl Hc Hhd Hl Hf Hla Hoff;
    [discriminate | ].
  cbn in Hhd. injection Hhd as ->.
  cbn [find_segment]. rewrite Hf.
  destruct (Z.leb_spec (baseOffset sf) off); [ | lia].
  destruct (Z.ltb_spec off (nextOffset sf)) as [Hlt|Hge]; cbn; [eauto | ].
  destruct rest as [|q rest'].
  - cbn in Hl. injection Hl as <-. assert (sl = sf) by congruence. subst. lia.
  - destruct Hc as [(s0 & Hs0 & _ & sq & Hq & Hnb) Hc'].
    assert (s0 = sf) by congruence. subst s0.
    assert (Hl' : last (q :: rest') = Some pl).
    { rewrite last_cons in Hl.
      destruct (last (q :: rest')) as [x|] eqn:E;
        [exact Hl | apply last_None in E; discriminate]. }
    apply (IH q pl sq sl Hc' eq_refl Hl' Hq Hla). lia.
Qed.

(** X14.  In a log whose segments are chained, [Log.Read] fails with
    [ErrOffsetOutOfRange] and changes nothing for every offset below the
    base offset of the first segment or from the next offset of the last
    one on; every offset in between is found in a segment of the list,
    whose [Read] then answers. *)
Theorem Log_Read_range (l : Log) (off : Z) (pf pl : nat) (sf sl : segment) :
  chained (heap l) (segments l) ->
  head (segments l) = Some pf -> last (segments l) = Some pl ->
  heap l !! pf = Some sf -> heap l !! pl = Some sl ->
  (off < baseOffset sf \/ nextOffset sl <= off ->
   Log_Read l off = (Err (ErrOffsetOutOfRange off), l)) /\
  (baseOffset sf <= off < nextOffset sl ->
   exists p s, p ∈ segments l /\ heap l !! p = Some s /\
     baseOffset s <= off < nextOffset s /\
     Log_Read l off
       = (fst (segment_Read s off),
          set_heap l (<[p := snd (segment_Read s off)]> (heap l)))).
Proof.
  intros Hc Hhd Hl Hf Hla. split.
  - intros Hout. unfold Log_Read.
    rewrite find_segment_None; [reflexivity | ].
    intros p s Hin Hs Hr.
    destruct (chained_bounds _ _ _ _ _ _ Hc Hhd Hl Hf Hla p s Hin Hs) as [H1 H2].
    lia.
  - intros Hin.
    destruct (find_segment_chained _ off _ _ _ _ _ Hc Hhd Hl Hf Hla Hin) as [p Hp].
    pose proof (find_segment_Some _ _ _ _ Hp) as (Hmem & s & Hs & Hr).
    exists p, s. split; [exact Hmem | ]. split; [exact Hs | ]. split; [exact Hr | ].
    unfold Log_Read. rewrite Hp, Hs.
    destruct (Z.leb_spec (nextOffset s) off); [lia | ].
    destruct (segment_Read s off) as [r s1]. reflexivity.
Qed.

Lemma Log_Append_returns l r O l1 a s :
  activeSegment l = Some a -> heap l !! a = Some s ->
  Log_Append l r = (O, None, l1) ->
  O = nextOffset s /\
  exists s1, segment_Append s r = (Ok O, s1) /\
    baseOffset s1 = baseOffset s /\
    nextOffset s1 = wrap64 (nextOffset s + 1) /\
    ((IsMaxed s1 = false /\ l1 = set_heap l (<[a := s1]> (heap l))) \/
     (IsMaxed s1 = true /\
      Log_newSegment (set_heap l (<[a := s1]> (heap l))) (wrap64 (O + 1))
        = (None, l1))).
Proof.
  intros Ha Hs. unfold Log_Append. rewrite Ha, Hs.
  destruct (segment_Append s r) as [[off|e] s1] eqn:EA; [ | discriminate].
  destruct (segment_Append_offsets _ _ _ _ EA) as (Hb & _ & [(e & He & _) | (Hok & Hnx)]);
    [discriminate | ].
  injection Hok as ->.
  destruct (IsMaxed s1) eqn:EM.
  - destruct (Log_newSegment _ _) as [err l2] eqn:EN.
    intros [= <- -> <-]. split; [reflexivity | ].
    exists s1. split; [reflexivity | ]. split; [exact Hb | ]. split; [exact Hnx | ].
    right. split; [exact EM | exact EN].
  - intros [= <- <-]. split; [reflexivity | ].
    exists s1. split; [reflexivity | ]. split; [exact Hb | ]. split; [exact Hnx | ].
    left. split; [exact EM | reflexivity].
Qed.

(** After an append that gave out [O], the active segment is the last of
    the list and its next offset is [O + 1]. *)
Lemma Log_Append_next l r O l1 :
  log_wf l -> Log_Append l r = (O, None, l1) -> O + 1 < 2 ^ 64 ->
  exists a1 s1,
    activeSegment l1 = Some a1 /\ last (segments l1) = Some a1 /\
    heap l1 !! a1 = Some s1 /\ nextOffset s1 = O + 1.
Proof.
  intros ((b & Hok) & (Hnd & Hch & a & s & rs & Ha & Hlast & Hs & Hh) & Hcfg) HA Hb.
  pose proof (log_ok_tight _ _ _ _ Hok Ha Hs) as Hok'.
  destruct (Log_Append_returns _ _ _ _ _ _ Ha Hs HA)
    as (-> & s1 & HSA & Hb1 & Hnx1 & Hcases).
  rewrite wrap64_small in Hnx1
    by (destruct Hh as (_ & _ & _ & _ & _ & ? & ? & _); lia).
  pose proof (lookup_lt_Some _ _ _ Hs) as Hlt.
  destruct Hcases as [[_ ->] | [_ HN]].
  - exists a, s1. cbn. split; [exact Ha | ]. split; [exact Hlast | ].
    split; [apply list_lookup_insert_eq; exact Hlt | exact Hnx1].
  - pose proof (log_ok_Append _ _ r Hok' Hb) as Hok1.
    rewrite HA in Hok1. cbn [snd] in Hok1.
    revert HN. unfold Log_newSegment. cbn [Dir LConfig heap segments activeSegment set_heap].
    destruct (newSegment _ _ _) as [[sn|e] d'] eqn:EN; [ | discriminate].
    intros [= <-]. cbn [segments heap activeSegment] in *.
    exists (length (<[a := s1]> (heap l))), sn.
    split; [reflexivity | ]. split; [apply last_snoc | ].
    assert (Hsn : (<[a := s1]> (heap l) ++ [sn]) !! length (<[a := s1]> (heap l)) = Some sn).
    { rewrite lookup_app_r by lia. now rewrite Nat.sub_diag. }
    split; [exact Hsn | ].
    destruct Hok1 as (_ & _ & Hch1 & Hact). cbn [activeSegment heap] in Hact.
    destruct Hact as (s' & Hs' & Hsane & Hle & _).
    assert (s' = sn) by congruence. subst s'.
    assert (Hbase : baseOffset sn = wrap64 (nextOffset s + 1)).
    { revert EN. unfold newSegment.
      destruct (OpenFile _ _) as [d1 content].
      destruct (OpenFile d1 _) as [d2 ?].
      destruct (newIndex d2 _ _) as [[ix|e] d3]; [ | discriminate].
      destruct (index_Read ix (-1)) as [[o q]|e]; [intros [= <- _]; reflexivity | ].
      destruct e; try discriminate; intros [= <- _]; reflexivity. }
    rewrite wrap64_small in Hbase
      by (destruct Hh as (_ & _ & _ & _ & _ & ? & ? & _); lia).
    destruct Hsane as [[_ Hbn] _]. lia.
Qed.

(** X15.  After [Log.Append] has given out offset [O], [HighestOffset] is
    [O], [LowestOffset] is what it was, and the next append that succeeds
    gives out [O + 1]. *)
Theorem Log_Append_offsets (l : Log) (r : api_Record) (O : Z) (l1 : Log) :
  log_wf l ->
  Log_Append l r = (O, None, l1) ->
  O + 1 < 2 ^ 64 ->
  HighestOffset l1 = Ok O /\
  LowestOffset l1 = LowestOffset l /\
  forall r' O' l2, Log_Append l1 r' = (O', None, l2) -> O' = O + 1.
Proof.
  intros Hwf HA Hb.
  destruct (Log_Append_next l r O l1 Hwf HA Hb) as (a1 & s1 & Ha1 & Hl1 & Hs1 & Hn1).
  destruct Hwf as ((b & Hok) & (Hnd & Hch & a & s & rs & Ha & Hlast & Hs & Hh) & Hcfg).
  assert (HO : 0 <= O).
  { destruct (Log_Append_returns _ _ _ _ _ _ Ha Hs HA) as (-> & _).
    destruct Hh as (_ & _ & _ & _ & _ & ? & ? & _). lia. }
  split; [ | split].
  - unfold HighestOffset. rewrite Hl1, Hs1, Hn1.
    destruct (Z.eqb_spec (O + 1) 0); [lia | ].
    f_equal. replace (O + 1 - 1) with O by lia. apply wrap64_small. lia.
  - destruct (Log_Append_returns _ _ _ _ _ _ Ha Hs HA)
      as (_ & s1' & _ & Hb1 & _ & Hcases).
    unfold LowestOffset.
    assert (Hsame : forall p0 rest, segments l = p0 :: rest ->
              match <[a := s1']> (heap l) !! p0 with
              | Some s0 => Ok (baseOffset s0)
              | None => Err Panic
              end
              = match heap l !! p0 with
                | Some s0 => Ok (baseOffset s0)
                | None => Err Panic
                end).
    { intros p0 rest _. destruct (decide (a = p0)) as [<- | Hne].
      - rewrite list_lookup_insert_eq by (eapply lookup_lt_Some; exact Hs).
        rewrite Hs, Hb1. reflexivity.
      - rewrite list_lookup_insert_ne by exact Hne. reflexivity. }
    destruct (segments l) as [|p0 rest] eqn:Eseg; [discriminate | ].
    destruct Hcases as [[_ ->] | [_ HN]].
    + cbn [segments set_heap heap]. rewrite Eseg. apply (Hsame p0 rest eq_refl).
    + revert HN. unfold Log_newSegment.
      cbn [Dir LConfig heap segments activeSegment set_heap].
      destruct (newSegment _ _ _) as [[sn|e] d'] eqn:EN; [ | discriminate].
      intros [= <-]. cbn [segments heap]. rewrite Eseg. cbn [app].
      destruct Hch as [(s0 & Hs0 & _) _].
      rewrite lookup_app_l
        by (rewrite length_insert; eapply lookup_lt_Some; exact Hs0).
      apply (Hsame p0 rest eq_refl).
  - intros r' O' l2 HA2.
    destruct (Log_Append_returns _ _ _ _ _ _ Ha1 Hs1 HA2) as (-> & _). exact Hn1.
Qed.

(** X16.  [Truncate] of the highest offset removes every segment, the
    active one included: when it succeeds the segment list is empty, and
    [LowestOffset] and [HighestOffset] then panic on it. *)
Theorem Log_Truncate_highest (l : Log) (H : Z) (l' : Log) :
  chained (heap l) (segments l) ->
  HighestOffset l = Ok H ->
  Log_Truncate l H = (None, l') ->
  segments l' = [] /\ activeSegment l' = activeSegment l /\
  LowestOffset l' = Err Panic /\ HighestOffset l' = Err Panic.
Proof.
  intros Hc HH HT.
  assert (Hseg : segments l' = []).
  { revert HT. unfold Log_Truncate.
    destruct (Truncate_loop _ _ _ _ _) as [[[res d'] h'] kept'] eqn:ET.
    destruct res as [e|]; [discriminate | ].
    intros [= <-]. cbn [segments].
    destruct (Truncate_loop_kept _ _ _ _ _ _ _ _ ET) as (_ & _ & now_ & -> & _ & Hiff).
    cbn [app]. destruct now_ as [|q rest]; [reflexivity | exfalso].
    destruct (proj1 (Hiff q) (list_elem_of_here _ _)) as (Hq & sq & Hsq & Hgt).
    revert HH. unfold HighestOffset.
    destruct (last (segments l)) as [pl|] eqn:El; [ | discriminate].
    destruct (heap l !! pl) as [sl|] eqn:Esl; [ | discriminate].
    destruct (segments l) as [|pf rest0] eqn:Eseg; [discriminate | ].
    destruct (chained_lookup _ _ pf Hc (list_elem_of_here _ _)) as (sf & Hsf & _).
    destruct (chained_lookup _ _ pl Hc) as (sl' & Hsl' & Hsane).
    { rewrite <- Eseg in El |- *. apply last_Some in El as [pre ->].
      apply elem_of_app. right. apply list_elem_of_here. }
    assert (sl' = sl) by congruence. subst sl'.
    destruct (chained_bounds _ _ pf pl sf sl Hc eq_refl El Hsf Esl q sq Hq Hsq)
      as [_ Hle].
    destruct Hsane as [[? ?] ?].
    destruct (Z.eqb_spec (nextOffset sl) 0) as [Hz|Hnz]; intros [= <-].
    + change (wrap64 (0 + 1)) with 1 in Hgt. lia.
    + rewrite (wrap64_small (nextOffset sl - 1)) in Hgt by lia.
      replace (nextOffset sl - 1 + 1) with (nextOffset sl) in Hgt by lia.
      rewrite wrap64_small in Hgt by lia. lia. }
  split; [exact Hseg | ]. split.
  - revert HT. unfold Log_Truncate.
    destruct (Truncate_loop _ _ _ _ _) as [[[res d'] h'] kept'].
    destruct res; [discriminate | ]. intros [= <-]. reflexivity.
  - unfold LowestOffset, HighestOffset. rewrite Hseg. split; reflexivity.
Qed.

End LogExtras.

Lemma example_log0_wf : log_wf (codec := example_codec) example_log0.
Proof.
  split; [ | split].
  - exists (InitialOffset example_log_config). apply NewLog_empty_ok.
    vm_compute. split; [discriminate | reflexivity].
  - apply NewLog_empty_inv; vm_compute; split; (discriminate || reflexivity).
  - vm_compute. split; [reflexivity | discriminate].
Qed.

Lemma example_log9_chained :
  chained (heap example_log9) (segments example_log9).
Proof.
  assert (Hinit : log_ok 0 example_log0).
  { apply (NewLog_empty_ok example_log_config).
    vm_compute. split; [discriminate | reflexivity]. }
  pose proof (log_ok_run (codec := example_codec)
                (replicate 9 (OpAppend hello_record)) 0 example_log0 Hinit
                ltac:(vm_compute; reflexivity)) as Hok.
  destruct Hok as (_ & _ & Hc & _). exact Hc.
Qed.

Lemma Log_Read_range_witness :
  Log_Read (codec := example_codec) example_log9 9
    = (Err (ErrOffsetOutOfRange 9), example_log9) /\
  exists p s, p ∈ segments example_log9 /\ heap example_log9 !! p = Some s /\
    baseOffset s <= 4 < nextOffset s.
Proof.
  destruct (heap example_log9 !! 0%nat) as [sf|] eqn:Ef;
    [ | vm_compute in Ef; discriminate].
  destruct (heap example_log9 !! 3%nat) as [sl|] eqn:El;
    [ | vm_compute in El; discriminate].
  assert (Hbf : baseOffset sf = 0)
    by (vm_compute in Ef; injection Ef as <-; reflexivity).
  assert (Hnl : nextOffset sl = 9)
    by (vm_compute in El; injection El as <-; reflexivity).
  assert (Hhd : head (segments example_log9) = Some 0%nat) by (vm_compute; reflexivity).
  assert (Hla : last (segments example_log9) = Some 3%nat) by (vm_compute; reflexivity).
  split.
  - destruct (Log_Read_range (codec := example_codec) example_log9 9 0 3 sf sl
                example_log9_chained Hhd Hla Ef El) as [Hout _].
    apply Hout. right. lia.
  - destruct (Log_Read_range (codec := example_codec) example_log9 4 0 3 sf sl
                example_log9_chained Hhd Hla Ef El) as [_ Hin].
    destruct Hin as (p & s & Hp & Hs & Hr & _); [lia | ].
    exists p, s. auto.
Defined.

Lemma Log_Append_offsets_witness :
  exists l1,
    Log_Append (codec := example_codec) example_log0 hello_record = (0, None, l1) /\
    HighestOffset l1 = Ok 0 /\ LowestOffset l1 = Ok 0.
Proof.
  destruct (Log_Append (codec := example_codec) example_log0 hello_record)
    as [[O err] l1] eqn:EA.
  assert (HO : O = 0 /\ err = None) by (vm_compute in EA; split; congruence).
  destruct HO as [-> ->].
  destruct (Log_Append_offsets (codec := example_codec) example_log0 hello_record
              0 l1 example_log0_wf EA) as (HH & HL & _); [lia | ].
  exists l1. split; [reflexivity | ]. split; [exact HH | ].
  rewrite HL. vm_compute. reflexivity.
Defined.

Lemma Log_Truncate_highest_witness :
  exists l',
    HighestOffset example_log9 = Ok 8 /\
    Log_Truncate example_log9 8 = (None, l') /\
    segments l' = [] /\ LowestOffset l' = Err Panic.
Proof.
  destruct (Log_Truncate example_log9 8) as [res l'] eqn:E.
  assert (Hres : res = None) by (vm_compute in E; congruence). subst res.
  assert (HH : HighestOffset example_log9 = Ok 8) by (vm_compute; reflexivity).
  destruct (Log_Truncate_highest example_log9 8 l'
              example_log9_chained HH E) as (Hs & _ & HL & _).
  exists l'. auto.
Defined.

(** * The in-memory log of the HTTP server *)

Lemma server_Appends_lookup rs : forall (l : server_Log),
  length (records (server_Appends l rs)) = (length (records l) + length rs)%nat /\
  (forall k r, records l !! k = Some r ->
     records (server_Appends l rs) !! k = Some r) /\
  (forall k r, rs !! k = Some r ->
     records (server_Appends l rs) !! (length (records l) + k)%nat
     = Some {| server_Value := server_Value r;
               server_Offset := wrap64 (Z.of_nat (length (records l) + k)) |}).
Proof.
  induction rs as [|r0 rs IH]; intros l.
  - cbn. split; [lia | ]. split; [auto | ]. intros k r Hk. discriminate.
  - change (server_Appends l (r0 :: rs))
      with (server_Appends (snd (server_Append l r0)) rs).
    cbn [server_Append snd].
    destruct (IH {| records := records l ++
                     [{| server_Value := server_Value r0;
                         server_Offset := wrap64 (Z.of_nat (length (records l))) |}] |})
      as (Hlen & Hold & Hnew).
    cbn [records] in Hlen, Hold, Hnew.
    rewrite length_app in Hlen, Hnew. cbn [length] in *.
    split; [lia | ]. split.
    + intros k r Hk. apply Hold. rewrite lookup_app_l; [exact Hk | ].
      eapply lookup_lt_Some; exact Hk.
    + intros [|k] r Hk.
      * cbn in Hk. injection Hk as <-. rewrite Nat.add_0_r.
        apply Hold. rewrite lookup_app_r by lia. now rewrite Nat.sub_diag.
      * change ((r0 :: rs) !! S k) with (rs !! k) in Hk.
        specialize (Hnew k r Hk).
        replace (length (records l) + S k)%nat
          with (length (records l) + 1 + k)%nat by lia.
        exact Hnew.
Qed.

(** X17.  In the in-memory log, [Append] returns the number of records
    the log had, and [Read] of that offset returns the record with its
    value and with that offset, also after any further appends. *)
Theorem server_Append_then_Read (l : server_Log) (record : server_Record)
    (more : list server_Record) :
  Z.of_nat (length (records l) + 1 + length more) < 2 ^ 64 ->
  fst (server_Append l record) = Z.of_nat (length (records l)) /\
  server_Read (server_Appends (snd (server_Append l record)) more)
              (fst (server_Append l record))
  = ({| server_Value := server_Value record;
        server_Offset := Z.of_nat (length (records l)) |}, None).
Proof.
  intros Hb. unfold server_Append. cbn [fst snd server_Offset records].
  rewrite wrap64_small by lia. split; [reflexivity | ].
  set (r1 := {| server_Value := server_Value record;
                server_Offset := Z.of_nat (length (records l)) |}).
  destruct (server_Appends_lookup more {| records := records l ++ [r1] |})
    as (Hlen & Hold & _).
  cbn [records] in Hlen, Hold.
  rewrite length_app in Hlen. cbn [length] in Hlen.
  unfold server_Read. rewrite Hlen, wrap64_small by lia.
  destruct (Z.leb_spec (Z.of_nat (length (records l) + 1 + length more))
              (Z.of_nat (length (records l)))); [lia | ].
  rewrite Nat2Z.id.
  rewrite (Hold (length (records l)) r1); [reflexivity | ].
  rewrite lookup_app_r by lia. now rewrite Nat.sub_diag.
Qed.

Lemma server_Append_then_Read_witness :
  server_Read
    (server_Appends
       (snd (server_Append server_NewLog
               {| server_Value := hello_world; server_Offset := 7 |}))
       [{| server_Value := []; server_Offset := 0 |}])
    0
  = ({| server_Value := hello_world; server_Offset := 0 |}, None).
Proof.
  destruct (server_Append_then_Read server_NewLog
              {| server_Value := hello_world; server_Offset := 7 |}
              [{| server_Value := []; server_Offset := 0 |}]) as [_ H].
  - vm_compute. reflexivity.
  - exact H.
Defined.

(** X18.  In the in-memory log made from the empty one by appending the
    records [rs], [Read(k)] returns record [k] of [rs] with offset [k],
    and [Read] fails with [ErrOffsetNotFound], returning the empty record,
    exactly for the offsets from the number of records on. *)
Theorem server_Read_spec (rs : list server_Record) (offset : Z) :
  Z.of_nat (length rs) < 2 ^ 64 ->
  0 <= offset < 2 ^ 64 ->
  (Z.of_nat (length rs) <= offset ->
   server_Read (server_Appends server_NewLog rs) offset
   = ({| server_Value := []; server_Offset := 0 |}, Some ErrOffsetNotFound)) /\
  (forall r, rs !! Z.to_nat offset = Some r ->
   server_Read (server_Appends server_NewLog rs) offset
   = ({| server_Value := server_Value r; server_Offset := offset |}, None)).
Proof.
  intros Hb Hoff.
  destruct (server_Appends_lookup rs server_NewLog) as (Hlen & _ & Hnew).
  cbn [server_NewLog records length Nat.add] in Hlen, Hnew.
  unfold server_Read. rewrite Hlen, wrap64_small by lia. split.
  - intros Hge. destruct (Z.leb_spec (Z.of_nat (length rs)) offset); [reflexivity | lia].
  - intros r Hr. pose proof (lookup_lt_Some _ _ _ Hr) as Hlt.
    destruct (Z.leb_spec (Z.of_nat (length rs)) offset); [lia | ].
    rewrite (Hnew _ r Hr). rewrite wrap64_small by lia.
    rewrite Z2Nat.id by lia. reflexivity.
Qed.

Lemma server_Read_spec_witness :
  server_Read (server_Appends server_NewLog
                 [{| server_Value := hello_world; server_Offset := 7 |}]) 1
  = ({| server_Value := []; server_Offset := 0 |}, Some ErrOffsetNotFound).
Proof.
  destruct (server_Read_spec [{| server_Value := hello_world; server_Offset := 7 |}] 1)
    as [H _].
  - vm_compute. reflexivity.
  - lia.
  - apply H. vm_compute. discriminate.
Defined.

(** * The names of the segment files, written and parsed *)

Lemma of_uint_acc_ge d : forall acc, (acc <= Pos.of_uint_acc d acc)%positive.
Proof.
  induction d; intros acc; cbn [Pos.of_uint_acc]; try lia;
    (eapply Pos.le_trans; [ | apply IHd]); lia.
Qed.

Ltac eval_digit :=
  match goal with
  | |- context [digit_of ?c] =>
      let v := eval vm_compute in (digit_of c) in
      change (digit_of c) with v; cbv iota
  end.

Lemma ParseUint_from_acc d : forall acc,
  Z.pos (Pos.of_uint_acc d acc) < 2 ^ 64 ->
  ParseUint_from (Z.pos acc) (NilEmpty.string_of_uint d)
  = Z.pos (Pos.of_uint_acc d acc).
Proof.
  induction d; intros acc Hb;
    cbn [Pos.of_uint_acc NilEmpty.string_of_uint ParseUint_from] in *;
    try reflexivity;
    eval_digit;
    match goal with
    | H : Z.pos (Pos.of_uint_acc d ?a) < _ |- _ =>
        pose proof (of_uint_acc_ge d a) as Hge;
        assert (Ha : Z.pos a < 2 ^ 64) by lia;
        change ((2 ^ 64 - 1) / 10 + 1) with 1844674407370955162;
        destruct (Z.leb_spec 1844674407370955162 (Z.pos acc)) as [Hov|_]; [lia | ];
        match goal with
        | |- context [Z.pos acc * 10 + ?k] =>
            destruct (Z.ltb_spec (2 ^ 64 - 1) (Z.pos acc * 10 + k)) as [Hov|_];
              [lia | ];
            replace (Z.pos acc * 10 + k) with (Z.pos a) by lia
        end;
        apply IHd; exact H
    end.
Qed.

Lemma ParseUint_of_uint d :
  Z.of_N (Pos.of_uint d) < 2 ^ 64 ->
  ParseUint (NilEmpty.string_of_uint d) = Z.of_N (Pos.of_uint d).
Proof.
  unfold ParseUint.
  induction d; intros Hb;
    cbn [Pos.of_uint NilEmpty.string_of_uint ParseUint_from] in *;
    try reflexivity;
    eval_digit;
    change ((2 ^ 64 - 1) / 10 + 1 <=? 0) with false; cbv iota;
    match goal with
    | |- context [0 * 10 + ?k] =>
        change (2 ^ 64 - 1 <? 0 * 10 + k) with false; cbv iota;
        change (0 * 10 + k) with k
    end;
    [apply IHd; exact Hb | apply ParseUint_from_acc; exact Hb ..].
Qed.

(** [strconv.ParseUint] reads back what [%d] has printed. *)
Lemma ParseUint_string_of_uint b :
  0 <= b < 2 ^ 64 ->
  ParseUint (NilZero.string_of_uint (N.to_uint (Z.to_N b))) = b.
Proof.
  intros Hb.
  assert (Hs : NilZero.string_of_uint (N.to_uint (Z.to_N b))
               = NilEmpty.string_of_uint (N.to_uint (Z.to_N b))).
  { pose proof (N_to_uint_nonnil (Z.to_N b)) as Hn.
    destruct (N.to_uint (Z.to_N b)); [congruence | reflexivity ..]. }
  rewrite Hs, ParseUint_of_uint.
  - change (Pos.of_uint (N.to_uint (Z.to_N b))) with (N.of_uint (N.to_uint (Z.to_N b))).
    rewrite DecimalN.Unsigned.of_to. lia.
  - change (Pos.of_uint (N.to_uint (Z.to_N b))) with (N.of_uint (N.to_uint (Z.to_N b))).
    rewrite DecimalN.Unsigned.of_to. lia.
Qed.

Lemma Ext_app (s e : string) :
  Ext e <> EmptyString -> Ext (s ++ e) = Ext e.
Proof.
  intros He. induction s as [|c s IH]; [reflexivity | ].
  change (Ext (String c s ++ e))
    with (match Ext (s ++ e) with
          | EmptyString => if Ascii.eqb c "." then String c (s ++ e) else EmptyString
          | String a r => String a r
          end).
  rewrite IH. destruct (Ext e); [congruence | reflexivity].
Qed.

Lemma substring_app_skip (s e : string) k :
  substring (String.length s) k (s ++ e) = substring 0 k e.
Proof. induction s as [|c s IH]; [reflexivity | exact IH]. Qed.

Lemma substring_all (e : string) : substring 0 (String.length e) e = e.
Proof. induction e as [|c e IH]; [reflexivity | ]. cbn. now rewrite IH. Qed.

Lemma substring_app_prefix (s e : string) :
  substring 0 (String.length s) (s ++ e) = s.
Proof.
  induction s as [|c s IH]; simpl.
  - destruct e; reflexivity.
  - f_equal. exact IH.
Qed.

Lemma TrimSuffix_app (s e : string) : TrimSuffix (s ++ e) e = s.
Proof.
  unfold TrimSuffix. rewrite string_length_app.
  replace (String.length s + String.length e - String.length e)%nat
    with (String.length s) by lia.
  rewrite substring_app_skip, substring_all, String.eqb_refl.
  destruct (Nat.leb_spec (String.length e) (String.length s + String.length e));
    [ | lia].
  cbn. apply substring_app_prefix.
Qed.

(** X19.  [setup] reads the base offset back from the names that
    [newSegment] gives to the two files of a segment: for every base
    offset [b], trimming the extension from [fmt.Sprintf("%d%s", b, ext)]
    and parsing the rest gives [b], for both extensions. *)
Theorem setup_parses_file_name (b : Z) (ext : string) :
  0 <= b < 2 ^ 64 ->
  ext = ".store"%string \/ ext = ".index"%string ->
  Ext (file_name b ext) = ext /\
  TrimSuffix (file_name b ext) (Ext (file_name b ext))
    = NilZero.string_of_uint (N.to_uint (Z.to_N b)) /\
  ParseUint (TrimSuffix (file_name b ext) (Ext (file_name b ext))) = b.
Proof.
  intros Hb Hext. unfold file_name.
  assert (HE : Ext (NilZero.string_of_uint (N.to_uint (Z.to_N b)) ++ ext) = ext).
  { rewrite Ext_app; destruct Hext as [-> | ->]; (reflexivity || discriminate). }
  rewrite HE, TrimSuffix_app.
  split; [reflexivity | ]. split; [reflexivity | ].
  apply ParseUint_string_of_uint. exact Hb.
Qed.

Lemma setup_parses_file_name_witness :
  ParseUint (TrimSuffix (file_name 16 ".store") (Ext (file_name 16 ".store"))) = 16.
Proof.
  destruct (setup_parses_file_name 16 ".store") as (_ & _ & H).
  - lia.
  - left. reflexivity.
  - exact H.
Defined.

(** * Appends do not run out of index *)

Section AppendRoom.
Context {codec : Codec}.

Lemma segment_Append_store_bound s rs r p res s' :
  seg_holds s rs ->
  Marshal (with_offset r (nextOffset s)) = Ok p ->
  segment_Append s r = (res, s') ->
  Z.of_nat (length (store_content (s_store s'))) < 2 ^ 63 ->
  store_size (s_store s) + lenWidth + Z.of_nat (length p) < 2 ^ 63.
Proof.
  intros Hh HM HA Hlen.
  pose proof Hh as ((_ & He & Hsize & _) & _).
  destruct (store_Append_ok (s_store s) p He) as (st & HS & _ & _ & _ & Hco & _).
  assert (Hst : s_store s' = st).
  { revert HA. unfold segment_Append.
    change {| Value := Value r; Offset := nextOffset s |}
      with (with_offset r (nextOffset s)). rewrite HM, HS.
    destruct (index_Write _ _ _) as [[e|] ix]; intros [= <- <-]; reflexivity. }
  rewrite Hst, Hco, !length_app, PutUint64_length in Hlen.
  rewrite Hsize. unfold lenWidth. lia.
Qed.

Lemma segment_Append_Marshal_error s r e :
  Marshal (with_offset r (nextOffset s)) = Err e ->
  segment_Append s r = (Err e, s).
Proof.
  intros HM. unfold segment_Append.
  change {| Value := Value r; Offset := nextOffset s |}
    with (with_offset r (nextOffset s)). rewrite HM. reflexivity.
Qed.

Lemma segment_Read_sizes s off res s' :
  segment_Read s off = (res, s') ->
  s_index s' = s_index s /\ config s' = config s /\
  store_size (s_store s') = store_size (s_store s) /\
  store_name (s_store s') = store_name (s_store s).
Proof.
  assert (HF : forall st e st', buf_Flush st = (e, st') ->
            store_size st' = store_size st /\ store_name st' = store_name st).
  { intros st e st'. unfold buf_Flush. destruct (buf_err st).
    - intros [= <- <-]. auto.
    - destruct (buf st); [intros [= <- <-]; auto | ].
      destruct (store_closed st); intros [= <- <-]; auto. }
  assert (HR : forall st pos r st', store_Read st pos = (r, st') ->
            store_size st' = store_size st /\ store_name st' = store_name st).
  { intros st pos r st'. unfold store_Read.
    destruct (buf_Flush st) as [[e|] st1] eqn:EF; apply HF in EF.
    - intros [= <- <-]. exact EF.
    - destruct (File_ReadAt st1 _ _); [ | intros [= <- <-]; exact EF].
      destruct (_ <=? _); [intros [= <- <-]; exact EF | ].
      destruct (File_ReadAt st1 _ _); intros [= <- <-]; exact EF. }
  unfold segment_Read. destruct (index_Read _ _) as [[o pos]|e].
  - destruct (store_Read _ _) as [[p|e] st] eqn:ES; apply HR in ES;
      intros [= <- <-]; cbn; tauto.
  - intros [= <- <-]. auto.
Qed.

Lemma IsMaxed_fresh s :
  seg_holds s [] -> store_content (s_store s) = [] ->
  0 < MaxStoreBytes (config s) -> 0 < MaxIndexBytes (config s) ->
  IsMaxed s = false.
Proof.
  intros ((_ & _ & Hsz & _) & _ & Hisz & _) Hco HS HI.
  unfold IsMaxed. rewrite Hsz, Hco, Hisz.
  apply orb_false_intro; apply Z.leb_gt; cbn [length Z.of_nat]; lia.
Qed.

(** [Log.Append] on a log with room leaves a log with room, and fails
    only if the record cannot be marshalled. *)
Lemma log_room_Append b l r :
  log_ok b l -> log_inv l -> log_room l -> config_whole (LConfig l) ->
  b + 1 < 2 ^ 64 ->
  stores_below (snd (Log_Append l r)) ->
  log_room (snd (Log_Append l r)) /\
  (forall a s p, activeSegment l = Some a -> heap l !! a = Some s ->
     Marshal (with_offset r (nextOffset s)) = Ok p ->
     fst (Log_Append l r) = (nextOffset s, None)).
Proof.
  intros Hok Hinv Hroom [(m & Hm & HMm) HSt] Hb1 Hsb.
  destruct Hinv as (Hnd & Hc & a & s & rs & Ea & Hlast & Hs & Hh).
  destruct Hroom as (a' & s' & Ea' & Hs' & Hmax & Hml & Hcfg).
  assert (a' = a) by congruence. subst a'.
  assert (s' = s) by congruence. subst s'.
  pose proof (log_ok_tight _ _ _ _ Hok Ea Hs) as Hok'.
  destruct Hok as (_ & Hlt & _ & Hact). rewrite Ea in Hact.
  destruct Hact as (s0 & Hs0 & Hsane & Hbd & _ & _ & _ & Hnames).
  assert (s0 = s) by congruence. subst s0.
  assert (Halt : (a < length (heap l))%nat) by (eapply lookup_lt_Some; eauto).
  destruct (Log_Append_effect l r a s Ea Hs) as (res & s1 & more & EA & Hheap & _).
  assert (Hlen1 : Z.of_nat (length (store_content (s_store s1))) < 2 ^ 63).
  { apply (Hsb a). unfold seg_at. rewrite Hheap.
    rewrite lookup_app_l by (rewrite length_insert; exact Halt).
    apply list_lookup_insert_eq. exact Halt. }
  clear Hheap more.
  assert (Hn64 : nextOffset s + 1 < 2 ^ 64) by (unfold seg_sane in Hsane; lia).
  change entWidth with 12 in *.
  destruct (Marshal (with_offset r (nextOffset s))) as [p|e] eqn:HM.
  - pose proof (segment_Append_store_bound s rs r p _ _ Hh HM EA Hlen1) as Hsz.
    destruct (segment_Append_holds s rs r p Hh HM Hsz Hn64)
      as (s1' & Hb' & Hc' & Hsn & Hin & Hml' & Hss & [(Hrm & HA1 & Hh1) | (Hfull & _)]).
    2:{ exfalso. revert Hmax. unfold IsMaxed. rewrite Hcfg, HMm.
        destruct Hh as (_ & _ & Hisz & _). change entWidth with 12 in *.
        destruct (Z.leb_spec (MaxStoreBytes (LConfig l)) (store_size (s_store s)));
          [discriminate | ].
        destruct (Z.leb_spec (12 * m) (index_size (s_index s))); [discriminate | ].
        intros _. lia. }
    rewrite HA1 in EA. injection EA as <- <-.
    unfold Log_Append. rewrite Ea, Hs, HA1.
    destruct (IsMaxed s1') eqn:EM.
    + rewrite (wrap64_small (nextOffset s + 1)) by (unfold seg_sane in Hsane; lia).
      unfold Log_newSegment, set_heap. cbn [Dir LConfig heap segments activeSegment].
      assert (Hfresh : forall ext, ext = ".store"%string \/ ext = ".index"%string ->
                Dir l !! file_name (nextOffset s + 1) ext = None).
      { intros ext Hext.
        destruct (Dir l !! file_name (nextOffset s + 1) ext) as [v|] eqn:E; [ | reflexivity].
        destruct (Hnames _ (ex_intro _ v E)) as (b0 & Hf & Hb0).
        assert (Hf' : segment_file (file_name (nextOffset s + 1) ext) (nextOffset s + 1))
          by (destruct Hext as [-> | ->]; [left | right]; reflexivity).
        unfold seg_sane in Hsane.
        assert (b0 = nextOffset s + 1)
          by (eapply segment_file_inj; [ | | exact Hf | exact Hf']; lia).
        lia. }
      destruct (newSegment_holds (Dir l) (nextOffset s + 1) (LConfig l) []
                  (seg_files_fresh _ _ (Hfresh _ (or_introl eq_refl))
                     (Hfresh _ (or_intror eq_refl))))
        as (sn & d' & -> & Hhn & _ & _ & Hcn & _ & _ & Hmln & Hcon & _);
        [unfold seg_sane in Hsane; lia | cbn [length Z.of_nat]; lia
        | change entWidth with 12; lia
        | cbn [length Z.of_nat]; lia | ].
      cbn [fst snd]. split.
      * exists (length (<[a := s1']> (heap l))), sn.
        cbn [activeSegment heap LConfig].
        split; [reflexivity | ].
        split; [rewrite lookup_app_r by lia; now rewrite Nat.sub_diag | ].
        split; [ | split; [exact Hmln | exact Hcn] ].
        apply IsMaxed_fresh; rewrite ?Hcn; try assumption.
        -- rewrite Hcon, (Hfresh _ (or_introl eq_refl)). reflexivity.
        -- lia.
      * intros a0 s0 p0 Ha0 Hs0' _. assert (a0 = a) by congruence. subst a0.
        assert (s0 = s) by congruence. subst s0. reflexivity.
    + cbn [fst snd]. split.
      * exists a, s1'. cbn [activeSegment heap LConfig set_heap].
        split; [exact Ea | ].
        split; [apply list_lookup_insert_eq; exact Halt | ].
        split; [exact EM | ]. split; [ | congruence].
        rewrite Hml'. exact Hml.
      * intros a0 s0 p0 Ha0 Hs0' _. assert (a0 = a) by congruence. subst a0.
        assert (s0 = s) by congruence. subst s0. reflexivity.
  - rewrite (segment_Append_Marshal_error s r e HM) in EA. injection EA as <- <-.
    unfold Log_Append. rewrite Ea, Hs, (segment_Append_Marshal_error s r e HM).
    cbn [fst snd]. split.
    + exists a, s. cbn [activeSegment heap LConfig set_heap].
      split; [exact Ea | ].
      split; [apply list_lookup_insert_eq; exact Halt | auto].
    + intros a0 s0 p0 Ha0 Hs0' HM'. assert (a0 = a) by congruence. subst a0.
      assert (s0 = s) by congruence. subst s0. congruence.
Qed.

Lemma log_room_Read l off : log_room l -> log_room (snd (Log_Read l off)).
Proof.
  intros (a & s & Ea & Hs & Hmax & Hml & Hcfg).
  destruct (Log_Read l off) as [res l'] eqn:ER. cbn [snd].
  apply Log_Read_heap in ER as (_ & HC & _ & Hact & Hheap).
  destruct Hheap as [Heq | (p & sp & sp' & r & Hsp & HR & Heq)].
  - exists a, s. rewrite Hact, Heq, HC. auto.
  - destruct (decide (p = a)) as [-> | Hne].
    + assert (sp = s) by congruence. subst sp.
      apply segment_Read_sizes in HR as (Hix & Hc & Hss & _).
      exists a, sp'. rewrite Hact, Heq, HC.
      split; [exact Ea | ].
      split; [apply list_lookup_insert_eq; eapply lookup_lt_Some; exact Hs | ].
      split; [ | rewrite Hix, Hc; auto].
      revert Hmax. unfold IsMaxed. rewrite Hix, Hc, Hss. auto.
    + exists a, s. rewrite Hact, Heq, HC.
      split; [exact Ea | ].
      split; [rewrite list_lookup_insert_ne by exact Hne; exact Hs | auto].
Qed.

Lemma log_room_Truncate b l lowest :
  log_ok b l -> log_inv l -> log_room l ->
  fst (Log_Truncate l lowest) = None ->
  segments (snd (Log_Truncate l lowest)) <> [] ->
  log_inv (snd (Log_Truncate l lowest)) /\ log_room (snd (Log_Truncate l lowest)).
Proof.
  intros Hok Hinv (a & s & Ea & Hs & Hmax & Hml & Hcfg) Hres Hne.
  destruct (segments (snd (Log_Truncate l lowest))) as [|p0 rest] eqn:Eseg;
    [congruence | ].
  assert (Hp0 : p0 ∈ segments (snd (Log_Truncate l lowest)))
    by (rewrite Eseg; apply list_elem_of_here).
  destruct (log_inv_Truncate b l lowest p0 Hok Hinv Hres Hp0) as [Hinv' _].
  split; [exact Hinv' | ].
  destruct Hinv' as (_ & _ & a' & s' & rs' & Ea' & Hlast' & Hs' & _).
  revert Hres Ea' Hlast' Hs'. unfold Log_Truncate.
  destruct (Truncate_loop _ _ _ _ _) as [[[res d'] h'] kept'] eqn:ET.
  destruct res as [e|]; cbn [fst snd segments heap activeSegment]; [discriminate | ].
  intros _ Ea' Hlast' Hs'.
  assert (a' = a) by congruence. subst a'.
  apply Truncate_loop_kept in ET as (_ & Hsame & kn & Hkn & _ & Hmem).
  cbn [app] in Hkn. subst kn.
  assert (Ha : a ∈ kept').
  { apply last_Some in Hlast' as (pre & ->). apply elem_of_app. right.
    apply list_elem_of_here. }
  apply Hmem in Ha as (_ & sa & Hsa & Hgt).
  assert (sa = s) by congruence. subst sa.
  pose proof (Hsame a s Hs Hgt) as Hkeep.
  exists a, s. cbn [activeSegment heap LConfig]. auto.
Qed.

Lemma truncates_keep_succeed ops : forall l,
  truncates_keep ops l -> truncates_succeed ops l.
Proof.
  induction ops as [|o ops IH]; intros l; cbn; [auto | ].
  intros [Ho Hrest]. split; [ | apply IH; exact Hrest].
  destruct o; tauto.
Qed.

Lemma run_room ops : forall b l,
  log_ok b l -> log_inv l -> log_room l -> config_whole (LConfig l) ->
  truncates_keep ops l ->
  b + Z.of_nat (length ops) < 2 ^ 64 ->
  stores_below (run ops l) ->
  log_ok (b + Z.of_nat (length ops)) (run ops l) /\
  log_inv (run ops l) /\ log_room (run ops l).
Proof.
  induction ops as [|o ops IH]; intros b l Hok Hinv Hroom Hcfg Htk Hb Hsb.
  - cbn in *. rewrite Z.add_0_r. auto.
  - change (run (o :: ops) l) with (run ops (run_op l o)) in *.
    destruct Htk as [Hto Htk]. cbn [length] in Hb |- *.
    destruct (run_heap ops (run_op l o)) as (_ & Hg & _).
    pose proof (stores_below_grows _ _ Hg Hsb) as Hsb1.
    assert (HM : 0 < MaxIndexBytes (LConfig l) <= 2 ^ 32 * entWidth).
    { destruct Hcfg as [(m & Hm & ->) _]. change entWidth with 12. lia. }
    assert (Hstep : log_ok (b + 1) (run_op l o) /\ log_inv (run_op l o) /\
                    log_room (run_op l o)).
    { destruct o as [r | off | lowest]; cbn [run_op] in *.
      - split; [apply log_ok_Append; [exact Hok | lia] | ].
        split; [eapply log_inv_Append; eauto; lia | ].
        eapply log_room_Append; eauto. lia.
      - split; [eapply log_ok_mono; [apply log_ok_Read; exact Hok | lia] | ].
        split; [apply log_inv_Read; exact Hinv | apply log_room_Read; exact Hroom].
      - split; [eapply log_ok_mono; [apply log_ok_Truncate; exact Hok | lia] | ].
        destruct Hto as [Hres Hne].
        apply (log_room_Truncate b); assumption. }
    destruct Hstep as (Hok1 & Hinv1 & Hroom1).
    replace (b + Z.of_nat (S (length ops))) with (b + 1 + Z.of_nat (length ops)) by lia.
    apply IH; auto.
    + rewrite LConfig_run_op. exact Hcfg.
    + lia.
Qed.

Lemma LConfig_run ops : forall l, LConfig (run ops l) = LConfig l.
Proof.
  induction ops as [|o ops IH]; intros l; [reflexivity | ].
  change (run (o :: ops) l) with (run ops (run_op l o)).
  rewrite IH. apply LConfig_run_op.
Qed.

Lemma NewLog_empty_room c :
  0 <= InitialOffset c < 2 ^ 64 ->
  (exists m, 1 <= m <= 2 ^ 32 /\ MaxIndexBytes c = entWidth * m) ->
  0 <= MaxStoreBytes c ->
  log_room (snd (NewLog ∅ c)) /\ config_whole (LConfig (snd (NewLog ∅ c))).
Proof.
  intros HI (m & Hm & HMm) HS. change entWidth with 12 in *.
  unfold NewLog, setup. cbn [Dir LConfig InitialOffset MaxIndexBytes MaxStoreBytes].
  unfold ReadDir. rewrite map_to_list_empty. cbn [fmap list_fmap setup_loop segments].
  change (merge_sort Z.le []) with (@nil Z). cbn [setup_loop segments].
  unfold Log_newSegment. cbn [Dir LConfig heap segments activeSegment].
  set (c2 := {| MaxStoreBytes := _; MaxIndexBytes := _; InitialOffset := _ |}).
  change (InitialOffset c2) with (InitialOffset c).
  assert (HM2 : MaxIndexBytes c2 = 12 * m).
  { subst c2. cbn [MaxIndexBytes]. destruct (Z.eqb_spec (MaxIndexBytes c) 0); lia. }
  assert (HS2 : 0 < MaxStoreBytes c2).
  { subst c2. cbn [MaxStoreBytes]. destruct (Z.eqb_spec (MaxStoreBytes c) 0); lia. }
  destruct (newSegment_holds ∅ (InitialOffset c) c2 []
              (seg_files_fresh ∅ _ (lookup_empty _) (lookup_empty _)))
    as (s & d' & -> & Hh & _ & _ & Hc & _ & _ & Hml & Hco & _);
    [lia | cbn [length Z.of_nat]; lia | change entWidth with 12; lia
    | cbn [length Z.of_nat]; lia | ].
  cbn [snd LConfig]. split.
  - exists 0%nat, s. cbn [activeSegment heap LConfig app].
    split; [reflexivity | ]. split; [reflexivity | ].
    split; [ | split; [exact Hml | exact Hc] ].
    apply IsMaxed_fresh; rewrite ?Hc; try assumption. lia.
  - split; [exists m; split; [exact Hm | exact HM2] | exact HS2].
Qed.

(** X20.  With a [MaxIndexBytes] that is a whole number of index entries,
    [Log.Append] never fails for lack of room: in a log made in an empty
    directory, after any appends, reads and truncations that leave a
    segment, an append whose record can be marshalled returns an offset
    and no error. *)
Theorem Log_Append_succeeds (c : Config) (ops : list op) (r : api_Record) :
  0 <= InitialOffset c ->
  InitialOffset c + Z.of_nat (length ops) + 1 < 2 ^ 64 ->
  (exists m, 1 <= m <= 2 ^ 32 /\ MaxIndexBytes c = entWidth * m) ->
  0 <= MaxStoreBytes c ->
  truncates_keep ops (snd (NewLog ∅ c)) ->
  (forall off, 0 <= off < 2 ^ 64 -> exists p, Marshal (with_offset r off) = Ok p) ->
  stores_below (snd (Log_Append (run ops (snd (NewLog ∅ c))) r)) ->
  exists O, fst (Log_Append (run ops (snd (NewLog ∅ c))) r) = (O, None).
Proof.
  intros HI Hb Hm HS Htk HMar Hsb.
  assert (HM : 0 <= MaxIndexBytes c <= 2 ^ 32 * entWidth).
  { destruct Hm as (m & Hm & ->). change entWidth with 12. lia. }
  pose proof (NewLog_empty_ok c ltac:(lia)) as Hok0.
  destruct (NewLog_empty_inv c ltac:(lia) HM) as [_ Hinv0].
  destruct (NewLog_empty_room c ltac:(lia) Hm HS) as [Hroom0 Hcfg0].
  set (l0 := snd (NewLog ∅ c)) in *.
  assert (Hsb' : stores_below (run ops l0)).
  { destruct (run_op_heap (run ops l0) (OpAppend r)) as (_ & Hg & _).
    exact (stores_below_grows _ _ Hg Hsb). }
  destruct (run_room ops (InitialOffset c) l0 Hok0 Hinv0 Hroom0 Hcfg0 Htk ltac:(lia) Hsb')
    as (Hok & Hinv & Hroom).
  assert (Hcfg : config_whole (LConfig (run ops l0)))
    by (rewrite LConfig_run; exact Hcfg0).
  destruct (log_room_Append _ _ r Hok Hinv Hroom Hcfg ltac:(lia) Hsb) as [_ Hres].
  destruct Hroom as (a & s & Ea & Hs & _).
  assert (Hsane : seg_sane s).
  { destruct Hok as (_ & _ & _ & Hact). rewrite Ea in Hact.
    destruct Hact as (s0 & Hs0 & Hsane & _). congruence. }
  destruct (HMar (nextOffset s)) as [p Hp]; [unfold seg_sane in Hsane; lia | ].
  exists (nextOffset s). exact (Hres a s p Ea Hs Hp).
Qed.

(** X21.  When the index of the active segment has no room left (as
    happens when [MaxIndexBytes] is not a whole number of entries),
    [Log.Append] fails with [io.EOF], makes no new segment, and leaves the
    log in the same condition, so that every later append fails in the
    same way. *)
Theorem Log_Append_index_full (l : Log) (r : api_Record) (a : nat)
    (s : segment) (rs : list api_Record) (p : bytes) :
  activeSegment l = Some a -> heap l !! a = Some s ->
  seg_holds s rs ->
  Z.of_nat (length (mmap (s_index s))) < index_size (s_index s) + entWidth ->
  Marshal (with_offset r (nextOffset s)) = Ok p ->
  store_size (s_store s) + lenWidth + Z.of_nat (length p) < 2 ^ 63 ->
  nextOffset s + 1 < 2 ^ 64 ->
  exists s',
    Log_Append l r = (0, Some EOF, set_heap l (<[a := s']> (heap l))) /\
    seg_holds s' rs /\ nextOffset s' = nextOffset s /\
    Z.of_nat (length (mmap (s_index s'))) < index_size (s_index s') + entWidth.
Proof.
  intros Ea Hs Hh Hfull HM Hsz Hn.
  destruct (segment_Append_holds s rs r p Hh HM Hsz Hn)
    as (s' & _ & _ & _ & _ & Hml & _ & [(Hroom & _) | (_ & HA & Hh')]); [lia | ].
  exists s'. unfold Log_Append. rewrite Ea, Hs, HA.
  split; [reflexivity | ]. split; [exact Hh' | ].
  destruct (segment_Append_offsets s r _ _ HA) as (_ & _ & [(e & _ & Hnx) | (Hok & _)]);
    [ | discriminate].
  split; [exact Hnx | ].
  destruct Hh as (_ & _ & Hi & _). destruct Hh' as (_ & _ & Hi' & _).
  rewrite Hml, Hi'. rewrite Hi in Hfull. exact Hfull.
Qed.

End AppendRoom.

Lemma Log_Append_succeeds_witness :
  exists O,
    fst (Log_Append (codec := example_codec)
           (run (codec := example_codec)
              (replicate 4 (OpAppend hello_record) ++ [OpRead 1; OpTruncate 0])
              (snd (NewLog ∅ example_config)))
           hello_record) = (O, None).
Proof.
  apply (Log_Append_succeeds (codec := example_codec) example_config
           (replicate 4 (OpAppend hello_record) ++ [OpRead 1; OpTruncate 0])
           hello_record).
  - vm_compute. discriminate.
  - vm_compute. reflexivity.
  - exists 3. vm_compute. split; [split; discriminate | reflexivity].
  - vm_compute. discriminate.
  - vm_compute. repeat split; discriminate.
  - intros off Hoff. unfold Marshal, example_codec, with_offset. cbn [Offset Value].
    destruct (Z.leb_spec 0 off); [ | lia].
    destruct (Z.ltb_spec off (2 ^ 64)); [ | lia]. cbn. eauto.
  - intros p s Hs. unfold seg_at in Hs.
    do 2 (destruct p as [|p];
          [vm_compute in Hs; injection Hs as <-; vm_compute; reflexivity | ]).
    vm_compute in Hs. discriminate.
Defined.

Lemma Log_Append_index_full_witness :
  exists l1 l2,
    Log_Append (codec := example_codec)
      (snd (NewLog ∅ {| MaxStoreBytes := 1024; MaxIndexBytes := 20;
                        InitialOffset := 0 |})) hello_record
    = (0, None, l1) /\
    Log_Append (codec := example_codec) l1 hello_record = (0, Some EOF, l2).
Proof.
  set (c := {| MaxStoreBytes := 1024; MaxIndexBytes := 20; InitialOffset := 0 |}).
  destruct (Log_Append (codec := example_codec) (snd (NewLog ∅ c)) hello_record)
    as [[O err] l1] eqn:EA.
  assert (HO : O = 0 /\ err = None) by (vm_compute in EA; split; congruence).
  destruct HO as [-> ->].
  assert (Hinv : log_inv (codec := example_codec) l1).
  { replace l1 with (snd (Log_Append (codec := example_codec) (snd (NewLog ∅ c))
                            hello_record)) by (rewrite EA; reflexivity).
    apply (log_inv_Append (codec := example_codec) (InitialOffset c)).
    - apply NewLog_empty_ok. vm_compute. split; [discriminate | reflexivity].
    - apply NewLog_empty_inv; vm_compute; split; (discriminate || reflexivity).
    - vm_compute. reflexivity.
    - vm_compute. split; [reflexivity | discriminate].
    - rewrite EA. cbn [snd]. vm_compute in EA. injection EA as <-.
      intros p s Hs. unfold seg_at in Hs.
      destruct p as [|p];
        [vm_compute in Hs; injection Hs as <-; vm_compute; reflexivity | ].
      vm_compute in Hs. discriminate. }
  destruct Hinv as (_ & _ & a & s & rs & Ea & _ & Hs & Hh).
  assert (Hfacts : Z.of_nat (length (mmap (s_index s))) < index_size (s_index s) + entWidth /\
                   nextOffset s = 1 /\ store_size (s_store s) = 27).
  { vm_compute in EA. injection EA as <-. vm_compute in Ea. injection Ea as <-.
    vm_compute in Hs. injection Hs as <-. vm_compute. repeat split; reflexivity. }
  destruct Hfacts as (Hfull & Hnx & Hss).
  destruct (Log_Append_index_full (codec := example_codec) l1 hello_record a s rs
              (PutUint64 1 ++ hello_world) Ea Hs Hh Hfull)
    as (s' & HA & _).
  - rewrite Hnx. reflexivity.
  - rewrite Hss. vm_compute. reflexivity.
  - rewrite Hnx. reflexivity.
  - exists l1, (set_heap l1 (<[a := s']> (heap l1))). split; [reflexivity | exact HA].
Defined.
